(** * LION: the adversarial convex regulariser (ACR) and the Noise2Inverse solver

    A shallow embedding of
      - [LION/models/learned_regularizer/ACR.py]
        ([Positive], [ICNN_layer], [L2net], [SFB], [ACR]) and
      - [LION/optimizers/Noise2Inverse_solver.py]
        ([make_sub_operators], [compute_noisy_sub_recon], [mini_batch_step]).

    Tensors hold exact rationals ([Q]) in place of floating point numbers, so
    every statement below is a statement in exact arithmetic.  A tensor of
    rank n is an n-fold nested list, outermost dimension first, as
    [Tensor.tolist()] prints it. *)

From Stdlib Require Import String Bool ZArith QArith Qminmax Qabs Lqa Lia List.
Import ListNotations.

Local Open Scope Q_scope.

(* ================================================================== *)
(** ** Tensors *)
(* ================================================================== *)

Module Tensor.

(** One image plane [H, W], a stack of planes [C, H, W] (one sample), a batch
    [N, C, H, W]; convolution weights are [out, in, k, k]. *)
Definition image := list (list Q).
Definition fmaps := list image.
Definition batch := list fmaps.
Definition tensor4 := list (list (list (list Q))).

(** [zip_with] is the element-wise binary operation of two tensors of one
    shape. *)
Fixpoint zip_with {A B C} (f : A -> B -> C) (l : list A) (r : list B) : list C :=
  match l, r with
  | a :: l', b :: r' => f a b :: zip_with f l' r'
  | _, _ => []
  end.

Definition sumQ (l : list Q) : Q := fold_right Qplus 0 l.

(** Sum of [f 0 .. f (n-1)]. *)
Definition sum_upto (n : nat) (f : nat -> Q) : Q := sumQ (map f (seq 0 n)).

(** Reading one entry; an index outside the tensor reads 0, which is what a
    zero-padded convolution sees there. *)
Definition px (im : image) (i j : Z) : Q :=
  if ((0 <=? i) && (0 <=? j))%Z
  then nth (Z.to_nat j) (nth (Z.to_nat i) im []) 0
  else 0.

Definition px3 (x : fmaps) (c : nat) (i j : Z) : Q := px (nth c x []) i j.

Definition w4 (w : tensor4) (o c a b : nat) : Q :=
  nth b (nth a (nth c (nth o w []) []) []) 0.

(** Building a plane and a stack from their entries. *)
Definition tabulate (H W : nat) (f : nat -> nat -> Q) : image :=
  map (fun i => map (fun j => f i j) (seq 0 W)) (seq 0 H).

Definition tabulate3 (C H W : nat) (f : nat -> nat -> nat -> Q) : fmaps :=
  map (fun c => tabulate H W (f c)) (seq 0 C).

(** Spatial size of a stack, read off its first plane and first row (torch
    tensors are rectangular). *)
Definition height (x : fmaps) : nat := length (nth 0%nat x []).
Definition width (x : fmaps) : nat := length (nth 0%nat (nth 0%nat x []) []).

(** A plane of [H] rows of [W] entries each. *)
Definition rect (H W : nat) (im : image) : Prop :=
  length im = H /\ Forall (fun row => length row = W) im.

Definition rectb (H W : nat) (im : image) : bool :=
  Nat.eqb (length im) H && forallb (fun row => Nat.eqb (length row) W) im.

(** Element-wise maps. *)
Definition map2d (f : Q -> Q) (im : image) : image := map (map f) im.
Definition map3d (f : Q -> Q) (x : fmaps) : fmaps := map (map2d f) x.
Definition map4d (f : Q -> Q) (x : batch) : batch := map (map3d f) x.

Definition zip2d (f : Q -> Q -> Q) (a b : image) : image :=
  zip_with (zip_with f) a b.
Definition zip3d (f : Q -> Q -> Q) (a b : fmaps) : fmaps :=
  zip_with (zip2d f) a b.
Definition zip4d (f : Q -> Q -> Q) (a b : batch) : batch :=
  zip_with (zip3d f) a b.

(** [x.view(n, -1)] of one sample: all its entries in one row. *)
Definition flatten2 (im : image) : list Q := concat im.
Definition flatten3 (x : fmaps) : list Q := concat (map flatten2 x).

(** The convex combination [t * x1 + (1 - t) * x2] of two images. *)
Definition mix (t : Q) (x1 x2 : image) : image :=
  zip2d (fun a b => t * a + (1 - t) * b) x1 x2.

Definition Qlt_bool (x y : Q) : bool := negb (Qle_bool y x).

End Tensor.
Import Tensor.

(* ================================================================== *)
(** ** [ACR.py] *)
(* ================================================================== *)

Module ACR.

Inductive error : Type :=
| ValueError (msg : string)
| AttributeError (msg : string)
| IndexError (msg : string).

(** *** [class Positive]

    [forward(X) = torch.clip(X, min=0.0)], entry by entry. *)
Definition clip_min0 (v : Q) : Q := Qmax v 0.

Definition Positive_forward (X : tensor4) : tensor4 := map (map3d clip_min0) X.

(** *** Convolutions

    An [nn.Conv2d] whose [weight] may carry parametrizations.  As in
    [torch.nn.utils.parametrize], the module keeps the trained tensor
    ([original]) and the registered parametrization modules; the attribute
    [weight] is recomputed from them at every read. *)
Inductive Parametrization : Type :=
| Positive.

Definition parametrization_forward (p : Parametrization) : tensor4 -> tensor4 :=
  match p with
  | Positive => Positive_forward
  end.

(** [padding="same"] or a number of zero rows and columns on every side. *)
Inductive Padding : Type :=
| Same
| Pad (p : nat).

Record Conv2d : Type := {
  in_channels : nat;
  out_channels : nat;
  kernel_size : nat;
  padding : Padding;
  original : tensor4;
  parametrizations : list Parametrization;
  bias : option (list Q)
}.

Definition register_parametrization (c : Conv2d) (p : Parametrization) : Conv2d :=
  {| in_channels := in_channels c;
     out_channels := out_channels c;
     kernel_size := kernel_size c;
     padding := padding c;
     original := original c;
     parametrizations := parametrizations c ++ [p];
     bias := bias c |}.

(** Reading [conv.weight]. *)
Definition weight (c : Conv2d) : tensor4 :=
  fold_left (fun X p => parametrization_forward p X) (parametrizations c) (original c).

(** What an optimizer step does to the module: it replaces the trained
    tensor and nothing else. *)
Definition set_original (c : Conv2d) (X : tensor4) : Conv2d :=
  {| in_channels := in_channels c;
     out_channels := out_channels c;
     kernel_size := kernel_size c;
     padding := padding c;
     original := X;
     parametrizations := parametrizations c;
     bias := bias c |}.

(** Zero rows added before the first row (columns likewise).  For
    [padding="same"] torch pads [k - 1] in total, the smaller half first. *)
Definition pad_before (c : Conv2d) : nat :=
  match padding c with
  | Same => (kernel_size c - 1) / 2
  | Pad p => p
  end.

Definition out_size (c : Conv2d) (n : nat) : nat :=
  match padding c with
  | Same => n
  | Pad p => n + 2 * p + 1 - kernel_size c
  end.

Definition bias_at (c : Conv2d) (o : nat) : Q :=
  match bias c with
  | Some b => nth o b 0
  | None => 0
  end.

(** One output entry of the (stride 1) cross-correlation computed by
    [nn.Conv2d], for the weight tensor [w]. *)
Definition conv_entry (c : Conv2d) (w : tensor4) (x : fmaps) (o i j : nat) : Q :=
  bias_at c o +
  sum_upto (in_channels c) (fun ci =>
    sum_upto (kernel_size c) (fun a =>
      sum_upto (kernel_size c) (fun b =>
        w4 w o ci a b *
        px3 x ci (Z.of_nat i + Z.of_nat a - Z.of_nat (pad_before c))
                 (Z.of_nat j + Z.of_nat b - Z.of_nat (pad_before c))))).

(** [conv(x)] for one sample [x] of shape [C, H, W]. *)
Definition Conv2d_forward (c : Conv2d) (x : fmaps) : fmaps :=
  tabulate3 (out_channels c) (out_size c (height x)) (out_size c (width x))
    (conv_entry c (weight c) x).

(** *** Activations *)
Inductive Activation : Type :=
| LeakyReLU (negative_slope : Q)
| ReLU.

(** [LeakyReLU(v) = max(0, v) + negative_slope * min(0, v)] and
    [ReLU(v) = max(0, v)]. *)
Definition activation_apply (a : Activation) (v : Q) : Q :=
  match a with
  | LeakyReLU s => Qmax 0 v + s * Qmin 0 v
  | ReLU => Qmax 0 v
  end.

(** The choice made from [relu_type], in [ICNN_layer.__init__] and again in
    [ACR.__init__]. *)
Definition activation_of (relu_type : string) : error + Activation :=
  if String.eqb relu_type "LeakyReLU" then inr (LeakyReLU (2 # 10))
  else if String.eqb relu_type "ReLU" then inr ReLU
  else inl (ValueError
    "Only Leaky ReLU supported (needs to be a convex and monotonically nondecreasin fun)").

(** [nn.Conv2d(..., stride=stride, padding="same")] is refused by torch unless
    the stride is 1. *)
Definition same_padding_stride (stride : nat) : error + unit :=
  if Nat.eqb stride 1 then inr tt
  else inl (ValueError "padding='same' is not supported for strided convolutions").

(** *** [class ICNN_layer] *)
Record ICNN_layer : Type := {
  blue : Conv2d;
  orange : Conv2d;
  activation : Activation
}.

(** [__init__]; [blue_init], [orange_init] and [orange_bias] are the values
    torch's default initialisation puts into the new tensors. *)
Definition ICNN_layer_init (channels ksize stride : nat) (relu_type : string)
    (blue_init orange_init : tensor4) (orange_bias : list Q) : error + ICNN_layer :=
  match same_padding_stride stride with
  | inl e => inl e
  | inr _ =>
    let blue0 := {| in_channels := channels; out_channels := channels;
                    kernel_size := ksize; padding := Same;
                    original := blue_init; parametrizations := [];
                    bias := None |} in
    let blue1 := register_parametrization blue0 Positive in
    let orange0 := {| in_channels := 1; out_channels := channels;
                      kernel_size := ksize; padding := Same;
                      original := orange_init; parametrizations := [];
                      bias := Some orange_bias |} in
    match activation_of relu_type with
    | inl e => inl e
    | inr act => inr {| blue := blue1; orange := orange0; activation := act |}
    end
  end.

(** [forward(z, x0)] for one sample:
    [activation(blue(z) + orange(x0))]. *)
Definition ICNN_layer_forward (l : ICNN_layer) (z x0 : fmaps) : fmaps :=
  let res := zip3d Qplus (Conv2d_forward (blue l) z) (Conv2d_forward (orange l) x0) in
  map3d (activation_apply (activation l)) res.

(** The [LIONParameter] of an [SFB]. *)
Module SFBParam.
Record t : Type := {
  n_kernels : nat;
  n_filters : nat;
  L2net : bool
}.
End SFBParam.

(** *** [class L2net]

    [softplus] is [torch.nn.functional.softplus]; it is not a rational
    function, so the development is parametric in it. *)
Section Penalties.

Variable softplus : Q -> Q.

Record L2net : Type := {
  l2_penalty : Q
}.

(** [__init__]: [l2_penalty = -9 * ones(1)]. *)
Definition L2net_init : L2net := {| l2_penalty := - (9 # 1) |}.

(** [forward(x)], of shape [batch, 1]. *)
Definition L2net_forward (n : L2net) (x : batch) : list (list Q) :=
  let l2_term := map (fun s => sumQ (map (fun v => v ^ 2) (flatten3 s))) x in
  map (fun v => [softplus (l2_penalty n) * v]) l2_term.

(** *** [class SFB] *)
Record SFB : Type := {
  SFB_model_parameters : SFBParam.t;
  penalty : Q;
  n_kernels : nat;
  conv : list Conv2d;
  SFB_L2net : option L2net
}.

Definition SFB_default_parameters : SFBParam.t :=
  {| SFBParam.n_kernels := 10; SFBParam.n_filters := 32; SFBParam.L2net := true |}.

(** [__init__]; [kernel_init i] is the value torch's default initialisation
    gives the weight of the [i]-th convolution. *)
Definition SFB_init (model_parameters : SFBParam.t) (kernel_init : nat -> tensor4) : SFB :=
  {| SFB_model_parameters := model_parameters;
     penalty := - (12 # 1);
     n_kernels := SFBParam.n_kernels model_parameters;
     conv := map (fun i =>
                    {| in_channels := 1;
                       out_channels := SFBParam.n_filters model_parameters;
                       kernel_size := 7;
                       padding := Pad 3;
                       original := kernel_init i;
                       parametrizations := [];
                       bias := None |})
                 (seq 0 (SFBParam.n_kernels model_parameters));
     SFB_L2net := if SFBParam.L2net model_parameters then Some L2net_init else None |}.

(** [total_out] starts as the Python float [0.0] and becomes a tensor of
    shape [batch] at the first [+=]. *)
Inductive accumulator : Type :=
| PyFloat (v : Q)
| Tensor1 (t : list Q).

Definition acc_add (a : accumulator) (t : list Q) : accumulator :=
  match a with
  | PyFloat v => Tensor1 (map (fun u => v + u) t)
  | Tensor1 s => Tensor1 (zip_with Qplus s t)
  end.

(** [torch.sum(torch.abs(c(x)).view(x.size(0), -1), dim=1)]. *)
Definition abs_response (c : Conv2d) (x : batch) : list Q :=
  map (fun s => sumQ (flatten3 (map3d Qabs (Conv2d_forward c s)))) x.

(** The loop over [range(self.n_kernels)], from index [i] with [n] rounds
    left. *)
Fixpoint SFB_loop (m : SFB) (x : batch) (n i : nat) (total_out : accumulator)
    : error + accumulator :=
  match n with
  | O => inr total_out
  | S n' =>
    match nth_error (conv m) i with
    | None => inl (IndexError "index out of range")
    | Some c => SFB_loop m x n' (S i) (acc_add total_out (abs_response c x))
    end
  end.

(** [forward(x)]. *)
Definition SFB_forward (m : SFB) (x : batch) : error + list (list Q) :=
  match SFB_loop m x (n_kernels m) 0 (PyFloat 0) with
  | inl e => inl e
  | inr (PyFloat _) => inl (AttributeError "'float' object has no attribute 'view'")
  | inr (Tensor1 total) =>
    let total_out := map (fun v => [v]) total in
    let out := map2d (fun v => softplus (penalty m) * v) total_out in
    if SFBParam.L2net (SFB_model_parameters m) then
      match SFB_L2net m with
      | None => inl (AttributeError "'SFB' object has no attribute 'L2net'")
      | Some l2 => inr (zip2d Qplus out (L2net_forward l2 x))
      end
    else inr out
  end.

End Penalties.

(** *** [class ACR] *)

(** The [LIONParameter] of an [ACR]. *)
Module Param.
Record t : Type := {
  channels : nat;
  kernel_size : nat;
  stride : nat;
  relu_type : string;
  layers : nat;
  var_step : Q;
  var_momentum : Q;
  output : bool;
  earlystop : bool
}.
End Param.

Definition default_parameters : Param.t :=
  {| Param.channels := 48;
     Param.kernel_size := 5;
     Param.stride := 1;
     Param.relu_type := "LeakyReLU";
     Param.layers := 10;
     Param.var_step := 1 # 100000;
     Param.var_momentum := 0;
     Param.output := true;
     Param.earlystop := true |}.

(** The submodules registered by [__init__]; [ICNN_layers] holds
    [ICNN_layer_0], [ICNN_layer_1], ... in this order. *)
Record ACR : Type := {
  model_parameters : Param.t;
  first_layer : Conv2d;
  first_activation : Activation;
  ICNN_layers : list ICNN_layer;
  last_layer : Conv2d
}.

(** The values the new tensors hold when [__init__] returns (after torch's
    default initialisation and [initialize_weights]); nothing below depends
    on what they are. *)
Record InitialTensors : Type := {
  first_weight : tensor4;
  first_bias : list Q;
  blue_weight : nat -> tensor4;
  orange_weight : nat -> tensor4;
  orange_bias : nat -> list Q;
  last_weight : tensor4
}.

(** The loop [for i in range(layers): add_module(f"ICNN_layer_{i}", ...)],
    from index [i] with [n] layers left to build. *)
Fixpoint build_layers (p : Param.t) (init : InitialTensors) (n i : nat)
    : error + list ICNN_layer :=
  match n with
  | O => inr []
  | S n' =>
    match ICNN_layer_init (Param.channels p) (Param.kernel_size p) (Param.stride p)
            (Param.relu_type p)
            (blue_weight init i) (orange_weight init i) (orange_bias init i) with
    | inl e => inl e
    | inr l =>
      match build_layers p init n' (S i) with
      | inl e => inl e
      | inr ls => inr (l :: ls)
      end
    end
  end.

(** [ACR.__init__]. *)
Definition ACR_init (p : Param.t) (init : InitialTensors) : error + ACR :=
  match same_padding_stride (Param.stride p) with
  | inl e => inl e
  | inr _ =>
    let first := {| in_channels := 1; out_channels := Param.channels p;
                    kernel_size := Param.kernel_size p; padding := Same;
                    original := first_weight init; parametrizations := [];
                    bias := Some (first_bias init) |} in
    match activation_of (Param.relu_type p) with
    | inl e => inl e
    | inr act =>
      match build_layers p init (Param.layers p) 0 with
      | inl e => inl e
      | inr ls =>
        let last0 := {| in_channels := Param.channels p; out_channels := 1;
                        kernel_size := Param.kernel_size p; padding := Same;
                        original := last_weight init; parametrizations := [];
                        bias := None |} in
        inr {| model_parameters := p;
               first_layer := first;
               first_activation := act;
               ICNN_layers := ls;
               last_layer := register_parametrization last0 Positive |}
      end
    end
  end.

(** [nn.AdaptiveAvgPool2d((1, 1))]: every plane is replaced by its mean. *)
Definition plane_mean (im : image) : Q :=
  sumQ (flatten2 im) / inject_Z (Z.of_nat (length (flatten2 im))).

Definition pool (x : fmaps) : fmaps := map (fun im => [[plane_mean im]]) x.

(** [ACR.forward] for one sample [x] of shape [1, H, W]; the result has shape
    [1, 1, 1].  The loop over [range(layers)] fetches [ICNN_layer_0],
    [ICNN_layer_1], ... by name, which is a pass over [ICNN_layers]. *)
Definition ACR_forward_sample (m : ACR) (x : fmaps) : fmaps :=
  let z := Conv2d_forward (first_layer m) x in
  let z := map3d (activation_apply (first_activation m)) z in
  let z := fold_left (fun z layer => ICNN_layer_forward layer z x) (ICNN_layers m) z in
  let z := Conv2d_forward (last_layer m) z in
  pool z.

(** [ACR.forward]: every operation above acts on the samples of a batch one
    by one. *)
Definition ACR_forward (m : ACR) (x : batch) : batch := map (ACR_forward_sample m) x.

(** The value [R(x)] of the regulariser at one image. *)
Definition R (m : ACR) (x : image) : Q := px3 (ACR_forward_sample m [x]) 0 0 0.

(** *** [ACR.reconstruction]

    The attributes of [self] that [reconstruction] reads.  None of them is
    set in [ACR.py]; whoever calls [reconstruction] has put them there. *)
Record Attributes : Type := {
  fbp_op_mod : batch -> batch;
  fwd_op_mod : batch -> batch;
  fwd_op_mod_adjoint : batch -> batch;
  ssim : batch -> batch -> Q;
  psnr : batch -> batch -> Q;
  param_var_step : Q;
  param_var_momentum : Q;
  args_iterates : nat;
  params_outp : bool;
  params_earlystop : bool;
  cntr : nat
}.

Section Reconstruction.

(** [gradient f x] stands for what torch's autograd adds to [x.grad] when a
    scalar [f(x)] is back-propagated. *)
Variable gradient : (batch -> Q) -> batch -> batch.

Variable self : ACR.
Variable attrs : Attributes.

Definition lambd : Q := 1.

(** [lambd * self(x_0).sum()]. *)
Definition lossm (x_0 : batch) : Q :=
  lambd * sumQ (map (fun s => sumQ (flatten3 s)) (ACR_forward self x_0)).

(** What the loop carries from one round to the next: the estimate, its
    gradient buffer ([None] until the first [backward]), the momentum buffer of
    the optimizer, and the two metric values. *)
Record loop_state : Type := {
  x_0 : batch;
  x_0_grad : option batch;
  momentum_buffer : option batch;
  prevpsn : Q;
  curpsn : Q
}.

(** [lossm.backward()] accumulates into [x_0.grad]. *)
Definition backward (x : batch) (g : option batch) : batch :=
  match g with
  | None => gradient lossm x
  | Some g0 => zip4d Qplus g0 (gradient lossm x)
  end.

(** [optimizer.step()] of [torch.optim.SGD([x_0], lr, momentum)]: returns the
    new estimate and the new momentum buffer. *)
Definition SGD_step (x d_p : batch) (buf : option batch) : batch * option batch :=
  let lr := param_var_step attrs in
  let momentum := param_var_momentum attrs in
  if Qeq_bool momentum 0
  then (zip4d Qplus x (map4d (Qmult (- lr)) d_p), buf)
  else
    let buf' := match buf with
                | None => d_p
                | Some b => zip4d Qplus (map4d (Qmult momentum) b) d_p
                end in
    (zip4d Qplus x (map4d (Qmult (- lr)) buf'), Some buf').

(** One round of [for j in range(self.args.iterates)]: either the function
    returns ([inr]) or the loop goes on with a new state ([inl]). *)
Definition iteration (y_0 : batch) (x_t : option batch) (s : loop_state)
    : loop_state + batch :=
  let data_misfit := zip4d Qminus (fwd_op_mod attrs (x_0 s)) y_0 in
  let grad := fwd_op_mod_adjoint attrs data_misfit in
  let checked :=
    match x_t with
    | Some xt =>
      let psnr_now := psnr attrs (x_0 s) xt in
      let prev := curpsn s in
      let cur := psnr_now in
      (params_earlystop attrs && Qlt_bool cur prev, prev, cur)
    | None => (false, prevpsn s, curpsn s)
    end in
  let '(stop, prev, cur) := checked in
  if stop then inr (x_0 s)
  else
    let g := backward (x_0 s) (x_0_grad s) in
    let g := zip4d Qplus g grad in
    let '(x', buf') := SGD_step (x_0 s) g (momentum_buffer s) in
    inl {| x_0 := x'; x_0_grad := Some g; momentum_buffer := buf';
           prevpsn := prev; curpsn := cur |}.

Fixpoint for_loop (y_0 : batch) (x_t : option batch) (n : nat) (s : loop_state) : batch :=
  match n with
  | O => x_0 s
  | S n' =>
    match iteration y_0 x_t s with
    | inr result => result
    | inl s' => for_loop y_0 x_t n' s'
    end
  end.

(** The constructor [torch.optim.SGD([x_0], lr=..., momentum=...)]: torch
    refuses a negative learning rate, then a negative momentum (its messages
    end with the offending value). *)
Definition SGD_init : error + unit :=
  if Qlt_bool (param_var_step attrs) 0 then inl (ValueError "Invalid learning rate")
  else if Qlt_bool (param_var_momentum attrs) 0 then inl (ValueError "Invalid momentum value")
  else inr tt.

(** What precedes the loop: the filtered backprojection, the optimizer (which
    may refuse its arguments), and the two metric values set to 0. *)
Definition initial_state (y_0 : batch) : error + loop_state :=
  let x := fbp_op_mod attrs y_0 in
  match SGD_init with
  | inl e => inl e
  | inr _ =>
    inr {| x_0 := x; x_0_grad := None; momentum_buffer := None;
           prevpsn := 0; curpsn := 0 |}
  end.

(** [reconstruction(y_0, x_t)]: the returned estimate and the new value of
    [self.cntr] (which is incremented after the optimizer is built). *)
Definition reconstruction (y_0 : batch) (x_t : option batch) : error + batch * nat :=
  match initial_state y_0 with
  | inl e => inl e
  | inr s => inr (for_loop y_0 x_t (args_iterates attrs) s, S (cntr attrs))
  end.

(** The state at the start of round [j], if the loop gets that far. *)
Fixpoint state_at (y_0 : batch) (x_t : option batch) (j : nat) : option loop_state :=
  match j with
  | O => match initial_state y_0 with
         | inr s => Some s
         | inl _ => None
         end
  | S j' =>
    match state_at y_0 x_t j' with
    | None => None
    | Some s =>
      match iteration y_0 x_t s with
      | inl s' => Some s'
      | inr _ => None
      end
    end
  end.

(** The estimates the loop goes through, the returned one last. *)
Fixpoint iterates_from (y_0 : batch) (x_t : option batch) (n : nat) (s : loop_state)
    : list batch :=
  match n with
  | O => [x_0 s]
  | S n' =>
    match iteration y_0 x_t s with
    | inr result => [result]
    | inl s' => x_0 s :: iterates_from y_0 x_t n' s'
    end
  end.

Definition iterates_performed (y_0 : batch) (x_t : option batch) : list batch :=
  match initial_state y_0 with
  | inl _ => []
  | inr s => iterates_from y_0 x_t (args_iterates attrs) s
  end.

End Reconstruction.

End ACR.

(* ================================================================== *)
(** ** [Noise2Inverse_solver.py] *)
(* ================================================================== *)

Module Noise2Inverse.

Inductive error : Type :=
| ValueError (msg : string)
| IndexError (msg : string).

(** *** Python slices and numpy helpers *)

(** How CPython clamps a slice bound against the length, for a positive
    step. *)
Definition adjust_index (len i : Z) : Z :=
  if (i <? 0)%Z then Z.max (i + len) 0 else Z.min i len.

(** The indices selected by [l[start:stop:step]]. *)
Definition slice_indices (len : nat) (start stop : Z) (step : nat) : list nat :=
  let a := adjust_index (Z.of_nat len) start in
  let b := adjust_index (Z.of_nat len) stop in
  let n := if (a <? b)%Z then ((b - a - 1) / Z.of_nat step + 1)%Z else 0%Z in
  map (fun k => (Z.to_nat a + k * step)%nat) (seq 0 (Z.to_nat n)).

Definition select {A} (l : list A) (indices : list nat) : list A :=
  flat_map (fun i => match nth_error l i with Some v => [v] | None => [] end) indices.

Definition py_slice {A} (l : list A) (start stop : Z) (step : nat) : list A :=
  select l (slice_indices (length l) start stop step).

(** [np.arange(n)] and [np.delete(arr, pos)]. *)
Definition arange (n : nat) : list nat := seq 0 n.

Definition np_delete {A} (arr : list A) (pos : nat) : list A :=
  firstn pos arr ++ skipn (S pos) arr.

(** [torch.mean(ts, axis=0)] of a stack of equally shaped tensors: their
    element-wise sum divided by their number.  An empty stack has no entries
    (torch fills the result with NaN). *)
Definition mean_axis0 (ts : list fmaps) : fmaps :=
  match ts with
  | [] => []
  | t :: rest =>
    map3d (fun v => v / inject_Z (Z.of_nat (length ts))) (fold_left (zip3d Qplus) rest t)
  end.

(** *** The acquisition geometry

    Only [angles] is read or written here; [other] stands for the rest of
    the object. *)
Record Geometry (Other : Type) : Type := {
  angles : list Q;
  other : Other
}.
Arguments angles {Other} _.
Arguments other {Other} _.

Definition set_angles {Other} (geo : Geometry Other) (a : list Q) : Geometry Other :=
  {| angles := a; other := other geo |}.

Section Solver.

(** [Operator] and [make_operator] stand for [LION.CTtools.ct_utils]: the
    operator is built from the fields the geometry has at the time of the
    call. *)
Variable Other : Type.
Variable Operator : Type.
Variable make_operator : Geometry Other -> Operator.

(** The loop of [make_sub_operators], from split [i] with [n] splits left:
    the operators built and the geometry object afterwards. *)
Fixpoint sub_operators_loop (angles0 : list Q) (sino_splits n i : nat)
    (geo : Geometry Other) : list Operator * Geometry Other :=
  match n with
  | O => ([], geo)
  | S n' =>
    let geo1 := set_angles geo (py_slice angles0 (Z.of_nat i) (-1) sino_splits) in
    let op := make_operator geo1 in
    let '(ops, geo2) := sub_operators_loop angles0 sino_splits n' (S i) geo1 in
    (op :: ops, geo2)
  end.

(** [make_sub_operators(geo, sino_splits)]: the returned list and the state
    in which it leaves the geometry object it was handed. *)
Definition make_sub_operators (geo : Geometry Other) (sino_splits : nat)
    : list Operator * Geometry Other :=
  let angles0 := angles geo in
  sub_operators_loop angles0 sino_splits sino_splits 0 geo.

(** [recon_fn] is [optimizer_params.base_algo]; the model under training,
    the loss and the optimizer are those handed to [__init__]. *)
Variable recon_fn : Operator -> image -> fmaps.
Variable Weights : Type.
Variable model : Weights -> batch -> batch.
Variable loss_fn : batch -> batch -> Q.

(** [optimizer_update w input target] stands for [zero_grad], the backward
    pass of [loss_fn(model(input), target)] and [optimizer.step()]. *)
Variable optimizer_update : Weights -> batch -> batch -> Weights.

(** The process-wide random source of numpy. *)
Variable Rng : Type.
Variable next_raw : Rng -> nat * Rng.

Definition randint (high : nat) (g : Rng) : error + nat * Rng :=
  match high with
  | O => inl (ValueError "high <= 0")
  | S _ => let '(r, g') := next_raw g in inr (r mod high, g')%nat
  end.

Record Noise2Inverse_solver : Type := {
  sino_splits : nat;
  sub_op : list Operator
}.

(** [__init__]: the solver, and the geometry object as construction leaves
    it. *)
Definition Noise2Inverse_solver_init (geo : option (Geometry Other)) (splits : nat)
    : error + Noise2Inverse_solver * Geometry Other :=
  match geo with
  | None => inl (ValueError "Geometry must be given to Noise2Inverse_solver")
  | Some g =>
    let '(ops, g') := make_sub_operators g splits in
    inr ({| sino_splits := splits; sub_op := ops |}, g')
  end.

(** The inner loop of [compute_noisy_sub_recon] for one sinogram, from split
    [split] with [n] splits left:
    [recon_fn(sub_op[split], data[sino, 0, split:-1:sino_splits])]. *)
Fixpoint sample_sub_recons (self : Noise2Inverse_solver) (sample : fmaps) (n split : nat)
    : error + list fmaps :=
  match n with
  | O => inr []
  | S n' =>
    match nth_error (sub_op self) split with
    | None => inl (IndexError "list index out of range")
    | Some op =>
      let r := recon_fn op (py_slice (nth 0%nat sample []) (Z.of_nat split) (-1)
                              (sino_splits self)) in
      match sample_sub_recons self sample n' (S split) with
      | inl e => inl e
      | inr rs => inr (r :: rs)
      end
    end
  end.

(** The outer loop, over the sinograms of the batch. *)
Fixpoint batch_sub_recons (self : Noise2Inverse_solver) (data : batch)
    : error + list (list fmaps) :=
  match data with
  | [] => inr []
  | sample :: data' =>
    match sample_sub_recons self sample (sino_splits self) 0 with
    | inl e => inl e
    | inr rs =>
      match batch_sub_recons self data' with
      | inl e => inl e
      | inr rows => inr (rs :: rows)
      end
    end
  end.

(** [compute_noisy_sub_recon(data, target)]: the tensor [bad_recon], indexed
    [split][sino].  [target] is read for its shape only, to allocate
    [bad_recon]. *)
Definition compute_noisy_sub_recon (self : Noise2Inverse_solver) (data target : batch)
    : error + list (list fmaps) :=
  match batch_sub_recons self data with
  | inl e => inl e
  | inr rows =>
    inr (map (fun split => map (fun row => nth split row []) rows)
             (seq 0 (sino_splits self)))
  end.

(** [bad_recon[split, sino]]. *)
Definition at2 (bad_recon : list (list fmaps)) (split sino : nat) : fmaps :=
  nth sino (nth split bad_recon []) [].

(** The loop of [mini_batch_step] that fills [random_target] and
    [label_array], from sinogram [sino] with [n] sinograms left. *)
Fixpoint choose_targets (self : Noise2Inverse_solver) (bad_recon : list (list fmaps))
    (n sino : nat) (g : Rng) : error + (batch * batch * Rng) :=
  match n with
  | O => inr ([], [], g)
  | S n' =>
    let indices := arange (sino_splits self) in
    match randint (sino_splits self) g with
    | inl e => inl e
    | inr (label, g1) =>
      let target := at2 bad_recon label sino in
      let labels := mean_axis0 (map (fun i => at2 bad_recon i sino)
                                    (np_delete indices label)) in
      match choose_targets self bad_recon n' (S sino) g1 with
      | inl e => inl e
      | inr (random_target, label_array, g2) =>
        inr (target :: random_target, labels :: label_array, g2)
      end
    end
  end.

(** [mini_batch_step(data, target)]: the loss, the weights of the model after
    the optimizer step, and the random source afterwards.  Of [target] (the
    clean images, which Noise2Inverse does not train on) only the shape is
    read. *)
Definition mini_batch_step (self : Noise2Inverse_solver) (w : Weights) (g : Rng)
    (data target : batch) : error + (Q * Weights * Rng) :=
  match compute_noisy_sub_recon self data target with
  | inl e => inl e
  | inr bad_recon =>
    match choose_targets self bad_recon (length data) 0 g with
    | inl e => inl e
    | inr (random_target, label_array, g') =>
      let output := model w label_array in
      let loss := loss_fn output random_target in
      inr (loss, optimizer_update w label_array random_target, g')
    end
  end.

End Solver.

End Noise2Inverse.

(* ================================================================== *)
(** ** Properties of models, stated on the definitions above *)
(* ================================================================== *)

Module ACRSpec.
Import ACR.

(** No entry of a weight tensor is negative. *)
Definition nonneg4 (w : tensor4) : Prop := forall o c a b, 0 <= w4 w o c a b.

(** The effective (as read by [forward]) weights of the blue convolutions and
    of the last convolution are non-negative. *)
Definition effective_nonneg (m : ACR) : Prop :=
  Forall (fun l => nonneg4 (weight (blue l))) (ICNN_layers m) /\
  nonneg4 (weight (last_layer m)).

(** The two activations [__init__] accepts. *)
Definition act_ok (a : Activation) : Prop := a = LeakyReLU (2 # 10) \/ a = ReLU.

Definition activations_ok (m : ACR) : Prop :=
  act_ok (first_activation m) /\ Forall (fun l => act_ok (activation l)) (ICNN_layers m).

(** The layout [__init__] gives the submodules: one [ICNN_layer_i] for every
    [i] in [range(layers)], [padding="same"] throughout, [channels] planes
    between the layers and one plane at the end. *)
Definition layer_layout (channels : nat) (l : ICNN_layer) : Prop :=
  padding (blue l) = Same /\ padding (orange l) = Same /\
  out_channels (blue l) = channels /\ out_channels (orange l) = channels.

Definition architecture (m : ACR) : Prop :=
  let channels := Param.channels (model_parameters m) in
  length (ICNN_layers m) = Param.layers (model_parameters m) /\
  padding (first_layer m) = Same /\ out_channels (first_layer m) = channels /\
  Forall (layer_layout channels) (ICNN_layers m) /\
  padding (last_layer m) = Same /\ out_channels (last_layer m) = 1%nat.

(** [zt] lies, entry by entry, below the convex combination of [z1] and
    [z2]; [affine] when it equals it. *)
Definition below (t : Q) (zt z1 z2 : fmaps) : Prop :=
  forall c i j, px3 zt c i j <= t * px3 z1 c i j + (1 - t) * px3 z2 c i j.

Definition affine (t : Q) (zt z1 z2 : fmaps) : Prop :=
  forall c i j, px3 zt c i j == t * px3 z1 c i j + (1 - t) * px3 z2 c i j.

(** [z] has [C] planes of [H] rows of [W] entries. *)
Definition tabulated (C H W : nat) (z : fmaps) : Prop :=
  exists f, z = tabulate3 C H W f.

(** A list of metric values that never goes down, starting at or above
    [lo]. *)
Fixpoint nondecreasing_from (lo : Q) (l : list Q) : Prop :=
  match l with
  | [] => True
  | v :: l' => lo <= v /\ nondecreasing_from v l'
  end.

Section SFBSpec.

Variable softplus : Q -> Q.

(** For one sample: the sum, over all output channels and positions, of the
    absolute values of the response of the convolution [c]. *)
Definition abs_response_sum (c : Conv2d) (s : fmaps) : Q :=
  sumQ (flatten3 (map3d Qabs (Conv2d_forward c s))).

(** The value the description of [SFB] gives for one sample:
    [softplus(penalty)] times the sum over the kernels of the summed absolute
    responses, plus the L2 term when the option is set. *)
Definition SFB_value (m : SFB) (s : fmaps) : Q :=
  let foe := softplus (penalty m)
             * fold_left Qplus (map (fun c => abs_response_sum c s) (conv m)) 0 in
  if SFBParam.L2net (SFB_model_parameters m) then
    match SFB_L2net m with
    | Some l2 => foe + softplus (l2_penalty l2) * sumQ (map (fun v => v ^ 2) (flatten3 s))
    | None => foe
    end
  else foe.

End SFBSpec.

Section ReconstructionSpec.

Variable gradient : (batch -> Q) -> batch -> batch.
Variable self : ACR.
Variable attrs : Attributes.
Variable y_0 : batch.
Variable x_t : option batch.

(** The estimate at the start of round [j] (the empty tensor if the loop has
    returned before). *)
Definition estimate_at (j : nat) : batch :=
  match state_at gradient self attrs y_0 x_t j with
  | Some s => x_0 s
  | None => []
  end.

(** The gradient of the data term at [x]: [adj(fwd(x) - y_0)]. *)
Definition data_gradient (x : batch) : batch :=
  fwd_op_mod_adjoint attrs (zip4d Qminus (fwd_op_mod attrs x) y_0).

(** The gradients of rounds [0 .. j], added up in the order in which the
    rounds add them. *)
Fixpoint gradient_sum (j : nat) : batch :=
  match j with
  | O => zip4d Qplus (gradient (lossm self) (estimate_at 0)) (data_gradient (estimate_at 0))
  | S j' =>
    zip4d Qplus
      (zip4d Qplus (gradient_sum j') (gradient (lossm self) (estimate_at j)))
      (data_gradient (estimate_at j))
  end.

(** The gradient of round [j] alone. *)
Definition round_gradient (j : nat) : batch :=
  zip4d Qplus (gradient (lossm self) (estimate_at j)) (data_gradient (estimate_at j)).

End ReconstructionSpec.

End ACRSpec.

(* ================================================================== *)
(** ** Small concrete instances *)
(* ================================================================== *)

Module Examples.
Import ACR.

(** A weight tensor of shape [o, c, k, k] given by its entries. *)
Definition fill4 (o c k : nat) (f : nat -> nat -> nat -> nat -> Q) : tensor4 :=
  map (fun io => map (fun ic => map (fun a => map (fun b => f io ic a b) (seq 0 k))
                                    (seq 0 k))
                     (seq 0 c))
      (seq 0 o).

(** Entries of both signs: [(-1)^(o+c+a+b) * (1 + o + a) / (2 + c + b)]. *)
Definition signed_entry (o c a b : nat) : Q :=
  (if Nat.even (o + c + a + b) then 1 else -1)
  * (inject_Z (Z.of_nat (1 + o + a)) / inject_Z (Z.of_nat (2 + c + b))).

(** A regulariser with two channels, 3x3 kernels and two ICNN layers. *)
Definition small_parameters : Param.t :=
  {| Param.channels := 2;
     Param.kernel_size := 3;
     Param.stride := 1;
     Param.relu_type := "LeakyReLU";
     Param.layers := 2;
     Param.var_step := 1 # 2;
     Param.var_momentum := 0;
     Param.output := false;
     Param.earlystop := true |}.

Definition small_tensors : InitialTensors :=
  {| first_weight := fill4 2 1 3 signed_entry;
     first_bias := [1 # 3; - (1 # 4)];
     blue_weight := fun i => fill4 2 2 3 (fun o c a b => signed_entry (o + i) c a b);
     orange_weight := fun i => fill4 2 1 3 (fun o c a b => signed_entry o (c + i) a b);
     orange_bias := fun i => [inject_Z (Z.of_nat i); - (1 # 2)];
     last_weight := fill4 1 2 3 (fun o c a b => signed_entry o c (a + 1) b) |}.

Definition small_model : ACR :=
  match ACR_init small_parameters small_tensors with
  | inr m => m
  | inl _ =>
    {| model_parameters := small_parameters;
       first_layer := {| in_channels := 0; out_channels := 0; kernel_size := 0;
                         padding := Same; original := []; parametrizations := [];
                         bias := None |};
       first_activation := ReLU;
       ICNN_layers := [];
       last_layer := {| in_channels := 0; out_channels := 0; kernel_size := 0;
                        padding := Same; original := []; parametrizations := [];
                        bias := None |} |}
  end.

Definition image_a : image := [[1; -2; 3]; [0; 1 # 2; -1]].
Definition image_b : image := [[-3; 4; 0]; [2; -(5 # 3); 1]].

(** A geometry with the 360 angles 0, 1, ..., 359 (in degrees), and an
    operator that is nothing but a record of the geometry it was built
    from. *)
Definition angles360 : list Q := map (fun k => inject_Z (Z.of_nat k)) (seq 0 360).

Definition geo360 : Noise2Inverse.Geometry unit :=
  {| Noise2Inverse.angles := angles360; Noise2Inverse.other := tt |}.

Definition recorded_operator : Type := Noise2Inverse.Geometry unit.

Definition record_geometry (geo : Noise2Inverse.Geometry unit) : recorded_operator := geo.

(** A solver with three splits whose "reconstruction" of a sinogram slice is
    the slice itself shifted by the number of angles of the operator; a model
    that returns its input; the sum of squared differences as loss; a random
    source that counts. *)
Definition geo7 : Noise2Inverse.Geometry unit :=
  {| Noise2Inverse.angles := [0; 10; 20; 30; 40; 50; 60]; Noise2Inverse.other := tt |}.

Definition shift_recon (op : recorded_operator) (sino : image) : fmaps :=
  [map2d (fun v => v + inject_Z (Z.of_nat (length (Noise2Inverse.angles op)))) sino].

Definition identity_model (w : unit) (x : batch) : batch := x.

Definition squared_error (a b : batch) : Q :=
  sumQ (map (fun s => sumQ (map (fun v => v ^ 2) (flatten3 s))) (zip4d Qminus a b)).

Definition keep_weights (w : unit) (input target : batch) : unit := w.

Definition counter (g : nat) : nat * nat := (g, S g).

Definition solver3 : Noise2Inverse.Noise2Inverse_solver recorded_operator :=
  {| Noise2Inverse.sino_splits := 3;
     Noise2Inverse.sub_op :=
       fst (Noise2Inverse.make_sub_operators unit recorded_operator record_geometry geo7 3) |}.

(** A regulariser whose stored last-layer weights are all negative, so that
    its effective last-layer weights, and with them its value, are 0
    everywhere. *)
Definition flat_tensors : InitialTensors :=
  {| first_weight := fill4 2 1 3 signed_entry;
     first_bias := [1 # 3; - (1 # 4)];
     blue_weight := fun i => fill4 2 2 3 (fun o c a b => signed_entry (o + i) c a b);
     orange_weight := fun i => fill4 2 1 3 (fun o c a b => signed_entry o (c + i) a b);
     orange_bias := fun i => [inject_Z (Z.of_nat i); - (1 # 2)];
     last_weight := fill4 1 2 3 (fun o c a b => - (1 # 1)) |}.

Definition flat_model : ACR :=
  match ACR_init small_parameters flat_tensors with
  | inr m => m
  | inl _ => small_model
  end.

(** The gradient of a function that is 0 everywhere. *)
Definition zero_gradient (f : batch -> Q) (x : batch) : batch := map4d (fun _ => 0) x.

(** A one-pixel problem: the operator doubles, its adjoint doubles, the
    "filtered backprojection" is the plain identity; the metric is 100 minus
    the squared error. *)
Definition metric (x ref : batch) : Q := 100 - squared_error x ref.

Definition one_pixel : Attributes :=
  {| fbp_op_mod := fun y => y;
     fwd_op_mod := map4d (Qmult 2);
     fwd_op_mod_adjoint := map4d (Qmult 2);
     ssim := metric;
     psnr := metric;
     param_var_step := 1 # 8;
     param_var_momentum := 0;
     args_iterates := 10;
     params_outp := false;
     params_earlystop := true;
     cntr := 0 |}.

Definition one_pixel_sinogram : batch := [[[[2]]]].
Definition one_pixel_reference : batch := [[[[1]]]].

(** The states of that run at the start of rounds 1, 2 and 3. *)
Definition one_pixel_state (j : nat) : loop_state :=
  match state_at zero_gradient flat_model one_pixel one_pixel_sinogram
          (Some one_pixel_reference) j with
  | Some s => s
  | None => {| x_0 := []; x_0_grad := None; momentum_buffer := None;
               prevpsn := 0; curpsn := 0 |}
  end.

(** The same attributes with no iterations. *)
Definition one_pixel_no_iterates : Attributes :=
  {| fbp_op_mod := fbp_op_mod one_pixel;
     fwd_op_mod := fwd_op_mod one_pixel;
     fwd_op_mod_adjoint := fwd_op_mod_adjoint one_pixel;
     ssim := ssim one_pixel;
     psnr := psnr one_pixel;
     param_var_step := param_var_step one_pixel;
     param_var_momentum := param_var_momentum one_pixel;
     args_iterates := 0;
     params_outp := false;
     params_earlystop := true;
     cntr := 0 |}.

(** A filter bank of two convolutions with three output channels each, and
    a stand-in for softplus. *)
Definition small_SFB : SFB :=
  SFB_init {| SFBParam.n_kernels := 2; SFBParam.n_filters := 3; SFBParam.L2net := true |}
    (fun i => fill4 3 1 7 (fun o c a b => signed_entry (o + i) c a b)).

Definition rational_softplus (v : Q) : Q := Qmax v 0 + (1 # 2).

(** Two sinograms of seven angles and two detector bins. *)
Definition sinograms : batch :=
  [[[[1; 2]; [3; 4]; [5; 6]; [7; 8]; [9; 10]; [11; 12]; [13; 14]]];
   [[[0; 1]; [1; 0]; [2; 2]; [3; 5]; [8; 13]; [21; 34]; [55; 89]]]].

(** The clean images that go with them (2 x 2, one channel). *)
Definition clean_images : batch := [[[[1; 2]; [3; 4]]]; [[[0; 1]; [1; 0]]]].

End Examples.

(* ================================================================== *)
(** ** [Noise2Inverse_solver.py]: the training and evaluation loops *)
(* ================================================================== *)

Module Training.
Import Noise2Inverse.

(** What the loops can raise: an error of [mini_batch_step], a failed
    [assert], a division or modulo by zero, or whatever [check_complete]
    raises. *)
Inductive error : Type :=
| StepError (e : Noise2Inverse.error)
| AssertionError (msg : string)
| ZeroDivisionError (msg : string)
| CheckError (msg : string).

(** [n] draws from the random source. *)
Fixpoint advance {Rng : Type} (next_raw : Rng -> nat * Rng) (n : nat) (g : Rng) : Rng :=
  match n with
  | O => g
  | S n' => advance next_raw n' (snd (next_raw g))
  end.

(** [arr[i] = v] on an array of the length fixed at allocation. *)
Fixpoint array_set (arr : list Q) (i : nat) (v : Q) : list Q :=
  match arr, i with
  | [], _ => []
  | _ :: rest, O => v :: rest
  | a :: rest, S i' => a :: array_set rest i' v
  end.

Section Loops.

Variable Operator : Type.
Variable recon_fn : Operator -> image -> fmaps.
Variable Weights : Type.

(** The model in training mode and in evaluation mode ([model.train()],
    [model.eval()]). *)
Variable model : Weights -> batch -> batch.
Variable model_eval : Weights -> batch -> batch.
Variable loss_fn : batch -> batch -> Q.
Variable optimizer_update : Weights -> batch -> batch -> Weights.
Variable Rng : Type.
Variable next_raw : Rng -> nat * Rng.

(** A data loader: the (sinograms, targets) batches of one pass. *)
Definition loader : Type := list (batch * batch).

(** The attributes of the solver the loops read, and the outcome of the base
    class's [check_complete()]. *)
Record Solver : Type := {
  core : Noise2Inverse_solver Operator;
  train_loader : loader;
  test_loader : loader;
  checkpoint_freq : nat;
  check_complete : option string
}.

(** What the loops change: the weights of the model, the random source, the
    array [train_loss], the epochs handed to [save_checkpoint] (latest first)
    and [current_epoch]. *)
Record State : Type := {
  weights : Weights;
  rng : Rng;
  train_loss : list Q;
  saved_checkpoints : list nat;
  current_epoch : nat
}.

(** The loop of [train_step] over the batches of the loader. *)
Fixpoint train_batches (self : Solver) (batches : loader) (w : Weights) (g : Rng)
    (epoch_loss : Q) : error + (Q * Weights * Rng) :=
  match batches with
  | [] => inr (epoch_loss, w, g)
  | (data, target) :: rest =>
    match mini_batch_step Operator recon_fn Weights model loss_fn optimizer_update
            Rng next_raw (core self) w g data target with
    | inl e => inl (StepError e)
    | inr (loss, w', g') => train_batches self rest w' g' (epoch_loss + loss)
    end
  end.

(** [train_step()]: the mean of the mini-batch losses of one pass. *)
Definition train_step (self : Solver) (w : Weights) (g : Rng)
    : error + (Q * Weights * Rng) :=
  match train_batches self (train_loader self) w g 0 with
  | inl e => inl e
  | inr (epoch_loss, w', g') =>
    match length (train_loader self) with
    | O => inl (ZeroDivisionError "float division by zero")
    | S _ =>
      inr (epoch_loss / inject_Z (Z.of_nat (length (train_loader self))), w', g')
    end
  end.

(** [validate()] and [set_validation(...)]: Noise2Inverse has nothing to
    validate on; the second only warns. *)
Definition validate (self : Solver) : Q := 0.

Definition set_validation (self : Solver) : Solver * string :=
  (self, "Noise2Inverse_solver does not support validation"%string).

(** [epoch_step(epoch)]. *)
Definition epoch_step (self : Solver) (st : State) (epoch : nat) : error + State :=
  match train_step self (weights st) (rng st) with
  | inl e => inl e
  | inr (loss, w', g') =>
    inr {| weights := w'; rng := g';
           train_loss := array_set (train_loss st) epoch loss;
           saved_checkpoints := saved_checkpoints st;
           current_epoch := current_epoch st |}
  end.

(** The loop of [train] from epoch [epoch] with [n] epochs left. *)
Fixpoint train_loop (self : Solver) (n epoch : nat) (st : State) : error + State :=
  match n with
  | O => inr st
  | S n' =>
    match epoch_step self st epoch with
    | inl e => inl e
    | inr st1 =>
      match checkpoint_freq self with
      | O => inl (ZeroDivisionError "integer modulo by zero")
      | S _ =>
        let st2 :=
          if Nat.eqb ((epoch + 1) mod checkpoint_freq self) 0
          then {| weights := weights st1; rng := rng st1;
                  train_loss := train_loss st1;
                  saved_checkpoints := epoch :: saved_checkpoints st1;
                  current_epoch := current_epoch st1 |}
          else st1 in
        train_loop self n' (S epoch) st2
      end
    end
  end.

(** [train(n_epochs)]. *)
Definition train (self : Solver) (st : State) (n_epochs : Z) : error + State :=
  if (0 <? n_epochs)%Z then
    match check_complete self with
    | Some msg => inl (CheckError msg)
    | None =>
      let n := Z.to_nat n_epochs in
      train_loop self n 0
        {| weights := weights st; rng := rng st;
           train_loss := repeat 0 n;
           saved_checkpoints := saved_checkpoints st;
           current_epoch := n |}
    end
  else inl (AssertionError "Number of epochs must be a positive integer").

(** The loop of [test] over the batches of the test loader, with gradients
    off and no optimizer step. *)
Fixpoint test_batches (self : Solver) (batches : loader) (w : Weights) (g : Rng)
    : error + (list Q * Rng) :=
  match batches with
  | [] => inr ([], g)
  | (sinos, targets) :: rest =>
    match compute_noisy_sub_recon Operator recon_fn (core self) sinos targets with
    | inl e => inl (StepError e)
    | inr bad_recon =>
      match choose_targets Operator Rng next_raw (core self) bad_recon (length sinos) 0 g with
      | inl e => inl (StepError e)
      | inr (random_target, label_array, g1) =>
        let output := model_eval w label_array in
        let loss := loss_fn output random_target in
        match test_batches self rest w g1 with
        | inl e => inl e
        | inr (losses, g2) => inr (loss :: losses, g2)
        end
      end
    end
  end.

(** [test()]: the array [test_loss] and the random source afterwards. *)
Definition test (self : Solver) (w : Weights) (g : Rng) : error + (list Q * Rng) :=
  test_batches self (test_loader self) w g.

(** The number of sinograms in a loader. *)
Definition sinogram_count (batches : loader) : nat :=
  fold_right (fun b n => (length (fst b) + n)%nat) 0%nat batches.

End Loops.

End Training.

(* ================================================================== *)
(** ** Further properties, stated on the definitions above *)
(* ================================================================== *)

Module MoreSpec.
Import ACR.

(** No entry of a tensor is negative. *)
Definition nonneg_entries (X : tensor4) : Prop :=
  Forall (Forall (Forall (Forall (fun v => 0 <= v)))) X.

(** An image of zeros. *)
Definition zeros (H W : nat) : image := tabulate H W (fun _ _ => 0).

(** The single value of a tensor of shape [1, 1]. *)
Definition item (out : ACR.error + list (list Q)) : Q :=
  match out with
  | inr [[v]] => v
  | _ => 0
  end.

End MoreSpec.

(** Further concrete instances. *)
Module MoreExamples.
Import ACR Examples.

Definition relu_parameters : Param.t :=
  {| Param.channels := 2;
     Param.kernel_size := 3;
     Param.stride := 1;
     Param.relu_type := "ReLU";
     Param.layers := 1;
     Param.var_step := 1 # 2;
     Param.var_momentum := 0;
     Param.output := false;
     Param.earlystop := true |}.

Definition relu_model : ACR :=
  match ACR_init relu_parameters small_tensors with
  | inr m => m
  | inl _ => small_model
  end.

Definition strided_parameters : Param.t :=
  {| Param.channels := 2;
     Param.kernel_size := 3;
     Param.stride := 2;
     Param.relu_type := "LeakyReLU";
     Param.layers := 1;
     Param.var_step := 1 # 2;
     Param.var_momentum := 0;
     Param.output := false;
     Param.earlystop := true |}.

Definition tanh_parameters : Param.t :=
  {| Param.channels := 2;
     Param.kernel_size := 3;
     Param.stride := 1;
     Param.relu_type := "Tanh";
     Param.layers := 1;
     Param.var_step := 1 # 2;
     Param.var_momentum := 0;
     Param.output := false;
     Param.earlystop := true |}.

(** The one-pixel attributes with early stopping switched off. *)
Definition one_pixel_no_earlystop : Attributes :=
  {| fbp_op_mod := fbp_op_mod one_pixel;
     fwd_op_mod := fwd_op_mod one_pixel;
     fwd_op_mod_adjoint := fwd_op_mod_adjoint one_pixel;
     ssim := ssim one_pixel;
     psnr := psnr one_pixel;
     param_var_step := param_var_step one_pixel;
     param_var_momentum := param_var_momentum one_pixel;
     args_iterates := 10;
     params_outp := false;
     params_earlystop := false;
     cntr := 0 |}.

(** The one-pixel attributes with a negative step size and no iterations. *)
Definition one_pixel_negative_step : Attributes :=
  {| fbp_op_mod := fbp_op_mod one_pixel;
     fwd_op_mod := fwd_op_mod one_pixel;
     fwd_op_mod_adjoint := fwd_op_mod_adjoint one_pixel;
     ssim := ssim one_pixel;
     psnr := psnr one_pixel;
     param_var_step := - (1 # 8);
     param_var_momentum := 0;
     args_iterates := 0;
     params_outp := false;
     params_earlystop := true;
     cntr := 0 |}.

(** A reference so far from the first estimate that the metric starts
    below 0. *)
Definition far_reference : batch := [[[[20]]]].

(** A solver around [solver3] with two training batches and one test batch,
    saving a checkpoint every second epoch. *)
Definition training_solver : Training.Solver recorded_operator :=
  {| Training.core := solver3;
     Training.train_loader := [(sinograms, clean_images); (sinograms, clean_images)];
     Training.test_loader := [(sinograms, clean_images)];
     Training.checkpoint_freq := 2;
     Training.check_complete := None |}.

Definition initial_training_state : Training.State unit nat :=
  {| Training.weights := tt; Training.rng := 4%nat; Training.train_loss := [];
     Training.saved_checkpoints := []; Training.current_epoch := 0 |}.

(** A solver that was handed no split at all. *)
Definition solver0 : Noise2Inverse.Noise2Inverse_solver recorded_operator :=
  {| Noise2Inverse.sino_splits := 0; Noise2Inverse.sub_op := [] |}.

End MoreExamples.

(* ================================================================== *)
(** ** Stacks of equally shaped tensors *)
(* ================================================================== *)

Module StackSpec.

(** A stack of [C] planes of [H] rows of [W] entries each. *)
Definition shape3 (C H W : nat) (z : fmaps) : Prop :=
  length z = C /\ Forall (rect H W) z.

Definition shape3b (C H W : nat) (z : fmaps) : bool :=
  Nat.eqb (length z) C && forallb (rectb H W) z.

(** The mean of the entries at one position of the tensors of a stack. *)
Definition entry_mean (ts : list fmaps) (c : nat) (i j : Z) : Q :=
  sumQ (map (fun t => px3 t c i j) ts) / inject_Z (Z.of_nat (length ts)).

End StackSpec.


(* ================================================================== *)
(** ** Facts about tensors *)
(* ================================================================== *)

Module TensorFacts.

Lemma zip_with_map {A B C D} (f : B -> C -> D) (g : A -> B) (h : A -> C) (l : list A) :
  zip_with f (map g l) (map h l) = map (fun a => f (g a) (h a)) l.
Proof.
  induction l as [|a l IH]; simpl; [reflexivity|now rewrite IH].
Qed.

Lemma zip_with_length {A B C} (f : A -> B -> C) (l : list A) (r : list B) :
  length (zip_with f l r) = Nat.min (length l) (length r).
Proof.
  revert r; induction l as [|a l IH]; intros [|b r]; simpl; auto.
Qed.

Lemma nth_zip_with {A B C} (f : A -> B -> C) (l : list A) (r : list B) n da db dc :
  (n < length l)%nat -> (n < length r)%nat ->
  nth n (zip_with f l r) dc = f (nth n l da) (nth n r db).
Proof.
  revert r n; induction l as [|a l IH]; intros [|b r] [|n]; simpl; intros; try lia; auto.
  apply IH; lia.
Qed.

Lemma nth_tabulate_row (W : nat) (g : nat -> Q) (j : nat) :
  nth j (map g (seq 0 W)) 0 = if (j <? W)%nat then g j else 0.
Proof.
  destruct (Nat.ltb_spec j W) as [Hlt|Hge].
  - rewrite (nth_indep _ 0 (g 0%nat)) by (now rewrite length_map, length_seq).
    rewrite map_nth, seq_nth by assumption. reflexivity.
  - apply nth_overflow. now rewrite length_map, length_seq.
Qed.

Lemma nth_tabulate (H W : nat) (f : nat -> nat -> Q) (i : nat) :
  nth i (tabulate H W f) [] = if (i <? H)%nat then map (f i) (seq 0 W) else [].
Proof.
  unfold tabulate.
  destruct (Nat.ltb_spec i H) as [Hlt|Hge].
  - rewrite (nth_indep _ [] (map (f 0%nat) (seq 0 W))) by (now rewrite length_map, length_seq).
    rewrite (map_nth (fun i => map (fun j => f i j) (seq 0 W))), seq_nth by assumption.
    reflexivity.
  - apply nth_overflow. now rewrite length_map, length_seq.
Qed.

Lemma nth_tabulate3 (C H W : nat) (f : nat -> nat -> nat -> Q) (c : nat) :
  nth c (tabulate3 C H W f) [] = if (c <? C)%nat then tabulate H W (f c) else [].
Proof.
  unfold tabulate3.
  destruct (Nat.ltb_spec c C) as [Hlt|Hge].
  - rewrite (nth_indep _ [] (tabulate H W (f 0%nat))) by (now rewrite length_map, length_seq).
    rewrite (map_nth (fun c => tabulate H W (f c))), seq_nth by assumption.
    reflexivity.
  - apply nth_overflow. now rewrite length_map, length_seq.
Qed.

(** Reading an entry of a tabulated plane. *)
Lemma px_tabulate (H W : nat) (f : nat -> nat -> Q) (i j : Z) :
  px (tabulate H W f) i j =
  if ((0 <=? i) && (i <? Z.of_nat H) && (0 <=? j) && (j <? Z.of_nat W))%Z
  then f (Z.to_nat i) (Z.to_nat j) else 0.
Proof.
  unfold px.
  destruct (Z.leb_spec 0 i) as [Hi|Hi]; simpl; [|reflexivity].
  destruct (Z.leb_spec 0 j) as [Hj|Hj]; simpl.
  - rewrite nth_tabulate.
    destruct (Nat.ltb_spec (Z.to_nat i) H) as [Hlt|Hge];
      destruct (Z.ltb_spec i (Z.of_nat H)); try lia; simpl.
    + rewrite nth_tabulate_row.
      destruct (Nat.ltb_spec (Z.to_nat j) W); destruct (Z.ltb_spec j (Z.of_nat W));
        try lia; reflexivity.
    + now destruct (Z.to_nat j).
  - now rewrite andb_false_r.
Qed.

Lemma px_nil (i j : Z) : px [] i j = 0.
Proof.
  unfold px. destruct ((0 <=? i) && (0 <=? j))%Z; [|reflexivity].
  now destruct (Z.to_nat i), (Z.to_nat j).
Qed.

Lemma px3_tabulate3 (C H W : nat) (f : nat -> nat -> nat -> Q) (c : nat) (i j : Z) :
  px3 (tabulate3 C H W f) c i j =
  if ((c <? C)%nat && (0 <=? i) && (i <? Z.of_nat H) && (0 <=? j) && (j <? Z.of_nat W))%Z
  then f c (Z.to_nat i) (Z.to_nat j) else 0.
Proof.
  unfold px3. rewrite nth_tabulate3.
  destruct (c <? C)%nat; simpl.
  - apply px_tabulate.
  - apply px_nil.
Qed.

(** Element-wise operations on tabulated tensors. *)
Lemma map2d_tabulate (g : Q -> Q) H W f :
  map2d g (tabulate H W f) = tabulate H W (fun i j => g (f i j)).
Proof.
  unfold map2d, tabulate. rewrite map_map. apply map_ext; intros i.
  now rewrite map_map.
Qed.

Lemma map3d_tabulate3 (g : Q -> Q) C H W f :
  map3d g (tabulate3 C H W f) = tabulate3 C H W (fun c i j => g (f c i j)).
Proof.
  unfold map3d, tabulate3. rewrite map_map. apply map_ext; intros c.
  apply map2d_tabulate.
Qed.

Lemma zip2d_tabulate (g : Q -> Q -> Q) H W f1 f2 :
  zip2d g (tabulate H W f1) (tabulate H W f2) = tabulate H W (fun i j => g (f1 i j) (f2 i j)).
Proof.
  unfold zip2d, tabulate. rewrite zip_with_map. apply map_ext; intros i.
  apply zip_with_map.
Qed.

Lemma zip3d_tabulate3 (g : Q -> Q -> Q) C H W f1 f2 :
  zip3d g (tabulate3 C H W f1) (tabulate3 C H W f2)
  = tabulate3 C H W (fun c i j => g (f1 c i j) (f2 c i j)).
Proof.
  unfold zip3d, tabulate3. rewrite zip_with_map. apply map_ext; intros c.
  apply zip2d_tabulate.
Qed.

(** Tabulated tensors are determined by their entries inside the index
    range. *)
Lemma tabulate_ext H W f g :
  (forall i j, (i < H)%nat -> (j < W)%nat -> f i j = g i j) ->
  tabulate H W f = tabulate H W g.
Proof.
  intros E. unfold tabulate. apply map_ext_in; intros i Hi. apply in_seq in Hi.
  apply map_ext_in; intros j Hj. apply in_seq in Hj. apply E; lia.
Qed.

Lemma tabulate3_ext C H W f g :
  (forall c i j, (c < C)%nat -> (i < H)%nat -> (j < W)%nat -> f c i j = g c i j) ->
  tabulate3 C H W f = tabulate3 C H W g.
Proof.
  intros E. unfold tabulate3. apply map_ext_in; intros c Hc. apply in_seq in Hc.
  apply tabulate_ext; intros; apply E; lia.
Qed.

(** The size of a tabulated stack. *)
Lemma height_tabulate3 C H W f : (0 < C)%nat -> height (tabulate3 C H W f) = H.
Proof.
  intros HC. unfold height. rewrite nth_tabulate3.
  destruct (Nat.ltb_spec 0 C); [|lia].
  unfold tabulate. now rewrite length_map, length_seq.
Qed.

Lemma width_tabulate3 C H W f :
  (0 < C)%nat -> (0 < H)%nat -> width (tabulate3 C H W f) = W.
Proof.
  intros HC HH. unfold width. rewrite nth_tabulate3.
  destruct (Nat.ltb_spec 0 C); [|lia].
  rewrite nth_tabulate. destruct (Nat.ltb_spec 0 H); [|lia].
  now rewrite length_map, length_seq.
Qed.

Lemma tabulate_zero_height W f : tabulate 0 W f = [].
Proof. reflexivity. Qed.

(** A rectangular image is the table of its entries. *)
Lemma rect_tabulate H W (x : image) :
  rect H W x -> x = tabulate H W (fun i j => px x (Z.of_nat i) (Z.of_nat j)).
Proof.
  intros [HL HR]. subst H.
  apply (nth_ext _ _ [] []).
  - unfold tabulate. now rewrite length_map, length_seq.
  - intros i Hi. rewrite nth_tabulate.
    destruct (Nat.ltb_spec i (length x)); [|lia].
    assert (HW : length (nth i x []) = W).
    { rewrite Forall_forall in HR. apply HR. now apply nth_In. }
    apply (nth_ext _ _ 0 0).
    + now rewrite length_map, length_seq.
    + intros j Hj. rewrite nth_tabulate_row.
      destruct (Nat.ltb_spec j W); [|lia].
      unfold px.
      destruct (Z.leb_spec 0 (Z.of_nat i)); [|lia].
      destruct (Z.leb_spec 0 (Z.of_nat j)); [|lia].
      simpl. now rewrite !Nat2Z.id.
Qed.

Lemma rectb_rect H W x : rectb H W x = true -> rect H W x.
Proof.
  unfold rectb, rect. rewrite andb_true_iff, Nat.eqb_eq, forallb_forall, Forall_forall.
  intros [HL HR]; split; [assumption|].
  intros row Hin. apply Nat.eqb_eq. now apply HR.
Qed.

End TensorFacts.

(* ================================================================== *)
(** ** Sums and convex combinations *)
(* ================================================================== *)

Module SumFacts.

Lemma sumQ_app (a b : list Q) : sumQ (a ++ b) == sumQ a + sumQ b.
Proof.
  induction a as [|v a IH]; simpl; [lra|]. rewrite IH. lra.
Qed.

Lemma sumQ_map_le {A} (f g : A -> Q) (l : list A) :
  (forall k, f k <= g k) -> sumQ (map f l) <= sumQ (map g l).
Proof.
  intros E. induction l as [|k l IH]; simpl; [lra|]. specialize (E k). lra.
Qed.

Lemma sumQ_map_lin {A} (t s : Q) (f g : A -> Q) (l : list A) :
  sumQ (map (fun k => t * f k + s * g k) l) == t * sumQ (map f l) + s * sumQ (map g l).
Proof.
  induction l as [|k l IH]; simpl; [lra|]. rewrite IH. lra.
Qed.

Lemma sumQ_map_eq {A} (f g : A -> Q) (l : list A) :
  (forall k, f k == g k) -> sumQ (map f l) == sumQ (map g l).
Proof.
  intros E. induction l as [|k l IH]; simpl; [lra|]. rewrite IH, (E k). lra.
Qed.

(** A sum of terms each below the convex combination of two others is below
    the convex combination of their sums. *)
Lemma sum_upto_convex (t : Q) (n : nat) (ft f1 f2 : nat -> Q) :
  (forall k, ft k <= t * f1 k + (1 - t) * f2 k) ->
  sum_upto n ft <= t * sum_upto n f1 + (1 - t) * sum_upto n f2.
Proof.
  intros E. unfold sum_upto.
  rewrite <- sumQ_map_lin. now apply sumQ_map_le.
Qed.

Lemma sum_upto_affine (t : Q) (n : nat) (ft f1 f2 : nat -> Q) :
  (forall k, ft k == t * f1 k + (1 - t) * f2 k) ->
  sum_upto n ft == t * sum_upto n f1 + (1 - t) * sum_upto n f2.
Proof.
  intros E. unfold sum_upto.
  rewrite <- sumQ_map_lin. now apply sumQ_map_eq.
Qed.

Lemma sumQ_flatten2_tabulate (H W : nat) (f : nat -> nat -> Q) :
  sumQ (flatten2 (tabulate H W f)) == sum_upto H (fun i => sum_upto W (f i)).
Proof.
  unfold flatten2, tabulate, sum_upto.
  induction (seq 0 H) as [|i l IH]; simpl; [lra|].
  rewrite sumQ_app, IH. reflexivity.
Qed.

Lemma length_flatten2_tabulate (H W : nat) (f : nat -> nat -> Q) :
  length (flatten2 (tabulate H W f)) = (H * W)%nat.
Proof.
  unfold flatten2, tabulate.
  replace (H * W)%nat with (length (seq 0 H) * W)%nat by (now rewrite length_seq).
  induction (seq 0 H) as [|i l IH]; simpl; [reflexivity|].
  now rewrite length_app, IH, length_map, length_seq.
Qed.

End SumFacts.

(* ================================================================== *)
(** ** The positivity constraint and the convolutions *)
(* ================================================================== *)

Module ConvFacts.
Import ACR ACRSpec TensorFacts SumFacts.

Lemma clip_min0_nonneg (v : Q) : 0 <= clip_min0 v.
Proof. unfold clip_min0. apply Q.le_max_r. Qed.

(** Every entry of [Positive()(X)] is the clipped entry of [X]; this covers
    the indices outside [X] too, where both sides read 0. *)
Lemma w4_Positive_forward (X : tensor4) (o c a b : nat) :
  w4 (Positive_forward X) o c a b = clip_min0 (w4 X o c a b).
Proof.
  unfold w4, Positive_forward, map3d, map2d.
  change (@nil (list (list Q))) with (map (map (map clip_min0)) []) at 1.
  rewrite map_nth.
  change (@nil (list Q)) with (map (map clip_min0) []) at 1.
  rewrite map_nth.
  change (@nil Q) with (map clip_min0 []) at 1.
  rewrite map_nth.
  change 0 with (clip_min0 0) at 1.
  now rewrite map_nth.
Qed.

Lemma nonneg4_Positive_forward (X : tensor4) : nonneg4 (Positive_forward X).
Proof.
  intros o c a b. rewrite w4_Positive_forward. apply clip_min0_nonneg.
Qed.

(** A module on which exactly [Positive] is registered reads its weight
    through the clip, whatever tensor is stored. *)
Lemma weight_registered_Positive (c : Conv2d) (X : tensor4) :
  parametrizations c = [Positive] ->
  weight (set_original c X) = Positive_forward X.
Proof.
  intros E. unfold weight. simpl. now rewrite E.
Qed.

Lemma weight_Positive (c : Conv2d) :
  parametrizations c = [Positive] -> weight c = Positive_forward (original c).
Proof.
  intros E. unfold weight. now rewrite E.
Qed.

(** [ICNN_layer.__init__] registers [Positive] on [blue] and nothing on
    [orange]. *)
Lemma ICNN_layer_init_inv channels ksize stride relu_type bw ow ob l :
  ICNN_layer_init channels ksize stride relu_type bw ow ob = inr l ->
  parametrizations (blue l) = [Positive] /\ original (blue l) = bw /\
  bias (blue l) = None /\
  padding (blue l) = Same /\ padding (orange l) = Same /\
  out_channels (blue l) = channels /\ out_channels (orange l) = channels /\
  in_channels (blue l) = channels /\ in_channels (orange l) = 1%nat /\
  act_ok (activation l) /\ activation_of relu_type = inr (activation l).
Proof.
  unfold ICNN_layer_init.
  destruct (same_padding_stride stride); [discriminate|].
  destruct (activation_of relu_type) as [e|act] eqn:Ea; [discriminate|].
  intros E; inversion E; subst; clear E; simpl.
  repeat split; try reflexivity.
  unfold activation_of in Ea.
  destruct (String.eqb relu_type "LeakyReLU").
  - inversion Ea. now left.
  - destruct (String.eqb relu_type "ReLU"); [|discriminate].
    inversion Ea. now right.
Qed.

Lemma build_layers_inv p init n i ls :
  build_layers p init n i = inr ls ->
  length ls = n /\
  Forall (fun l => parametrizations (blue l) = [Positive] /\
                   layer_layout (Param.channels p) l /\
                   act_ok (activation l)) ls.
Proof.
  revert i ls; induction n as [|n IH]; intros i ls; simpl.
  - intros E; inversion E; subst. split; [reflexivity|constructor].
  - destruct (ICNN_layer_init _ _ _ _ _ _ _) as [e|l] eqn:El; [discriminate|].
    destruct (build_layers p init n (S i)) as [e|ls'] eqn:Els; [discriminate|].
    intros E; inversion E; subst; clear E.
    destruct (IH _ _ Els) as [HL HF].
    apply ICNN_layer_init_inv in El.
    destruct El as (Hp & _ & _ & H1 & H2 & H3 & H4 & _ & _ & Ha & _).
    split; [simpl; now rewrite HL|].
    constructor; [|assumption].
    unfold layer_layout. repeat split; assumption.
Qed.

(** What [ACR.__init__] establishes, whatever values the tensors hold. *)
Lemma ACR_init_inv p init m :
  ACR_init p init = inr m ->
  model_parameters m = p /\
  length (ICNN_layers m) = Param.layers p /\
  Forall (fun l => parametrizations (blue l) = [Positive]) (ICNN_layers m) /\
  parametrizations (last_layer m) = [Positive] /\
  original (last_layer m) = last_weight init /\
  architecture m /\ activations_ok m.
Proof.
  unfold ACR_init.
  destruct (same_padding_stride (Param.stride p)); [discriminate|].
  destruct (activation_of (Param.relu_type p)) as [e|act] eqn:Ea; [discriminate|].
  destruct (build_layers p init (Param.layers p) 0) as [e|ls] eqn:Els; [discriminate|].
  intros E; inversion E; subst; clear E; simpl.
  apply build_layers_inv in Els. destruct Els as [HL HF].
  assert (Hact : act_ok act).
  { unfold activation_of in Ea.
    destruct (String.eqb (Param.relu_type p) "LeakyReLU").
    - inversion Ea. now left.
    - destruct (String.eqb (Param.relu_type p) "ReLU"); [|discriminate].
      inversion Ea. now right. }
  repeat split; try reflexivity; try assumption.
  - eapply Forall_impl; [|exact HF]. intros l H; apply H.
  - unfold architecture; simpl. repeat split; try reflexivity; try assumption.
    eapply Forall_impl; [|exact HF]. intros l H; apply H.
  - eapply Forall_impl; [|exact HF]. intros l H; apply H.
Qed.

Lemma ACR_init_effective_nonneg p init m :
  ACR_init p init = inr m -> effective_nonneg m.
Proof.
  intros E. apply ACR_init_inv in E.
  destruct E as (_ & _ & HF & HL & _).
  split.
  - eapply Forall_impl; [|exact HF]. intros l Hl.
    rewrite (weight_Positive _ Hl). apply nonneg4_Positive_forward.
  - rewrite (weight_Positive _ HL). apply nonneg4_Positive_forward.
Qed.

End ConvFacts.

(* ================================================================== *)
(** ** Convexity of the regulariser *)
(* ================================================================== *)

Module Convexity.
Import ACR ACRSpec TensorFacts SumFacts ConvFacts.

(** Both activations are convex and nondecreasing, which is what the
    composition rule needs. *)
Lemma activation_convex_mono (a : Activation) (t u v w : Q) :
  act_ok a -> 0 <= t -> t <= 1 ->
  u <= t * v + (1 - t) * w ->
  activation_apply a u <= t * activation_apply a v + (1 - t) * activation_apply a w.
Proof.
  intros [Ha|Ha] Ht0 Ht1 Hu; subst a; simpl.
  - destruct (Q.max_spec 0 u) as [[Hu1 Eu1]|[Hu1 Eu1]];
    destruct (Q.min_spec 0 u) as [[Hu2 Eu2]|[Hu2 Eu2]];
    destruct (Q.max_spec 0 v) as [[Hv1 Ev1]|[Hv1 Ev1]];
    destruct (Q.min_spec 0 v) as [[Hv2 Ev2]|[Hv2 Ev2]];
    destruct (Q.max_spec 0 w) as [[Hw1 Ew1]|[Hw1 Ew1]];
    destruct (Q.min_spec 0 w) as [[Hw2 Ew2]|[Hw2 Ew2]];
    rewrite Eu1, Eu2, Ev1, Ev2, Ew1, Ew2; try lra; nra.
  - destruct (Q.max_spec 0 u) as [[Hu1 Eu1]|[Hu1 Eu1]];
    destruct (Q.max_spec 0 v) as [[Hv1 Ev1]|[Hv1 Ev1]];
    destruct (Q.max_spec 0 w) as [[Hw1 Ew1]|[Hw1 Ew1]];
    rewrite Eu1, Ev1, Ew1; try lra; nra.
Qed.

(** Non-negative weights carry "below the convex combination" from the
    input of a convolution to its output. *)
Lemma conv_entry_below (c : Conv2d) (w : tensor4) (t : Q) (zt z1 z2 : fmaps) (o i j : nat) :
  nonneg4 w -> below t zt z1 z2 ->
  conv_entry c w zt o i j
  <= t * conv_entry c w z1 o i j + (1 - t) * conv_entry c w z2 o i j.
Proof.
  intros Hw Hb. unfold conv_entry.
  match goal with
  | |- _ + ?St <= t * (_ + ?S1) + (1 - t) * (_ + ?S2) =>
    assert (HS : St <= t * S1 + (1 - t) * S2)
  end.
  { apply sum_upto_convex; intros ci.
    apply sum_upto_convex; intros a.
    apply sum_upto_convex; intros b.
    specialize (Hw o ci a b).
    specialize (Hb ci (Z.of_nat i + Z.of_nat a - Z.of_nat (pad_before c))%Z
                      (Z.of_nat j + Z.of_nat b - Z.of_nat (pad_before c))%Z).
    nra. }
  lra.
Qed.

(** Any convolution maps a convex combination of inputs to the convex
    combination of the outputs. *)
Lemma conv_entry_affine (c : Conv2d) (w : tensor4) (t : Q) (xt x1 x2 : fmaps) (o i j : nat) :
  affine t xt x1 x2 ->
  conv_entry c w xt o i j
  == t * conv_entry c w x1 o i j + (1 - t) * conv_entry c w x2 o i j.
Proof.
  intros Hb. unfold conv_entry.
  match goal with
  | |- _ + ?St == t * (_ + ?S1) + (1 - t) * (_ + ?S2) =>
    assert (HS : St == t * S1 + (1 - t) * S2)
  end.
  { apply sum_upto_affine; intros ci.
    apply sum_upto_affine; intros a.
    apply sum_upto_affine; intros b.
    rewrite (Hb ci (Z.of_nat i + Z.of_nat a - Z.of_nat (pad_before c))%Z
                   (Z.of_nat j + Z.of_nat b - Z.of_nat (pad_before c))%Z).
    ring. }
  rewrite HS. ring.
Qed.

Lemma below_tabulate3 (t : Q) (C H W : nat) (ft f1 f2 : nat -> nat -> nat -> Q) :
  (forall c i j, ft c i j <= t * f1 c i j + (1 - t) * f2 c i j) ->
  below t (tabulate3 C H W ft) (tabulate3 C H W f1) (tabulate3 C H W f2).
Proof.
  intros E c i j. rewrite !px3_tabulate3.
  destruct ((c <? C)%nat && (0 <=? i)%Z && (i <? Z.of_nat H)%Z && (0 <=? j)%Z
            && (j <? Z.of_nat W)%Z).
  - apply E.
  - lra.
Qed.

(** With [padding="same"] the output keeps the spatial size of the input. *)
Lemma Conv2d_forward_same (c : Conv2d) (x : fmaps) :
  padding c = Same ->
  Conv2d_forward c x
  = tabulate3 (out_channels c) (height x) (width x) (conv_entry c (weight c) x).
Proof.
  intros E. unfold Conv2d_forward, out_size. now rewrite E.
Qed.

Lemma tabulate3_no_rows C W W' g : tabulate3 C 0 W g = tabulate3 C 0 W' g.
Proof. reflexivity. Qed.

Lemma tabulate3_dims_stack (C H W : nat) f (C' : nat) g :
  (C' = 0 \/ 0 < C)%nat ->
  tabulate3 C' (height (tabulate3 C H W f)) (width (tabulate3 C H W f)) g
  = tabulate3 C' H W g.
Proof.
  intros [E|HC].
  - subst C'. reflexivity.
  - rewrite height_tabulate3 by assumption.
    destruct H as [|H]; [apply tabulate3_no_rows|].
    rewrite width_tabulate3 by lia. reflexivity.
Qed.

Lemma tabulate3_dims_image (H W : nat) (x : image) (C' : nat) g :
  rect H W x ->
  tabulate3 C' (height [x]) (width [x]) g = tabulate3 C' H W g.
Proof.
  intros [HL HR]. unfold height, width. simpl. rewrite HL.
  destruct x as [|row x]; simpl in *.
  - subst H. apply tabulate3_no_rows.
  - inversion HR; subst. reflexivity.
Qed.

Lemma rect_tabulate_shape H W f : rect H W (tabulate H W f).
Proof.
  split.
  - unfold tabulate. now rewrite length_map, length_seq.
  - unfold tabulate. apply Forall_forall. intros row Hin.
    apply in_map_iff in Hin. destruct Hin as (i & <- & _).
    now rewrite length_map, length_seq.
Qed.

(** The convex combination of two images of one size has that size and, as
    a one-plane stack, is the convex combination entry by entry. *)
Lemma mix_tabulate (t : Q) (H W : nat) (x1 x2 : image) :
  rect H W x1 -> rect H W x2 ->
  mix t x1 x2
  = tabulate H W (fun i j => t * px x1 (Z.of_nat i) (Z.of_nat j)
                             + (1 - t) * px x2 (Z.of_nat i) (Z.of_nat j)).
Proof.
  intros H1 H2. unfold mix.
  rewrite <- (zip2d_tabulate (fun a b => t * a + (1 - t) * b) H W
                (fun i j => px x1 (Z.of_nat i) (Z.of_nat j))
                (fun i j => px x2 (Z.of_nat i) (Z.of_nat j))).
  now rewrite <- (rect_tabulate H W x1 H1), <- (rect_tabulate H W x2 H2).
Qed.

Lemma rect_mix (t : Q) (H W : nat) (x1 x2 : image) :
  rect H W x1 -> rect H W x2 -> rect H W (mix t x1 x2).
Proof.
  intros H1 H2. rewrite (mix_tabulate t H W x1 x2 H1 H2). apply rect_tabulate_shape.
Qed.

Lemma affine_mix (t : Q) (H W : nat) (x1 x2 : image) :
  rect H W x1 -> rect H W x2 -> affine t [mix t x1 x2] [x1] [x2].
Proof.
  intros H1 H2 c i j. unfold px3.
  destruct c as [|c]; simpl.
  - rewrite (mix_tabulate t H W x1 x2 H1 H2), px_tabulate.
    destruct ((0 <=? i)%Z && (i <? Z.of_nat H)%Z && (0 <=? j)%Z && (j <? Z.of_nat W)%Z)
      eqn:Hin.
    + apply andb_true_iff in Hin. destruct Hin as [Hin _].
      apply andb_true_iff in Hin. destruct Hin as [Hin Hj].
      apply andb_true_iff in Hin. destruct Hin as [Hi _].
      apply Z.leb_le in Hi, Hj. now rewrite !Z2Nat.id by assumption.
    + rewrite (rect_tabulate H W x1 H1), (rect_tabulate H W x2 H2), !px_tabulate, Hin.
      ring.
  - destruct c; rewrite px_nil; ring.
Qed.

(** A layer applied to a stack of [C] planes and an image of the same
    spatial size, entry by entry. *)
Lemma ICNN_layer_forward_tabulate (l : ICNN_layer) (C H W : nat) (z : fmaps) (x : image) :
  layer_layout C l -> tabulated C H W z -> rect H W x ->
  ICNN_layer_forward l z [x]
  = tabulate3 C H W (fun c i j =>
      activation_apply (activation l)
        (conv_entry (blue l) (weight (blue l)) z c i j
         + conv_entry (orange l) (weight (orange l)) [x] c i j)).
Proof.
  intros (Pb & Po & Cb & Co) [f Ez] Hx. unfold ICNN_layer_forward.
  rewrite (Conv2d_forward_same _ _ Pb), (Conv2d_forward_same _ _ Po), Cb, Co.
  rewrite (tabulate3_dims_image H W x C _ Hx).
  rewrite Ez at 1 2.
  rewrite tabulate3_dims_stack by lia.
  rewrite zip3d_tabulate3, map3d_tabulate3. reflexivity.
Qed.

Lemma ICNN_layer_forward_below (l : ICNN_layer) (t : Q) (C H W : nat)
    (zt z1 z2 : fmaps) (xt x1 x2 : image) :
  layer_layout C l -> nonneg4 (weight (blue l)) -> act_ok (activation l) ->
  0 <= t -> t <= 1 ->
  tabulated C H W zt -> tabulated C H W z1 -> tabulated C H W z2 ->
  rect H W xt -> rect H W x1 -> rect H W x2 ->
  below t zt z1 z2 -> affine t [xt] [x1] [x2] ->
  below t (ICNN_layer_forward l zt [xt]) (ICNN_layer_forward l z1 [x1])
          (ICNN_layer_forward l z2 [x2]).
Proof.
  intros HL Hw Ha Ht0 Ht1 Tt T1 T2 Rt R1 R2 Hb Hx.
  rewrite (ICNN_layer_forward_tabulate l C H W zt xt HL Tt Rt).
  rewrite (ICNN_layer_forward_tabulate l C H W z1 x1 HL T1 R1).
  rewrite (ICNN_layer_forward_tabulate l C H W z2 x2 HL T2 R2).
  apply below_tabulate3; intros c i j.
  apply activation_convex_mono; try assumption.
  pose proof (conv_entry_below (blue l) (weight (blue l)) t zt z1 z2 c i j Hw Hb) as Eb.
  pose proof (conv_entry_affine (orange l) (weight (orange l)) t [xt] [x1] [x2] c i j Hx)
    as Eo.
  lra.
Qed.

(** The whole stack of layers. *)
Lemma layers_below (t : Q) (C H W : nat) (xt x1 x2 : image) (layers : list ICNN_layer) :
  0 <= t -> t <= 1 ->
  rect H W xt -> rect H W x1 -> rect H W x2 -> affine t [xt] [x1] [x2] ->
  Forall (layer_layout C) layers ->
  Forall (fun l => nonneg4 (weight (blue l))) layers ->
  Forall (fun l => act_ok (activation l)) layers ->
  forall zt z1 z2,
  tabulated C H W zt -> tabulated C H W z1 -> tabulated C H W z2 ->
  below t zt z1 z2 ->
  let run x z := fold_left (fun z layer => ICNN_layer_forward layer z [x]) layers z in
  tabulated C H W (run xt zt) /\ tabulated C H W (run x1 z1) /\
  tabulated C H W (run x2 z2) /\
  below t (run xt zt) (run x1 z1) (run x2 z2).
Proof.
  intros Ht0 Ht1 Rt R1 R2 Hx HL Hw Ha.
  induction layers as [|l layers IH]; intros zt z1 z2 Tt T1 T2 Hb; simpl.
  - repeat split; assumption.
  - inversion HL; subst. inversion Hw; subst. inversion Ha; subst.
    apply IH; try assumption.
    + eexists. now apply ICNN_layer_forward_tabulate.
    + eexists. now apply ICNN_layer_forward_tabulate.
    + eexists. now apply ICNN_layer_forward_tabulate.
    + now apply (ICNN_layer_forward_below l t C H W).
Qed.

(** The mean of a plane is a non-negative combination of its entries. *)
Lemma plane_mean_below (t : Q) (H W : nat) (ft f1 f2 : nat -> nat -> Q) :
  (forall i j, ft i j <= t * f1 i j + (1 - t) * f2 i j) ->
  plane_mean (tabulate H W ft)
  <= t * plane_mean (tabulate H W f1) + (1 - t) * plane_mean (tabulate H W f2).
Proof.
  intros E. unfold plane_mean.
  rewrite !length_flatten2_tabulate, !sumQ_flatten2_tabulate.
  assert (HS : sum_upto H (fun i => sum_upto W (ft i))
               <= t * sum_upto H (fun i => sum_upto W (f1 i))
                  + (1 - t) * sum_upto H (fun i => sum_upto W (f2 i))).
  { apply sum_upto_convex; intros i. apply sum_upto_convex; intros j. apply E. }
  assert (Hn : 0 <= / inject_Z (Z.of_nat (H * W))).
  { apply Qinv_le_0_compat. change 0 with (inject_Z 0). rewrite <- Zle_Qle. lia. }
  unfold Qdiv. nra.
Qed.

(** The spatial size a convolution reads off a stack of [C] planes does not
    depend on the entries of the stack. *)
Lemma dims_of_stack (C H W : nat) :
  exists H' W', forall f C' g,
    tabulate3 C' (height (tabulate3 C H W f)) (width (tabulate3 C H W f)) g
    = tabulate3 C' H' W' g.
Proof.
  destruct C as [|C].
  - exists 0%nat, 0%nat. reflexivity.
  - exists H, W. intros f C' g. apply tabulate3_dims_stack. lia.
Qed.

Lemma px3_pool_one_plane (H W : nat) g :
  px3 (pool (tabulate3 1 H W g)) 0 0 0 = plane_mean (tabulate H W (g 0%nat)).
Proof. reflexivity. Qed.

(** C1.  For every ACR model laid out as [__init__] builds it, whose
    effective blue and last-layer weights are non-negative and whose
    activations are LeakyReLU(0.2) or ReLU, the regulariser is convex in its
    input image: for images [x1], [x2] of one size and [t] in [0, 1],
    [R(t*x1 + (1-t)*x2) <= t*R(x1) + (1-t)*R(x2)], in exact arithmetic. *)
Theorem ACR_forward_convex (m : ACR) (H W : nat) (x1 x2 : image) (t : Q) :
  architecture m -> effective_nonneg m -> activations_ok m ->
  rect H W x1 -> rect H W x2 -> 0 <= t -> t <= 1 ->
  R m (mix t x1 x2) <= t * R m x1 + (1 - t) * R m x2.
Proof.
  intros (_ & Pf & Cf & HL & Pl & Cl) [Hw Hwl] [Haf Ha] R1 R2 Ht0 Ht1.
  set (C := Param.channels (model_parameters m)) in *.
  pose proof (rect_mix t H W x1 x2 R1 R2) as Rt.
  pose proof (affine_mix t H W x1 x2 R1 R2) as Hx.
  set (xt := mix t x1 x2) in *.
  unfold R, ACR_forward_sample.
  (* the first convolution and its activation *)
  rewrite !(Conv2d_forward_same _ _ Pf), Cf.
  rewrite (tabulate3_dims_image H W xt C _ Rt), (tabulate3_dims_image H W x1 C _ R1),
          (tabulate3_dims_image H W x2 C _ R2).
  rewrite !map3d_tabulate3.
  match goal with
  | |- px3 (pool (Conv2d_forward _ (fold_left _ _ ?at'))) _ _ _
       <= t * px3 (pool (Conv2d_forward _ (fold_left _ _ ?a1))) _ _ _
          + (1 - t) * px3 (pool (Conv2d_forward _ (fold_left _ _ ?a2))) _ _ _ =>
    set (zt := at'); set (z1 := a1); set (z2 := a2)
  end.
  assert (Hb0 : below t zt z1 z2).
  { apply below_tabulate3; intros c i j.
    apply activation_convex_mono; try assumption.
    pose proof (conv_entry_affine (first_layer m) (weight (first_layer m)) t
                  [xt] [x1] [x2] c i j Hx) as E.
    lra. }
  (* the ICNN layers *)
  destruct (layers_below t C H W xt x1 x2 (ICNN_layers m) Ht0 Ht1 Rt R1 R2 Hx HL Hw Ha
              zt z1 z2) as ([ft Et] & [f1 E1] & [f2 E2] & Hb);
    try (eexists; reflexivity); try assumption.
  simpl in Et, E1, E2, Hb.
  (* the last convolution and the pooling *)
  rewrite !(Conv2d_forward_same _ _ Pl), Cl.
  destruct (dims_of_stack C H W) as (H' & W' & Hdims).
  rewrite Et, E1, E2 in Hb |- *.
  rewrite !Hdims, !px3_pool_one_plane.
  apply plane_mean_below; intros i j.
  now apply conv_entry_below.
Qed.

Lemma small_model_built :
  ACR_init Examples.small_parameters Examples.small_tensors = inr Examples.small_model.
Proof. reflexivity. Qed.

Lemma ACR_forward_convex_witness :
  architecture Examples.small_model /\ effective_nonneg Examples.small_model /\
  activations_ok Examples.small_model /\
  rect 2 3 Examples.image_a /\ rect 2 3 Examples.image_b /\
  0 <= 1 # 3 /\ 1 # 3 <= 1 /\
  R Examples.small_model (mix (1 # 3) Examples.image_a Examples.image_b)
  <= (1 # 3) * R Examples.small_model Examples.image_a
     + (1 - (1 # 3)) * R Examples.small_model Examples.image_b.
Proof.
  pose proof (ACR_init_inv _ _ _ small_model_built) as (_ & _ & _ & _ & _ & HA & HO).
  pose proof (ACR_init_effective_nonneg _ _ _ small_model_built) as HN.
  assert (Ra : rect 2 3 Examples.image_a) by (apply rectb_rect; reflexivity).
  assert (Rb : rect 2 3 Examples.image_b) by (apply rectb_rect; reflexivity).
  assert (H0 : 0 <= 1 # 3) by (vm_compute; discriminate).
  assert (H1 : 1 # 3 <= 1) by (vm_compute; discriminate).
  repeat (split; [assumption|]).
  exact (ACR_forward_convex Examples.small_model 2 3 Examples.image_a Examples.image_b
           (1 # 3) HA HN HO Ra Rb H0 H1).
Defined.

End Convexity.

(* ================================================================== *)
(** ** The positivity invariant *)
(* ================================================================== *)

Module Positivity.
Import ACR ACRSpec TensorFacts ConvFacts.

Lemma conv_entry_set_original (c : Conv2d) (X w : tensor4) (x : fmaps) (o i j : nat) :
  conv_entry (set_original c X) w x o i j = conv_entry c w x o i j.
Proof. reflexivity. Qed.

Lemma Conv2d_forward_reads_clip (c : Conv2d) (X : tensor4) (x : fmaps) :
  parametrizations c = [Positive] ->
  Conv2d_forward (set_original c X) x
  = tabulate3 (out_channels c) (out_size c (height x)) (out_size c (width x))
      (conv_entry c (Positive_forward X) x).
Proof.
  intros E. unfold Conv2d_forward. now rewrite (weight_registered_Positive c X E).
Qed.

(** C2.  Whatever tensor training has stored in a blue convolution or in the
    last convolution of an ACR (entries of either sign), the weight the module
    reads is [Positive()] of it: entry by entry the maximum of the stored
    entry and 0, hence never negative; and it is this clipped weight that
    every forward pass of the convolution uses. *)
Theorem Positive_effective_weight (p : Param.t) (init : InitialTensors) (m : ACR)
    (X : tensor4) :
  ACR_init p init = inr m ->
  (forall l, In l (ICNN_layers m) ->
     weight (set_original (blue l) X) = Positive_forward X /\
     forall z, Conv2d_forward (set_original (blue l) X) z
               = tabulate3 (out_channels (blue l)) (height z) (width z)
                   (conv_entry (blue l) (Positive_forward X) z)) /\
  (weight (set_original (last_layer m) X) = Positive_forward X /\
   forall z, Conv2d_forward (set_original (last_layer m) X) z
             = tabulate3 (out_channels (last_layer m)) (height z) (width z)
                 (conv_entry (last_layer m) (Positive_forward X) z)) /\
  (forall o c a b,
     w4 (Positive_forward X) o c a b == Qmax (w4 X o c a b) 0 /\
     0 <= w4 (Positive_forward X) o c a b).
Proof.
  intros E. apply ACR_init_inv in E.
  destruct E as (_ & _ & HF & HL & _ & (_ & _ & _ & HLay & Pl & _) & _).
  split; [|split].
  - intros l Hin.
    rewrite Forall_forall in HF, HLay.
    specialize (HF l Hin). destruct (HLay l Hin) as (Pb & _).
    split; [now apply weight_registered_Positive|].
    intros z. rewrite (Conv2d_forward_reads_clip _ X z HF).
    unfold out_size. now rewrite Pb.
  - split; [now apply weight_registered_Positive|].
    intros z. rewrite (Conv2d_forward_reads_clip _ X z HL).
    unfold out_size. now rewrite Pl.
  - intros o c a b. rewrite w4_Positive_forward. split.
    + reflexivity.
    + apply clip_min0_nonneg.
Qed.

Lemma Positive_effective_weight_witness :
  ACR_init Examples.small_parameters Examples.small_tensors = inr Examples.small_model /\
  w4 (Positive_forward (Examples.fill4 2 2 3 Examples.signed_entry)) 0 1 0 0 == Qmax (- (1 # 3)) 0.
Proof.
  split; [reflexivity|].
  pose proof (Positive_effective_weight Examples.small_parameters Examples.small_tensors
                Examples.small_model (Examples.fill4 2 2 3 Examples.signed_entry)
                Convexity.small_model_built) as (_ & _ & HE).
  destruct (HE 0%nat 1%nat 0%nat 0%nat) as [E _].
  rewrite E. reflexivity.
Defined.

End Positivity.

(* ================================================================== *)
(** ** Slices and the sub-operators *)
(* ================================================================== *)

Module SliceFacts.
Import Noise2Inverse.

Local Open Scope nat_scope.

(** The slice [l[i:-1:K]] in natural numbers: indices [i], [i+K], ... below
    [len - 1]. *)
Lemma slice_indices_to_last (len i K : nat) :
  0 < K ->
  slice_indices len (Z.of_nat i) (-1) K
  = if i + 1 <? len
    then map (fun k => i + k * K) (seq 0 ((len - 2 - i) / K + 1))
    else [].
Proof.
  intros HK. unfold slice_indices, adjust_index.
  destruct (Z.ltb_spec (Z.of_nat i) 0) as [Hneg|_]; [lia|].
  change (-1 <? 0)%Z with true. cbv iota.
  destruct (Nat.ltb_spec (i + 1) len) as [Hlt|Hge].
  - rewrite Z.min_l, Z.max_l by lia.
    destruct (Z.ltb_spec (Z.of_nat i) (-1 + Z.of_nat len)) as [_|Hc]; [|lia].
    rewrite Nat2Z.id.
    replace (-1 + Z.of_nat len - Z.of_nat i - 1)%Z with (Z.of_nat (len - 2 - i)) by lia.
    rewrite <- Nat2Z.inj_div.
    replace (Z.of_nat ((len - 2 - i) / K) + 1)%Z with (Z.of_nat ((len - 2 - i) / K + 1))
      by lia.
    now rewrite Nat2Z.id.
  - destruct (Z.ltb_spec (Z.min (Z.of_nat i) (Z.of_nat len))
                         (Z.max (-1 + Z.of_nat len) 0)) as [Hc|_]; [lia|].
    reflexivity.
Qed.

(** Membership: every [K]-th index from [i] on, the last index excluded. *)
Lemma in_slice_indices_to_last (len i K idx : nat) :
  0 < K ->
  In idx (slice_indices len (Z.of_nat i) (-1) K)
  <-> i <= idx /\ idx + 1 < len /\ (idx - i) mod K = 0.
Proof.
  intros HK. rewrite slice_indices_to_last by assumption.
  destruct (Nat.ltb_spec (i + 1) len) as [Hlt|Hge].
  - rewrite in_map_iff. split.
    + intros (k & <- & Hk). apply in_seq in Hk.
      assert (Hle : k * K <= len - 2 - i).
      { transitivity (K * ((len - 2 - i) / K)).
        - rewrite Nat.mul_comm. apply Nat.mul_le_mono_l. lia.
        - apply Nat.Div0.mul_div_le. }
      repeat split; try lia.
      replace (i + k * K - i) with (k * K) by lia.
      apply Nat.Div0.mod_mul.
    + intros (Hi & Hl & Hm).
      exists ((idx - i) / K). split.
      * pose proof (Nat.div_mod (idx - i) K ltac:(lia)) as E.
        rewrite Hm, Nat.add_0_r in E. rewrite (Nat.mul_comm _ K). lia.
      * apply in_seq. split; [lia|].
        assert ((idx - i) / K <= (len - 2 - i) / K) by (apply Nat.Div0.div_le_mono; lia).
        lia.
  - split; [intros []|lia].
Qed.

Lemma length_select {A} (l : list A) (indices : list nat) :
  (forall i, In i indices -> i < length l) ->
  length (select l indices) = length indices.
Proof.
  unfold select. induction indices as [|i indices IH]; intros Hb; simpl; [reflexivity|].
  rewrite length_app, IH by (intros; apply Hb; now right).
  destruct (nth_error l i) eqn:E; [reflexivity|].
  apply nth_error_None in E. specialize (Hb i (or_introl eq_refl)). lia.
Qed.

(** The number of angles in [angles[i:-1:K]]. *)
Lemma length_py_slice_to_last {A} (l : list A) (i K : nat) :
  0 < K ->
  length (py_slice l (Z.of_nat i) (-1) K)
  = if i + 1 <? length l then (length l - 2 - i) / K + 1 else 0.
Proof.
  intros HK. unfold py_slice. rewrite length_select.
  - rewrite slice_indices_to_last by assumption.
    destruct (i + 1 <? length l); [|reflexivity].
    now rewrite length_map, length_seq.
  - intros idx Hin. apply in_slice_indices_to_last in Hin; lia.
Qed.

(** The slice never has all the angles of a non-empty list. *)
Lemma length_py_slice_to_last_lt {A} (l : list A) (i K : nat) :
  0 < K -> l <> [] -> length (py_slice l (Z.of_nat i) (-1) K) < length l.
Proof.
  intros HK Hl. rewrite length_py_slice_to_last by assumption.
  assert (0 < length l) by (destruct l; [congruence|simpl; lia]).
  destruct (Nat.ltb_spec (i + 1) (length l)); [|assumption].
  assert ((length l - 2 - i) / K <= length l - 2 - i) by (apply Nat.Div0.div_le_upper_bound; nia).
  lia.
Qed.

Lemma firstn_seq_le (n start len : nat) :
  n <= len -> firstn n (seq start len) = seq start n.
Proof.
  revert start len; induction n as [|n IH]; intros start [|len] Hle; simpl;
    try reflexivity; try lia.
  f_equal. apply IH. lia.
Qed.

(** [np.delete(np.arange(K), label)] holds every index but [label]. *)
Lemma np_delete_arange (K label : nat) :
  label < K ->
  np_delete (arange K) label = seq 0 label ++ seq (S label) (K - S label).
Proof.
  intros HL. unfold np_delete, arange.
  rewrite firstn_seq_le by lia. now rewrite skipn_seq.
Qed.

Lemma in_np_delete_arange (K label i : nat) :
  label < K -> (In i (np_delete (arange K) label) <-> i < K /\ i <> label).
Proof.
  intros HL. rewrite np_delete_arange by assumption.
  rewrite in_app_iff, !in_seq. lia.
Qed.

Lemma length_np_delete_arange (K label : nat) :
  label < K -> length (np_delete (arange K) label) = K - 1.
Proof.
  intros HL. rewrite np_delete_arange by assumption.
  rewrite length_app, !length_seq. lia.
Qed.

Lemma NoDup_np_delete_arange (K label : nat) :
  label < K -> NoDup (np_delete (arange K) label).
Proof.
  intros HL. rewrite np_delete_arange by assumption.
  replace (seq 0 label ++ seq (S label) (K - S label))
    with (filter (fun i => negb (Nat.eqb i label)) (seq 0 K)).
  - apply NoDup_filter, seq_NoDup.
  - replace K with (label + (1 + (K - S label))) at 1 by lia.
    rewrite !seq_app, !filter_app. simpl seq at 2. simpl filter at 2.
    rewrite Nat.eqb_refl. simpl.
    f_equal.
    + apply forallb_filter_id. apply forallb_forall. intros i Hi. apply in_seq in Hi.
      apply negb_true_iff, Nat.eqb_neq. lia.
    + replace (label + 1) with (S label) by lia.
      apply forallb_filter_id. apply forallb_forall. intros i Hi. apply in_seq in Hi.
      apply negb_true_iff, Nat.eqb_neq. lia.
Qed.

End SliceFacts.

(* ================================================================== *)
(** ** [make_sub_operators] *)
(* ================================================================== *)

Module SubOperators.
Import Noise2Inverse SliceFacts.

Local Open Scope nat_scope.

Section WithOperator.

Variable Other : Type.
Variable Operator : Type.
Variable make_operator : Geometry Other -> Operator.

(** The operator built for split [i]. *)
Let sub_operator (geo : Geometry Other) (K i : nat) : Operator :=
  make_operator (set_angles geo (py_slice (angles geo) (Z.of_nat i) (-1) K)).

Lemma sub_operators_loop_spec (angles0 : list Q) (K n i : nat) (geo : Geometry Other) :
  sub_operators_loop Other Operator make_operator angles0 K n i geo
  = (map (fun k => make_operator (set_angles geo (py_slice angles0 (Z.of_nat k) (-1) K)))
         (seq i n),
     match n with
     | O => geo
     | S n' => set_angles geo (py_slice angles0 (Z.of_nat (i + n')) (-1) K)
     end).
Proof.
  revert i geo; induction n as [|n IH]; intros i geo; simpl; [reflexivity|].
  rewrite IH. f_equal.
  destruct n as [|n]; simpl.
  - now rewrite Nat.add_0_r.
  - unfold set_angles; simpl. do 3 f_equal. lia.
Qed.

(** C9.  [make_sub_operators] leaves the geometry object it was handed with
    the angles of the last split: for at least one split and a non-empty
    angle list, [geo.angles] is afterwards [angles[K-1:-1:K]], which is
    shorter than, hence different from, the list before the call; nothing
    restores it, and the solver's constructor hands this state on. *)
Theorem make_sub_operators_overwrites_angles (geo : Geometry Other) (K : nat) :
  0 < K -> angles geo <> [] ->
  let geo' := snd (make_sub_operators Other Operator make_operator geo K) in
  angles geo' = py_slice (angles geo) (Z.of_nat (K - 1)) (-1) K /\
  length (angles geo') < length (angles geo) /\
  angles geo' <> angles geo /\
  other geo' = other geo /\
  exists solver,
    Noise2Inverse_solver_init Other Operator make_operator (Some geo) K
    = inr (solver, geo').
Proof.
  intros HK Hne. unfold make_sub_operators, Noise2Inverse_solver_init, make_sub_operators.
  rewrite sub_operators_loop_spec.
  destruct K as [|K]; [lia|]. cbn [snd].
  replace (0 + K) with (S K - 1) by lia.
  assert (Hlt : length (py_slice (angles geo) (Z.of_nat (S K - 1)) (-1) (S K))
                < length (angles geo))
    by (apply length_py_slice_to_last_lt; [lia|assumption]).
  cbn [angles other set_angles]. repeat split.
  - exact Hlt.
  - intros E. rewrite E in Hlt. lia.
  - eexists. reflexivity.
Qed.

(** C4, as the code has it.  [make_sub_operators(geo, K)] returns exactly
    [K] operators, the [i]-th built from [angles[i:-1:K]]: the angles at the
    indices [i], [i+K], [i+2K], ... below [len(angles) - 1].  For 360 angles
    and [K = 4] the four operators cover 90, 90, 90 and 89 angles. *)
Theorem make_sub_operators_spec (geo : Geometry Other) (K : nat) :
  let ops := fst (make_sub_operators Other Operator make_operator geo K) in
  length ops = K /\
  ops = map (sub_operator geo K) (seq 0 K) /\
  (forall i idx, i < K ->
     (In idx (slice_indices (length (angles geo)) (Z.of_nat i) (-1) K)
      <-> i <= idx /\ idx + 1 < length (angles geo) /\ (idx - i) mod K = 0)) /\
  (length (angles geo) = 360 -> K = 4 ->
   map (fun i => length (py_slice (angles geo) (Z.of_nat i) (-1) K)) (seq 0 K)
   = [90; 90; 90; 89]).
Proof.
  unfold make_sub_operators. rewrite sub_operators_loop_spec. cbn [fst].
  split; [now rewrite length_map, length_seq|].
  split; [reflexivity|].
  split.
  - intros i idx Hi. apply in_slice_indices_to_last. lia.
  - intros HL HK. subst K. cbn [seq map].
    rewrite !length_py_slice_to_last by lia. rewrite HL. reflexivity.
Qed.

End WithOperator.

Lemma make_sub_operators_spec_witness :
  length (angles Examples.geo360) = 360 /\ 4 = 4 /\
  map (fun i => length (py_slice (angles Examples.geo360) (Z.of_nat i) (-1) 4)) (seq 0 4)
  = [90; 90; 90; 89].
Proof.
  split; [reflexivity|]. split; [reflexivity|].
  exact (proj2 (proj2 (proj2
    (make_sub_operators_spec unit Examples.recorded_operator Examples.record_geometry
       Examples.geo360 4))) eq_refl eq_refl).
Defined.

(** The claim as written fails: of the four operators built for 360 angles,
    the last one covers 89 angles, not 90. *)
Lemma make_sub_operators_360_not_all_90 :
  ~ Forall (fun op => length (angles op) = 90)
      (fst (make_sub_operators unit Examples.recorded_operator Examples.record_geometry
              Examples.geo360 4)).
Proof.
  intros HF. rewrite Forall_forall in HF.
  specialize (HF (set_angles Examples.geo360
                    (py_slice (angles Examples.geo360) 3 (-1) 4))).
  assert (Hin : In (set_angles Examples.geo360 (py_slice (angles Examples.geo360) 3 (-1) 4))
                   (fst (make_sub_operators unit Examples.recorded_operator
                           Examples.record_geometry Examples.geo360 4))).
  { unfold make_sub_operators. rewrite sub_operators_loop_spec. cbn [fst seq map].
    right; right; right; left. reflexivity. }
  specialize (HF Hin). cbn [angles set_angles] in HF.
  rewrite (length_py_slice_to_last _ 3 4) in HF by lia.
  vm_compute in HF. discriminate.
Qed.

Lemma make_sub_operators_overwrites_angles_witness :
  0 < 4 /\ angles Examples.geo360 <> [] /\
  length (angles (snd (make_sub_operators unit Examples.recorded_operator
                         Examples.record_geometry Examples.geo360 4))) < 360.
Proof.
  assert (H4 : 0 < 4) by lia.
  assert (Hne : angles Examples.geo360 <> []) by (vm_compute; discriminate).
  split; [exact H4|]. split; [exact Hne|].
  exact (proj1 (proj2 (make_sub_operators_overwrites_angles unit Examples.recorded_operator
                         Examples.record_geometry Examples.geo360 4 H4 Hne))).
Defined.

End SubOperators.

(* ================================================================== *)
(** ** [mini_batch_step] *)
(* ================================================================== *)

Module MiniBatch.
Import Noise2Inverse SliceFacts StackSpec.

(** *** [torch.mean(..., axis=0)], entry by entry *)

Lemma shape3b_shape3 (C H W : nat) (z : fmaps) : shape3b C H W z = true -> shape3 C H W z.
Proof.
  unfold shape3b, shape3. rewrite andb_true_iff, Nat.eqb_eq, forallb_forall, Forall_forall.
  intros [HL HR]; split; [assumption|].
  intros im Hin. apply TensorFacts.rectb_rect. now apply HR.
Qed.

(** A stack of shape [C, H, W] is the table of its entries. *)
Lemma shape3_tabulate3 (C H W : nat) (z : fmaps) :
  shape3 C H W z ->
  z = tabulate3 C H W (fun c i j => px3 z c (Z.of_nat i) (Z.of_nat j)).
Proof.
  intros [HL HR]. subst C.
  apply (nth_ext _ _ [] []).
  - unfold tabulate3. now rewrite length_map, length_seq.
  - intros c Hc. rewrite TensorFacts.nth_tabulate3.
    destruct (Nat.ltb_spec c (length z)) as [_|Hge];
      [|exfalso; exact (Nat.lt_irrefl _ (Nat.lt_le_trans _ _ _ Hc Hge))].
    unfold px3. apply TensorFacts.rect_tabulate.
    rewrite Forall_forall in HR. apply HR. now apply nth_In.
Qed.

Lemma shape3_of_tabulate3 (C H W : nat) (f : nat -> nat -> nat -> Q) :
  shape3 C H W (tabulate3 C H W f).
Proof.
  unfold shape3, tabulate3. split; [now rewrite length_map, length_seq|].
  apply Forall_forall. intros im Hin. apply in_map_iff in Hin. destruct Hin as (c & <- & _).
  unfold rect, tabulate. split; [now rewrite length_map, length_seq|].
  apply Forall_forall. intros row Hin. apply in_map_iff in Hin. destruct Hin as (i & <- & _).
  now rewrite length_map, length_seq.
Qed.

(** The element-wise sum of two stacks of one shape has that shape, and its
    entries are the sums of theirs (outside the stack all three read 0). *)
Lemma zip3d_plus_shape3 (C H W : nat) (a b : fmaps) :
  shape3 C H W a -> shape3 C H W b ->
  shape3 C H W (zip3d Qplus a b) /\
  forall c i j, px3 (zip3d Qplus a b) c i j == px3 a c i j + px3 b c i j.
Proof.
  intros Ha Hb.
  rewrite (shape3_tabulate3 C H W a Ha), (shape3_tabulate3 C H W b Hb).
  rewrite TensorFacts.zip3d_tabulate3. split; [apply shape3_of_tabulate3|].
  intros c i j. rewrite !TensorFacts.px3_tabulate3.
  destruct ((c <? C)%nat && (0 <=? i)%Z && (i <? Z.of_nat H)%Z && (0 <=? j)%Z
            && (j <? Z.of_nat W)%Z); [reflexivity|lra].
Qed.

Lemma fold_left_zip3d_plus (C H W : nat) (rest : list fmaps) (a : fmaps) :
  shape3 C H W a -> Forall (shape3 C H W) rest ->
  shape3 C H W (fold_left (zip3d Qplus) rest a) /\
  forall c i j,
    px3 (fold_left (zip3d Qplus) rest a) c i j
    == px3 a c i j + sumQ (map (fun t => px3 t c i j) rest).
Proof.
  revert a; induction rest as [|t rest IH]; intros a Ha Hr; simpl.
  - split; [assumption|]. intros c i j. lra.
  - inversion Hr as [|t' rest' Ht Hrest]; subst.
    destruct (zip3d_plus_shape3 C H W a t Ha Ht) as [Hz Ez].
    destruct (IH _ Hz Hrest) as [Hf Ef].
    split; [assumption|]. intros c i j. rewrite Ef, Ez. lra.
Qed.

(** Scaling a stack entry by entry. *)
Lemma map3d_scale_shape3 (C H W : nat) (q : Q) (a : fmaps) :
  shape3 C H W a ->
  shape3 C H W (map3d (fun v => v / q) a) /\
  forall c i j, px3 (map3d (fun v => v / q) a) c i j == px3 a c i j / q.
Proof.
  intros Ha. rewrite (shape3_tabulate3 C H W a Ha).
  rewrite TensorFacts.map3d_tabulate3. split; [apply shape3_of_tabulate3|].
  intros c i j. rewrite !TensorFacts.px3_tabulate3.
  destruct ((c <? C)%nat && (0 <=? i)%Z && (i <? Z.of_nat H)%Z && (0 <=? j)%Z
            && (j <? Z.of_nat W)%Z); [reflexivity|].
  unfold Qdiv. ring.
Qed.

(** The mean of a non-empty stack of tensors of shape [C, H, W] has that
    shape, and each of its entries is the sum of the entries at that position
    divided by the number of tensors. *)
Lemma mean_axis0_entry (C H W : nat) (ts : list fmaps) :
  ts <> [] -> Forall (shape3 C H W) ts ->
  shape3 C H W (mean_axis0 ts) /\
  forall c i j, px3 (mean_axis0 ts) c i j == entry_mean ts c i j.
Proof.
  intros Hne Hs. destruct ts as [|t rest]; [congruence|].
  inversion Hs as [|t' rest' Ht Hrest]; subst.
  unfold mean_axis0, entry_mean.
  destruct (fold_left_zip3d_plus C H W rest t Ht Hrest) as [Hf Ef].
  destruct (map3d_scale_shape3 C H W (inject_Z (Z.of_nat (length (t :: rest)))) _ Hf)
    as [Hm Em].
  split; [assumption|]. intros c i j. rewrite Em, Ef. reflexivity.
Qed.

Local Open Scope nat_scope.

Section WithSolver.

Variable Operator : Type.
Variable recon_fn : Operator -> image -> fmaps.
Variable Weights : Type.
Variable model : Weights -> batch -> batch.
Variable loss_fn : batch -> batch -> Q.
Variable optimizer_update : Weights -> batch -> batch -> Weights.
Variable Rng : Type.
Variable next_raw : Rng -> nat * Rng.

Variable self : Noise2Inverse_solver Operator.

Let K := sino_splits Operator self.

Lemma randint_in_range (g : Rng) :
  0 < K ->
  exists label g', randint Rng next_raw K g = inr (label, g') /\ label < K.
Proof.
  intros HK. unfold randint. destruct K as [|k] eqn:EK; [lia|].
  destruct (next_raw g) as [r g']. exists (r mod S k), g'. split; [reflexivity|].
  apply Nat.mod_upper_bound. lia.
Qed.

Lemma sample_sub_recons_total (sample : fmaps) (n split : nat) :
  split + n <= length (sub_op Operator self) ->
  exists rs, sample_sub_recons Operator recon_fn self sample n split = inr rs.
Proof.
  revert split; induction n as [|n IH]; intros split Hle; simpl.
  - now exists [].
  - destruct (nth_error (sub_op Operator self) split) as [op|] eqn:E.
    + destruct (IH (S split)) as [rs Ers]; [lia|]. rewrite Ers. eauto.
    + apply nth_error_None in E. lia.
Qed.

Lemma compute_noisy_sub_recon_total (data target : batch) :
  length (sub_op Operator self) = K ->
  exists bad_recon,
    compute_noisy_sub_recon Operator recon_fn self data target = inr bad_recon.
Proof.
  intros HL. unfold compute_noisy_sub_recon.
  assert (HB : exists rows, batch_sub_recons Operator recon_fn self data = inr rows).
  { induction data as [|sample data IH]; simpl.
    - now exists [].
    - destruct (sample_sub_recons_total sample (sino_splits Operator self) 0) as [rs Ers].
      + fold K. lia.
      + rewrite Ers. destruct IH as [rows Erows]. rewrite Erows. eauto. }
  destruct HB as [rows Erows]. rewrite Erows. eauto.
Qed.

(** What the loop over the sinograms leaves in [random_target] and
    [label_array]. *)
Lemma choose_targets_spec (bad_recon : list (list fmaps)) (n sino : nat) (g : Rng) :
  0 < K ->
  exists random_target label_array g',
    choose_targets Operator Rng next_raw self bad_recon n sino g
    = inr (random_target, label_array, g') /\
    length random_target = n /\ length label_array = n /\
    forall k, k < n ->
      exists label, label < K /\
        nth k random_target [] = at2 bad_recon label (sino + k) /\
        nth k label_array []
        = mean_axis0 (map (fun i => at2 bad_recon i (sino + k))
                          (np_delete (arange K) label)).
Proof.
  intros HK. revert sino g; induction n as [|n IH]; intros sino g; simpl.
  - exists [], [], g. repeat split; try reflexivity. intros k Hk; lia.
  - destruct (randint_in_range g HK) as (label & g1 & Er & Hl).
    fold K. rewrite Er.
    destruct (IH (S sino) g1) as (rt & la & g2 & Ec & Lrt & Lla & Hall).
    rewrite Ec. eexists _, _, _. split; [reflexivity|].
    split; [simpl; now rewrite Lrt|]. split; [simpl; now rewrite Lla|].
    intros [|k] Hk.
    + exists label. rewrite Nat.add_0_r. split; [assumption|]. split; reflexivity.
    + destruct (Hall k ltac:(lia)) as (lab & Hlab & E1 & E2).
      exists lab. replace (sino + S k) with (S sino + k) by lia.
      repeat split; assumption.
Qed.

(** C3.  A call of [mini_batch_step] on a solver with [K >= 2] splits (and its
    [K] sub-operators), whose sub-reconstructions all have the shape
    [C, H, W] of a sample, returns, and for every sinogram of the batch there
    is a split [label] such that [random_target] holds that split's
    reconstruction while [label_array] holds the mean of the reconstructions
    of exactly the other [K - 1] splits: it has the shape [C, H, W], each of
    its entries is the sum of the entries of these [K - 1] reconstructions at
    that position divided by [K - 1], [label] is not among the averaged
    indices, and the value of the average does not depend on the
    reconstruction of split [label].  (With [K = 1] there is no other split to
    average, and torch's mean of the empty stack is not a number.) *)
Theorem mini_batch_step_excludes_target (w : Weights) (g : Rng) (data target : batch)
    (C H W : nat) :
  1 < K -> length (sub_op Operator self) = K ->
  (forall bad_recon,
     compute_noisy_sub_recon Operator recon_fn self data target = inr bad_recon ->
     forall split sino, split < K -> sino < length data ->
       shape3 C H W (at2 bad_recon split sino)) ->
  exists bad_recon random_target label_array g',
    compute_noisy_sub_recon Operator recon_fn self data target = inr bad_recon /\
    mini_batch_step Operator recon_fn Weights model loss_fn optimizer_update Rng next_raw
      self w g data target
    = inr (loss_fn (model w label_array) random_target,
           optimizer_update w label_array random_target, g') /\
    length random_target = length data /\ length label_array = length data /\
    forall sino, sino < length data ->
      exists label, label < K /\
        let others := np_delete (arange K) label in
        nth sino random_target [] = at2 bad_recon label sino /\
        nth sino label_array []
        = mean_axis0 (map (fun i => at2 bad_recon i sino) others) /\
        shape3 C H W (nth sino label_array []) /\
        (forall c i j,
           (px3 (nth sino label_array []) c i j
            == sumQ (map (fun split => px3 (at2 bad_recon split sino) c i j) others)
               / inject_Z (Z.of_nat (K - 1)))%Q) /\
        ~ In label others /\ length others = K - 1 /\
        (forall i, In i others <-> i < K /\ i <> label) /\
        (forall other_recon : list (list fmaps),
           (forall i, i <> label -> at2 other_recon i sino = at2 bad_recon i sino) ->
           mean_axis0 (map (fun i => at2 other_recon i sino) others)
           = nth sino label_array []).
Proof.
  intros HK HL Hshape.
  destruct (compute_noisy_sub_recon_total data target HL) as [bad_recon Eb].
  destruct (choose_targets_spec bad_recon (length data) 0 g ltac:(lia))
    as (rt & la & g' & Ec & Lrt & Lla & Hall).
  exists bad_recon, rt, la, g'. unfold mini_batch_step. rewrite Eb, Ec.
  repeat split; try assumption.
  intros sino Hs. destruct (Hall sino Hs) as (label & Hlab & E1 & E2).
  simpl in E1, E2.
  exists label. split; [assumption|]. cbv zeta.
  pose proof (length_np_delete_arange K label Hlab) as Lo.
  assert (Hmean : shape3 C H W (nth sino la []) /\
                  forall c i j,
                    (px3 (nth sino la []) c i j
                     == entry_mean (map (fun i => at2 bad_recon i sino)
                                        (np_delete (arange K) label)) c i j)%Q).
  { rewrite E2. apply mean_axis0_entry.
    - intros E. apply (f_equal (@length _)) in E. rewrite length_map, Lo in E.
      simpl in E. lia.
    - apply Forall_forall. intros t Hin. apply in_map_iff in Hin.
      destruct Hin as (i & <- & Hi). apply in_np_delete_arange in Hi; [|assumption].
      apply (Hshape bad_recon Eb); [lia|assumption]. }
  destruct Hmean as [Hsh Hent].
  split; [assumption|]. split; [assumption|]. split; [exact Hsh|].
  split.
  { intros c i j. rewrite Hent. unfold entry_mean.
    rewrite map_map, length_map, Lo. reflexivity. }
  split; [rewrite in_np_delete_arange by assumption; lia|].
  split; [exact Lo|].
  split; [intros i; now apply in_np_delete_arange|].
  intros other_recon Hsame. rewrite E2. f_equal.
  apply map_ext_in. intros i Hi. apply in_np_delete_arange in Hi; [|assumption].
  apply Hsame. lia.
Qed.

End WithSolver.

(** On [solver3] every sub-reconstruction of the two sinograms is one plane of
    2 x 2 entries. *)
Lemma solver3_sub_recon_shapes (bad_recon : list (list fmaps)) :
  compute_noisy_sub_recon Examples.recorded_operator Examples.shift_recon Examples.solver3
    Examples.sinograms Examples.clean_images = inr bad_recon ->
  forall split sino, split < 3 -> sino < length Examples.sinograms ->
    shape3 1 2 2 (at2 bad_recon split sino).
Proof.
  intros E. vm_compute in E. inversion E; subst bad_recon; clear E.
  intros split sino Hsplit Hsino. apply shape3b_shape3.
  destruct split as [|[|[|split]]]; [| | |lia];
    (destruct sino as [|[|sino]]; [| |simpl in Hsino; lia]); reflexivity.
Defined.

Lemma mini_batch_step_excludes_target_witness :
  1 < 3 /\ length (sub_op _ Examples.solver3) = 3 /\
  (forall bad_recon,
     compute_noisy_sub_recon Examples.recorded_operator Examples.shift_recon
       Examples.solver3 Examples.sinograms Examples.clean_images = inr bad_recon ->
     forall split sino, split < 3 -> sino < length Examples.sinograms ->
       shape3 1 2 2 (at2 bad_recon split sino)) /\
  exists loss g',
    mini_batch_step Examples.recorded_operator Examples.shift_recon unit
      Examples.identity_model Examples.squared_error Examples.keep_weights nat
      Examples.counter Examples.solver3 tt 4 Examples.sinograms Examples.clean_images
    = inr (loss, tt, g').
Proof.
  assert (H3 : 1 < 3) by lia.
  assert (HL : length (sub_op _ Examples.solver3) = 3) by reflexivity.
  split; [exact H3|]. split; [exact HL|]. split; [exact solver3_sub_recon_shapes|].
  destruct (mini_batch_step_excludes_target Examples.recorded_operator Examples.shift_recon
              unit Examples.identity_model Examples.squared_error Examples.keep_weights nat
              Examples.counter Examples.solver3 tt 4 Examples.sinograms
              Examples.clean_images 1 2 2 H3 HL solver3_sub_recon_shapes)
    as (bad & rt & la & g' & _ & E & _).
  exists (Examples.squared_error (Examples.identity_model tt la) rt), g'.
  exact E.
Defined.

End MiniBatch.

(* ================================================================== *)
(** ** [ACR.reconstruction] *)
(* ================================================================== *)

Module Reconstruction.
Import ACR ACRSpec.

Lemma Qlt_bool_iff (x y : Q) : Qlt_bool x y = true <-> x < y.
Proof.
  unfold Qlt_bool. rewrite negb_true_iff. split.
  - intros E. apply Qnot_le_lt. intros Hle. apply Qle_bool_iff in Hle. congruence.
  - intros Hlt. destruct (Qle_bool y x) eqn:E; [|reflexivity].
    apply Qle_bool_iff in E. exfalso. exact (Qlt_not_le _ _ Hlt E).
Qed.

Section Loop.

Variable gradient : (batch -> Q) -> batch -> batch.
Variable self : ACR.
Variable attrs : Attributes.
Variable y_0 : batch.

Let iteration := iteration gradient self attrs y_0.
Let for_loop := for_loop gradient self attrs y_0.
Let state_at := state_at gradient self attrs y_0.
Let iterates_from := iterates_from gradient self attrs y_0.

(** The state the loop starts from, when the optimizer has been built. *)
Let start : loop_state :=
  {| x_0 := fbp_op_mod attrs y_0; x_0_grad := None; momentum_buffer := None;
     prevpsn := 0; curpsn := 0 |}.

(** The optimizer is built exactly when neither the step size nor the
    momentum is negative. *)
Lemma SGD_init_ok :
  0 <= param_var_step attrs -> 0 <= param_var_momentum attrs -> SGD_init attrs = inr tt.
Proof.
  intros Hs Hm. unfold SGD_init.
  destruct (Qlt_bool (param_var_step attrs) 0) eqn:Es.
  - apply Qlt_bool_iff in Es. exfalso. exact (Qlt_not_le _ _ Es Hs).
  - destruct (Qlt_bool (param_var_momentum attrs) 0) eqn:Em; [|reflexivity].
    apply Qlt_bool_iff in Em. exfalso. exact (Qlt_not_le _ _ Em Hm).
Qed.

Lemma SGD_init_inv (u : unit) :
  SGD_init attrs = inr u -> 0 <= param_var_step attrs /\ 0 <= param_var_momentum attrs.
Proof.
  unfold SGD_init.
  destruct (Qlt_bool (param_var_step attrs) 0) eqn:Es; [discriminate|].
  destruct (Qlt_bool (param_var_momentum attrs) 0) eqn:Em; [discriminate|].
  intros _. split; apply Qnot_lt_le; intros Hlt; apply Qlt_bool_iff in Hlt; congruence.
Qed.

Lemma SGD_init_negative_step :
  param_var_step attrs < 0 -> SGD_init attrs = inl (ValueError "Invalid learning rate").
Proof.
  intros Hlt. unfold SGD_init. apply Qlt_bool_iff in Hlt. now rewrite Hlt.
Qed.

Lemma SGD_init_negative_momentum :
  0 <= param_var_step attrs -> param_var_momentum attrs < 0 ->
  SGD_init attrs = inl (ValueError "Invalid momentum value").
Proof.
  intros Hs Hlt. unfold SGD_init.
  destruct (Qlt_bool (param_var_step attrs) 0) eqn:Es.
  - apply Qlt_bool_iff in Es. exfalso. exact (Qlt_not_le _ _ Es Hs).
  - apply Qlt_bool_iff in Hlt. now rewrite Hlt.
Qed.

Lemma initial_state_ok :
  0 <= param_var_step attrs -> 0 <= param_var_momentum attrs ->
  initial_state attrs y_0 = inr start.
Proof.
  intros Hs Hm. unfold initial_state. now rewrite (SGD_init_ok Hs Hm).
Qed.

Lemma initial_state_inv (s : loop_state) :
  initial_state attrs y_0 = inr s ->
  s = start /\ 0 <= param_var_step attrs /\ 0 <= param_var_momentum attrs.
Proof.
  unfold initial_state. destruct (SGD_init attrs) as [e|u] eqn:E; [discriminate|].
  intros Es; inversion Es; subst. split; [reflexivity|]. exact (SGD_init_inv u E).
Qed.

Lemma state_at_zero (x_t : option batch) (s : loop_state) :
  state_at x_t 0 = Some s ->
  s = start /\ 0 <= param_var_step attrs /\ 0 <= param_var_momentum attrs.
Proof.
  unfold state_at. simpl. destruct (initial_state attrs y_0) as [e|s0] eqn:E; [discriminate|].
  intros Es; inversion Es; subst. now apply initial_state_inv.
Qed.

(** A round is reached only if the optimizer has been built. *)
Lemma state_at_built (x_t : option batch) (j : nat) (s : loop_state) :
  state_at x_t j = Some s ->
  0 <= param_var_step attrs /\ 0 <= param_var_momentum attrs.
Proof.
  revert s; induction j as [|j IH]; intros s.
  - intros Hs. now apply state_at_zero in Hs.
  - unfold state_at in *. simpl.
    destruct (ACR.state_at gradient self attrs y_0 x_t j) as [s0|]; [|discriminate].
    intros _. exact (IH s0 eq_refl).
Qed.

(** The early-stop branch: the round returns the estimate it started
    with. *)
Lemma iteration_stops (xt : batch) (s : loop_state) :
  params_earlystop attrs = true ->
  psnr attrs (x_0 s) xt < curpsn s ->
  iteration (Some xt) s = inr (x_0 s).
Proof.
  intros He Hlt. unfold iteration, ACR.iteration. rewrite He.
  apply Qlt_bool_iff in Hlt. rewrite Hlt. reflexivity.
Qed.

(** A round that does not return: what it leaves in the state. *)
Lemma iteration_continues (x_t : option batch) (s s' : loop_state) :
  iteration x_t s = inl s' ->
  let g := zip4d Qplus (backward gradient self (x_0 s) (x_0_grad s))
                       (data_gradient attrs y_0 (x_0 s)) in
  x_0_grad s' = Some g /\
  (x_0 s', momentum_buffer s') = SGD_step attrs (x_0 s) g (momentum_buffer s) /\
  match x_t with
  | Some xt =>
    curpsn s' = psnr attrs (x_0 s) xt /\ prevpsn s' = curpsn s /\
    (params_earlystop attrs = true -> curpsn s <= psnr attrs (x_0 s) xt)
  | None => curpsn s' = curpsn s /\ prevpsn s' = prevpsn s
  end.
Proof.
  unfold iteration, ACR.iteration, data_gradient.
  destruct x_t as [xt|].
  - destruct (params_earlystop attrs && Qlt_bool (psnr attrs (x_0 s) xt) (curpsn s)) eqn:Estop;
      [discriminate|].
    destruct (SGD_step attrs (x_0 s) _ (momentum_buffer s)) as [x' buf'] eqn:Estep.
    intros E; inversion E; subst; clear E. cbn [x_0 x_0_grad momentum_buffer curpsn prevpsn].
    repeat split; try reflexivity; try (symmetry; exact Estep).
    intros He. rewrite He in Estop. simpl in Estop.
    apply Qnot_lt_le. intros Hlt. apply Qlt_bool_iff in Hlt. congruence.
  - destruct (SGD_step attrs (x_0 s) _ (momentum_buffer s)) as [x' buf'] eqn:Estep.
    intros E; inversion E; subst; clear E. cbn [x_0 x_0_grad momentum_buffer curpsn prevpsn].
    repeat split; try reflexivity; try (symmetry; exact Estep).
Qed.

(** Once the loop has reached round [j] in state [s], the rest of the run is
    the loop started from [s]. *)
Lemma for_loop_from (x_t : option batch) (j n : nat) (s : loop_state) :
  state_at x_t j = Some s ->
  for_loop x_t (j + n) start = for_loop x_t n s.
Proof.
  revert n s; induction j as [|j IH]; intros n s.
  - intros E. apply state_at_zero in E. destruct E as (-> & _). reflexivity.
  - unfold state_at in *. simpl.
    destruct (ACR.state_at gradient self attrs y_0 x_t j) as [s0|] eqn:E0; [|discriminate].
    destruct (ACR.iteration gradient self attrs y_0 x_t s0) as [s1|r] eqn:E1; [|discriminate].
    intros E; inversion E; subst; clear E.
    replace (S (j + n)) with (j + S n)%nat by lia.
    rewrite (IH (S n) s0 eq_refl). unfold for_loop. simpl. now rewrite E1.
Qed.

Lemma state_at_step (x_t : option batch) (j : nat) (s' : loop_state) :
  state_at x_t (S j) = Some s' ->
  exists s, state_at x_t j = Some s /\ iteration x_t s = inl s'.
Proof.
  unfold state_at, iteration. simpl.
  destruct (ACR.state_at gradient self attrs y_0 x_t j) as [s0|]; [|discriminate].
  destruct (ACR.iteration gradient self attrs y_0 x_t s0) as [s1|r] eqn:E1; [|discriminate].
  intros E; inversion E; subst. eauto.
Qed.

Lemma iterates_from_nonempty (x_t : option batch) (n : nat) (s : loop_state) :
  iterates_from x_t n s <> [].
Proof.
  unfold iterates_from. destruct n; simpl; [discriminate|].
  destruct (ACR.iteration gradient self attrs y_0 x_t s); discriminate.
Qed.

Lemma last_iterates_from (x_t : option batch) (n : nat) (s : loop_state) :
  last (iterates_from x_t n s) [] = for_loop x_t n s.
Proof.
  revert s; induction n as [|n IH]; intros s; [reflexivity|].
  unfold iterates_from, for_loop in *. simpl.
  destruct (ACR.iteration gradient self attrs y_0 x_t s) as [s'|r]; [|reflexivity].
  rewrite <- IH.
  pose proof (iterates_from_nonempty x_t n s') as Hne. unfold iterates_from in Hne.
  destruct (ACR.iterates_from gradient self attrs y_0 x_t n s'); [congruence|reflexivity].
Qed.

(** The metric along the estimates the loop has left behind. *)
Lemma iterates_from_nondecreasing (xt : batch) (n : nat) (s : loop_state) :
  params_earlystop attrs = true ->
  nondecreasing_from (curpsn s)
    (map (fun x => psnr attrs x xt) (removelast (iterates_from (Some xt) n s))).
Proof.
  intros He. revert s; induction n as [|n IH]; intros s; [exact I|].
  unfold iterates_from in *. simpl.
  destruct (ACR.iteration gradient self attrs y_0 (Some xt) s) as [s'|r] eqn:E; [|exact I].
  pose proof (iterates_from_nonempty (Some xt) n s') as Hne. unfold iterates_from in Hne.
  specialize (IH s').
  destruct (ACR.iterates_from gradient self attrs y_0 (Some xt) n s') as [|x l] eqn:El;
    [congruence|].
  apply iteration_continues in E. destruct E as (_ & _ & Ecur & _ & Hle).
  cbn [map]. split; [now apply Hle|].
  rewrite <- Ecur. exact IH.
Qed.

End Loop.

Section Claims.

Variable gradient : (batch -> Q) -> batch -> batch.
Variable self : ACR.
Variable attrs : Attributes.
Variable y_0 : batch.

Let reconstruction := reconstruction gradient self attrs y_0.
Let state_at := state_at gradient self attrs y_0.
Let iterates_performed := iterates_performed gradient self attrs y_0.
Let gradient_sum := gradient_sum gradient self attrs y_0.

(** C5.  With [iterates = 0], and a step size and a momentum that the
    optimizer accepts (neither is negative), [reconstruction(y_0, x_t)] (for
    [x_t = None] and for any other [x_t]) returns the filtered backprojection
    of [y_0] unchanged, and goes through no other estimate. *)
Theorem reconstruction_zero_iterates (x_t : option batch) :
  args_iterates attrs = 0%nat ->
  0 <= param_var_step attrs ->
  0 <= param_var_momentum attrs ->
  reconstruction x_t = inr (fbp_op_mod attrs y_0, S (cntr attrs)) /\
  reconstruction None = inr (fbp_op_mod attrs y_0, S (cntr attrs)) /\
  iterates_performed x_t = [fbp_op_mod attrs y_0].
Proof.
  intros E Hs Hm. unfold reconstruction, iterates_performed, ACR.reconstruction,
    ACR.iterates_performed.
  rewrite (initial_state_ok attrs y_0 Hs Hm), E. repeat split.
Qed.

(** With a negative step size, or a negative momentum, the optimizer refuses
    its arguments and [reconstruction] raises, whatever [iterates] is; the
    counter is not incremented and no estimate is produced. *)
Lemma reconstruction_refuses_negative_step (x_t : option batch) :
  param_var_step attrs < 0 ->
  reconstruction x_t = inl (ValueError "Invalid learning rate") /\
  iterates_performed x_t = [] /\
  forall j, state_at x_t j = None.
Proof.
  intros Hlt.
  assert (E : initial_state attrs y_0 = inl (ValueError "Invalid learning rate")).
  { unfold initial_state. now rewrite (SGD_init_negative_step attrs Hlt). }
  unfold reconstruction, iterates_performed, ACR.reconstruction, ACR.iterates_performed.
  rewrite E. repeat split.
  intros j. destruct (state_at x_t j) as [s|] eqn:Es; [|reflexivity].
  apply (state_at_built gradient self attrs y_0) in Es. destruct Es as (Hs & _).
  exfalso. exact (Qlt_not_le _ _ Hlt Hs).
Qed.

Lemma reconstruction_refuses_negative_momentum (x_t : option batch) :
  0 <= param_var_step attrs ->
  param_var_momentum attrs < 0 ->
  reconstruction x_t = inl (ValueError "Invalid momentum value").
Proof.
  intros Hs Hlt. unfold reconstruction, ACR.reconstruction, initial_state.
  now rewrite (SGD_init_negative_momentum attrs Hs Hlt).
Qed.

(** C6.  With a reference image and early stopping enabled: if the loop
    reaches round [j] (so the optimizer has been built) with an estimate whose
    metric is below the one recorded in the round before, [reconstruction]
    returns this very estimate (the one after the decrease), and no further
    round is run; for [j >= 1] the value it is compared with is the metric of
    the previous estimate, so the returned estimate is not the previous,
    better one. *)
Theorem early_stop_returns_current_estimate (xt : batch) (j : nat) (s : loop_state) :
  params_earlystop attrs = true ->
  (j < args_iterates attrs)%nat ->
  state_at (Some xt) j = Some s ->
  psnr attrs (x_0 s) xt < curpsn s ->
  reconstruction (Some xt) = inr (x_0 s, S (cntr attrs)) /\
  state_at (Some xt) (S j) = None /\
  forall j' s', j = S j' -> state_at (Some xt) j' = Some s' ->
    curpsn s = psnr attrs (x_0 s') xt /\
    psnr attrs (x_0 s) xt < psnr attrs (x_0 s') xt /\
    x_0 s <> x_0 s'.
Proof.
  intros He Hj Hs Hlt.
  pose proof (iteration_stops gradient self attrs y_0 xt s He Hlt) as Estop.
  destruct (state_at_built gradient self attrs y_0 (Some xt) j s Hs) as (Hstep & Hmom).
  assert (Eres : reconstruction (Some xt) = inr (x_0 s, S (cntr attrs))).
  { unfold reconstruction, ACR.reconstruction.
    rewrite (initial_state_ok attrs y_0 Hstep Hmom).
    replace (args_iterates attrs) with (j + S (args_iterates attrs - S j))%nat by lia.
    rewrite (for_loop_from gradient self attrs y_0 (Some xt) j _ s Hs).
    simpl. now rewrite Estop. }
  split; [exact Eres|]. split.
  - unfold state_at in *. simpl. rewrite Hs, Estop. reflexivity.
  - intros j' s' -> Hs'.
    destruct (state_at_step gradient self attrs y_0 (Some xt) j' s Hs) as (s0 & Hs0 & Eit).
    unfold state_at in Hs'. rewrite Hs' in Hs0. inversion Hs0; subst s0.
    apply iteration_continues in Eit. destruct Eit as (_ & _ & Ecur & _).
    rewrite Ecur in Hlt. repeat split; try assumption.
    intros Eq. rewrite Eq in Hlt. exact (Qlt_irrefl _ Hlt).
Qed.

(** C7, as the code has it.  With a reference image and early stopping
    enabled, the metric is non-decreasing (and at least 0) along the estimates
    that precede the returned one; the returned estimate, the last of the
    sequence, is not covered.  (The call returns when the optimizer accepts
    the step size and the momentum; otherwise it raises before the first
    estimate, and the sequence is empty.) *)
Theorem early_stop_monotone_before_return (xt : batch) :
  params_earlystop attrs = true ->
  nondecreasing_from 0
    (map (fun x => psnr attrs x xt) (removelast (iterates_performed (Some xt)))) /\
  (0 <= param_var_step attrs -> 0 <= param_var_momentum attrs ->
   iterates_performed (Some xt) <> [] /\
   reconstruction (Some xt)
   = inr (last (iterates_performed (Some xt)) [], S (cntr attrs))).
Proof.
  intros He.
  unfold reconstruction, iterates_performed, ACR.reconstruction, ACR.iterates_performed.
  split.
  - destruct (initial_state attrs y_0) as [e|s] eqn:E; [exact I|].
    apply (initial_state_inv attrs y_0) in E. destruct E as (-> & _).
    exact (iterates_from_nondecreasing gradient self attrs y_0 xt (args_iterates attrs)
             _ He).
  - intros Hs Hm. rewrite (initial_state_ok attrs y_0 Hs Hm). split.
    + apply iterates_from_nonempty.
    + now rewrite (last_iterates_from gradient self attrs y_0).
Qed.

Lemma gradient_buffer_at (x_t : option batch) (j : nat) (s' : loop_state) :
  state_at x_t (S j) = Some s' -> x_0_grad s' = Some (gradient_sum x_t j).
Proof.
  revert s'; induction j as [|j IH]; intros s' Hs';
    destruct (state_at_step gradient self attrs y_0 x_t _ s' Hs') as (s & Hs & Eit);
    apply iteration_continues in Eit; destruct Eit as (Eg & _).
  - rewrite Eg. pose proof Hs as Hs0.
    apply (state_at_zero gradient self attrs y_0) in Hs0. destruct Hs0 as (E0 & _).
    unfold gradient_sum. simpl. unfold ACRSpec.estimate_at.
    unfold state_at in Hs. rewrite Hs. rewrite E0. reflexivity.
  - rewrite Eg, (IH s Hs). unfold gradient_sum. simpl.
    unfold ACRSpec.estimate_at. unfold state_at in Hs. now rewrite Hs.
Qed.

(** C8.  The gradient buffer of [x_0] is never cleared: when round [j] has
    run (which takes an optimizer built with a step size and a momentum that
    are not negative), the buffer holds the sum of the regulariser gradients
    and the data-term gradients of all rounds [0 .. j], and it is this sum
    that the SGD step of round [j] was taken with; from round 1 on the buffer
    is the buffer of the round before plus the two gradients of the round. *)
Theorem gradient_buffer_accumulates (x_t : option batch) (j : nat) (s s' : loop_state) :
  state_at x_t j = Some s ->
  state_at x_t (S j) = Some s' ->
  (0 <= param_var_step attrs /\ 0 <= param_var_momentum attrs) /\
  x_0_grad s' = Some (gradient_sum x_t j) /\
  (x_0 s', momentum_buffer s') = SGD_step attrs (x_0 s) (gradient_sum x_t j) (momentum_buffer s) /\
  forall j', j = S j' ->
    x_0_grad s = Some (gradient_sum x_t j') /\
    gradient_sum x_t j
    = zip4d Qplus (zip4d Qplus (gradient_sum x_t j') (gradient (lossm self) (x_0 s)))
        (data_gradient attrs y_0 (x_0 s)).
Proof.
  intros Hs Hs'.
  pose proof (gradient_buffer_at x_t j s' Hs') as Eg.
  destruct (state_at_step gradient self attrs y_0 x_t j s' Hs') as (s0 & Hs0 & Eit).
  unfold state_at in Hs. rewrite Hs in Hs0. inversion Hs0; subst s0.
  apply iteration_continues in Eit. destruct Eit as (Eg' & Estep & _).
  rewrite Eg in Eg'. inversion Eg' as [Esum].
  split; [exact (state_at_built gradient self attrs y_0 x_t j s Hs)|].
  split; [exact Eg|]. split; [now rewrite Esum|].
  intros j' ->. split.
  - apply (gradient_buffer_at x_t j' s). exact Hs.
  - unfold gradient_sum. simpl. unfold ACRSpec.estimate_at. now rewrite Hs.
Qed.

End Claims.

(** *** A regulariser that is 0 everywhere

    The run below uses [flat_model] with the zero gradient; this is its true
    gradient, since the regulariser of [flat_model] is the zero function. *)

Lemma sum_upto_zero (n : nat) (f : nat -> Q) :
  (forall k, f k == 0) -> sum_upto n f == 0.
Proof.
  intros E. unfold sum_upto. induction (seq 0 n) as [|k l IH]; simpl; [reflexivity|].
  rewrite (E k), IH. reflexivity.
Qed.

Lemma conv_entry_zero_weight (c : Conv2d) (w : tensor4) (x : fmaps) (o i j : nat) :
  bias c = None -> (forall o c a b, w4 w o c a b == 0) ->
  conv_entry c w x o i j == 0.
Proof.
  intros Hb Hw. unfold conv_entry, bias_at. rewrite Hb.
  rewrite sum_upto_zero; [reflexivity|].
  intros ci. apply sum_upto_zero; intros a. apply sum_upto_zero; intros b.
  rewrite Hw. ring.
Qed.

Lemma nth_map_seq {A} (g : nat -> A) (n i : nat) (d : A) :
  nth i (map g (seq 0 n)) d = if (i <? n)%nat then g i else d.
Proof.
  destruct (Nat.ltb_spec i n) as [Hlt|Hge].
  - rewrite (nth_indep _ d (g 0%nat)) by (now rewrite length_map, length_seq).
    now rewrite map_nth, seq_nth.
  - apply nth_overflow. now rewrite length_map, length_seq.
Qed.

Lemma w4_fill4 (O C K : nat) (f : nat -> nat -> nat -> nat -> Q) (o c a b : nat) :
  w4 (Examples.fill4 O C K f) o c a b
  = if ((o <? O) && (c <? C) && (a <? K) && (b <? K))%nat then f o c a b else 0.
Proof.
  unfold w4, Examples.fill4. rewrite nth_map_seq.
  destruct (o <? O)%nat; simpl; [|now destruct c, a, b].
  rewrite nth_map_seq.
  destruct (c <? C)%nat; simpl; [|now destruct a, b].
  rewrite nth_map_seq.
  destruct (a <? K)%nat; simpl; [|now destruct b].
  apply nth_map_seq.
Qed.

Lemma flat_model_built :
  ACR_init Examples.small_parameters Examples.flat_tensors = inr Examples.flat_model.
Proof. reflexivity. Qed.

Lemma flat_model_last_weight_zero (o c a b : nat) :
  w4 (weight (last_layer Examples.flat_model)) o c a b == 0.
Proof.
  pose proof (ConvFacts.ACR_init_inv _ _ _ flat_model_built) as (_ & _ & _ & HP & HO & _).
  rewrite (ConvFacts.weight_Positive _ HP), HO, ConvFacts.w4_Positive_forward.
  unfold clip_min0. apply Q.max_r.
  unfold Examples.flat_tensors, last_weight. rewrite w4_fill4.
  destruct ((o <? 1) && (c <? 2) && (a <? 3) && (b <? 3))%nat; [|apply Qle_refl].
  unfold Qle; simpl; lia.
Qed.

Lemma flat_model_forward_zero (x : fmaps) :
  sumQ (flatten3 (ACR_forward_sample Examples.flat_model x)) == 0.
Proof.
  pose proof (ConvFacts.ACR_init_inv _ _ _ flat_model_built)
    as (_ & _ & _ & _ & _ & (_ & _ & _ & _ & Pl & Cl) & _).
  unfold ACR_forward_sample.
  rewrite (Convexity.Conv2d_forward_same _ _ Pl), Cl.
  match goal with
  | |- sumQ (flatten3 (pool (tabulate3 1 ?H ?W ?g))) == 0 =>
    change (sumQ (flatten3 (pool (tabulate3 1 H W g))))
      with (plane_mean (tabulate H W (g 0%nat)) + 0);
    assert (Hg : forall i j, g 0%nat i j == 0)
  end.
  { intros i j. apply conv_entry_zero_weight; [reflexivity|].
    apply flat_model_last_weight_zero. }
  unfold plane_mean. rewrite SumFacts.sumQ_flatten2_tabulate.
  rewrite sum_upto_zero.
  - unfold Qdiv. ring.
  - intros i. apply sum_upto_zero. intros j. apply Hg.
Qed.

Lemma flat_model_lossm_zero (x : batch) : lossm Examples.flat_model x == 0.
Proof.
  unfold lossm, lambd, ACR_forward. rewrite map_map.
  rewrite (SumFacts.sumQ_map_eq _ (fun _ => 0)) by (intros s; apply flat_model_forward_zero).
  induction x as [|s x IH]; [reflexivity|].
  cbn [map sumQ fold_right]. unfold sumQ in IH. lra.
Qed.

(** *** The one-pixel run

    The estimates are 2, 3/2, 3/4, 1/8 with metrics 99, 99.75, 99.9375 and
    99.23...: round 3 finds the metric lower and returns 1/8. *)

Import Examples.

Lemma reconstruction_zero_iterates_witness :
  args_iterates one_pixel_no_iterates = 0%nat /\
  0 <= param_var_step one_pixel_no_iterates /\
  0 <= param_var_momentum one_pixel_no_iterates /\
  reconstruction zero_gradient flat_model one_pixel_no_iterates one_pixel_sinogram None
  = inr (one_pixel_sinogram, 1%nat).
Proof.
  assert (Hs : 0 <= param_var_step one_pixel_no_iterates) by (vm_compute; discriminate).
  assert (Hm : 0 <= param_var_momentum one_pixel_no_iterates) by (vm_compute; discriminate).
  split; [reflexivity|]. repeat (split; [assumption|]).
  exact (proj1 (proj2 (reconstruction_zero_iterates zero_gradient flat_model
                         one_pixel_no_iterates one_pixel_sinogram None eq_refl Hs Hm))).
Defined.

(** The same run with the step size [-1/8]: the optimizer refuses it, although
    no round would have used it. *)
Lemma one_pixel_negative_step_raises :
  args_iterates MoreExamples.one_pixel_negative_step = 0%nat /\
  reconstruction zero_gradient flat_model MoreExamples.one_pixel_negative_step
    one_pixel_sinogram None
  = inl (ValueError "Invalid learning rate").
Proof. split; reflexivity. Qed.

Lemma one_pixel_state_at (j : nat) :
  (j <= 3)%nat ->
  state_at zero_gradient flat_model one_pixel one_pixel_sinogram
    (Some one_pixel_reference) j = Some (one_pixel_state j).
Proof.
  intros Hj.
  destruct j as [|[|[|[|j]]]]; try lia; vm_compute; reflexivity.
Qed.

Lemma early_stop_returns_current_estimate_witness :
  params_earlystop one_pixel = true /\
  (3 < args_iterates one_pixel)%nat /\
  state_at zero_gradient flat_model one_pixel one_pixel_sinogram
    (Some one_pixel_reference) 3 = Some (one_pixel_state 3) /\
  psnr one_pixel (x_0 (one_pixel_state 3)) one_pixel_reference < curpsn (one_pixel_state 3) /\
  reconstruction zero_gradient flat_model one_pixel one_pixel_sinogram
    (Some one_pixel_reference)
  = inr (x_0 (one_pixel_state 3), 1%nat).
Proof.
  assert (He : params_earlystop one_pixel = true) by reflexivity.
  assert (Hj : (3 < args_iterates one_pixel)%nat) by (vm_compute; lia).
  assert (Hs : state_at zero_gradient flat_model one_pixel one_pixel_sinogram
                 (Some one_pixel_reference) 3 = Some (one_pixel_state 3))
    by (vm_compute; reflexivity).
  assert (Hlt : psnr one_pixel (x_0 (one_pixel_state 3)) one_pixel_reference
                < curpsn (one_pixel_state 3)) by (vm_compute; reflexivity).
  repeat (split; [assumption|]).
  exact (proj1 (early_stop_returns_current_estimate zero_gradient flat_model one_pixel
                  one_pixel_sinogram one_pixel_reference 3 (one_pixel_state 3)
                  He Hj Hs Hlt)).
Defined.

Lemma early_stop_monotone_before_return_witness :
  params_earlystop one_pixel = true /\
  0 <= param_var_step one_pixel /\
  0 <= param_var_momentum one_pixel /\
  nondecreasing_from 0
    (map (fun x => psnr one_pixel x one_pixel_reference)
       (removelast (iterates_performed zero_gradient flat_model one_pixel one_pixel_sinogram
                      (Some one_pixel_reference)))) /\
  reconstruction zero_gradient flat_model one_pixel one_pixel_sinogram
    (Some one_pixel_reference)
  = inr (last (iterates_performed zero_gradient flat_model one_pixel one_pixel_sinogram
                 (Some one_pixel_reference)) [], 1%nat).
Proof.
  assert (Hs : 0 <= param_var_step one_pixel) by (vm_compute; discriminate).
  assert (Hm : 0 <= param_var_momentum one_pixel) by (vm_compute; discriminate).
  split; [reflexivity|]. split; [exact Hs|]. split; [exact Hm|].
  destruct (early_stop_monotone_before_return zero_gradient flat_model one_pixel
              one_pixel_sinogram one_pixel_reference eq_refl) as [Hmono Hret].
  split; [exact Hmono|]. exact (proj2 (Hret Hs Hm)).
Defined.

(** The claim as written fails: along the estimates of the one-pixel run,
    the returned one included, the metric goes down at the end. *)
Lemma early_stop_metric_not_monotone :
  let performed := iterates_performed zero_gradient flat_model one_pixel one_pixel_sinogram
                     (Some one_pixel_reference) in
  params_earlystop one_pixel = true /\
  0 <= param_var_step one_pixel /\
  0 <= param_var_momentum one_pixel /\
  reconstruction zero_gradient flat_model one_pixel one_pixel_sinogram
    (Some one_pixel_reference) = inr (last performed [], 1%nat) /\
  ~ nondecreasing_from (psnr one_pixel (fbp_op_mod one_pixel one_pixel_sinogram)
                          one_pixel_reference)
      (map (fun x => psnr one_pixel x one_pixel_reference) performed).
Proof.
  cbv zeta. split; [reflexivity|].
  split; [vm_compute; discriminate|]. split; [vm_compute; discriminate|].
  split; [vm_compute; reflexivity|].
  intros Hmono. vm_compute in Hmono.
  destruct Hmono as (_ & _ & _ & Hlast & _). apply Hlast. reflexivity.
Qed.

Lemma gradient_buffer_accumulates_witness :
  state_at zero_gradient flat_model one_pixel one_pixel_sinogram
    (Some one_pixel_reference) 1 = Some (one_pixel_state 1) /\
  state_at zero_gradient flat_model one_pixel one_pixel_sinogram
    (Some one_pixel_reference) 2 = Some (one_pixel_state 2) /\
  x_0_grad (one_pixel_state 2)
  = Some (gradient_sum zero_gradient flat_model one_pixel one_pixel_sinogram
            (Some one_pixel_reference) 1).
Proof.
  assert (H1 : state_at zero_gradient flat_model one_pixel one_pixel_sinogram
                 (Some one_pixel_reference) 1 = Some (one_pixel_state 1))
    by (vm_compute; reflexivity).
  assert (H2 : state_at zero_gradient flat_model one_pixel one_pixel_sinogram
                 (Some one_pixel_reference) 2 = Some (one_pixel_state 2))
    by (vm_compute; reflexivity).
  repeat (split; [assumption|]).
  exact (proj1 (proj2 (gradient_buffer_accumulates zero_gradient flat_model one_pixel
                         one_pixel_sinogram (Some one_pixel_reference) 1
                         (one_pixel_state 1) (one_pixel_state 2) H1 H2))).
Defined.

(** In that run the step of round 1 is taken with the gradient 4 + 2 = 6,
    not with the gradient 2 of round 1 alone. *)
Lemma one_pixel_buffer_is_not_round_gradient :
  map4d Qred (gradient_sum zero_gradient flat_model one_pixel one_pixel_sinogram
                (Some one_pixel_reference) 1) = [[[[6]]]] /\
  map4d Qred (round_gradient zero_gradient flat_model one_pixel one_pixel_sinogram
                (Some one_pixel_reference) 1) = [[[[2]]]].
Proof. split; vm_compute; reflexivity. Qed.

End Reconstruction.

(* ================================================================== *)
(** ** The sparsifying filter bank *)
(* ================================================================== *)

Module FilterBank.
Import ACR ACRSpec TensorFacts.

Section WithSoftplus.

Variable softplus : Q -> Q.

Lemma abs_response_map (c : Conv2d) (x : batch) :
  abs_response c x = map (abs_response_sum c) x.
Proof. reflexivity. Qed.

(** The loop over the kernels, once [total_out] is a tensor. *)
Lemma SFB_loop_tensor (m : SFB) (x : batch) (n i : nat) (F : fmaps -> Q) :
  (i + n <= length (conv m))%nat ->
  SFB_loop m x n i (Tensor1 (map F x))
  = inr (Tensor1 (map (fun s =>
           fold_left Qplus (map (fun c => abs_response_sum c s)
                                (firstn n (skipn i (conv m)))) (F s)) x)).
Proof.
  revert i F; induction n as [|n IH]; intros i F Hle; simpl.
  - reflexivity.
  - destruct (nth_error (conv m) i) as [c|] eqn:E.
    2:{ apply nth_error_None in E. lia. }
    rewrite abs_response_map. cbn [acc_add]. rewrite zip_with_map.
    rewrite (IH (S i) (fun s => F s + abs_response_sum c s)) by lia.
    do 2 f_equal. apply map_ext; intros s.
    assert (Esk : skipn i (conv m) = c :: skipn (S i) (conv m)).
    { clear -E. revert i E. induction (conv m) as [|c0 l IHl]; intros [|i] E; simpl in *;
        try discriminate.
      - now inversion E.
      - now apply IHl. }
    rewrite Esk. reflexivity.
Qed.

Lemma SFB_loop_from_float (m : SFB) (x : batch) :
  (0 < n_kernels m)%nat -> length (conv m) = n_kernels m ->
  SFB_loop m x (n_kernels m) 0 (PyFloat 0)
  = inr (Tensor1 (map (fun s =>
           fold_left Qplus (map (fun c => abs_response_sum c s) (conv m)) 0) x)).
Proof.
  intros Hn HL. destruct (n_kernels m) as [|n] eqn:En; [lia|]. simpl.
  destruct (conv m) as [|c l] eqn:Ec; [discriminate|]. simpl.
  rewrite abs_response_map, map_map.
  rewrite (SFB_loop_tensor m x n 1 (fun s => 0 + abs_response_sum c s))
    by (rewrite Ec in *; simpl in *; lia).
  do 2 f_equal. apply map_ext; intros s.
  rewrite Ec. simpl. simpl in HL.
  rewrite firstn_all2 by lia. reflexivity.
Qed.

(** With no kernel at all, [total_out] is still the float [0.0] when [view]
    is called on it. *)
Lemma SFB_forward_no_kernels (m : SFB) (x : batch) :
  n_kernels m = 0%nat ->
  SFB_forward softplus m x = inl (AttributeError "'float' object has no attribute 'view'").
Proof.
  intros E. unfold SFB_forward. now rewrite E.
Qed.

(** C10, as the code has it.  [SFB.__init__] builds [n_kernels] convolutions
    without bias, each with one input channel and [n_filters] output channels
    (7x7, padding 3).  For a bank with at least one kernel, [forward(x)] has
    shape [batch, 1] and holds, for every sample, [softplus(penalty)] times
    the sum over the kernels of the sum of the absolute values of the kernel's
    response (all its output channels and positions), plus the L2 term when
    the option is set. *)
Theorem SFB_forward_spec (m : SFB) (x : batch) :
  (0 < n_kernels m)%nat -> length (conv m) = n_kernels m ->
  (SFBParam.L2net (SFB_model_parameters m) = true -> SFB_L2net m <> None) ->
  SFB_forward softplus m x = inr (map (fun s => [SFB_value softplus m s]) x) /\
  (forall params kernel_init,
     let built := SFB_init params kernel_init in
     n_kernels built = SFBParam.n_kernels params /\
     length (conv built) = SFBParam.n_kernels params /\
     Forall (fun c => in_channels c = 1%nat /\
                      out_channels c = SFBParam.n_filters params /\
                      kernel_size c = 7%nat /\ padding c = Pad 3 /\ bias c = None)
            (conv built) /\
     (SFBParam.L2net (SFB_model_parameters built) = true -> SFB_L2net built <> None)).
Proof.
  intros Hn HL HL2. split.
  - unfold SFB_forward, SFB_value. rewrite (SFB_loop_from_float m x Hn HL).
    unfold map2d. rewrite !map_map.
    destruct (SFBParam.L2net (SFB_model_parameters m)) eqn:Eflag.
    + destruct (SFB_L2net m) as [l2|]; [|now specialize (HL2 eq_refl)].
      f_equal. unfold zip2d, L2net_forward. rewrite !map_map.
      rewrite zip_with_map. reflexivity.
    + reflexivity.
  - intros params kernel_init. cbv zeta. unfold SFB_init; simpl.
    split; [reflexivity|]. split; [now rewrite length_map, length_seq|]. split.
    + apply Forall_forall. intros c Hin. apply in_map_iff in Hin.
      destruct Hin as (i & <- & _). repeat split.
    + intros ->. discriminate.
Qed.

End WithSoftplus.

Lemma SFB_forward_spec_witness :
  (0 < n_kernels Examples.small_SFB)%nat /\
  length (conv Examples.small_SFB) = n_kernels Examples.small_SFB /\
  (SFBParam.L2net (SFB_model_parameters Examples.small_SFB) = true ->
   SFB_L2net Examples.small_SFB <> None) /\
  SFB_forward Examples.rational_softplus Examples.small_SFB [[Examples.image_a]]
  = inr [[SFB_value Examples.rational_softplus Examples.small_SFB [Examples.image_a]]].
Proof.
  assert (Hn : (0 < n_kernels Examples.small_SFB)%nat) by (vm_compute; lia).
  assert (HL : length (conv Examples.small_SFB) = n_kernels Examples.small_SFB)
    by reflexivity.
  assert (HL2 : SFBParam.L2net (SFB_model_parameters Examples.small_SFB) = true ->
                SFB_L2net Examples.small_SFB <> None) by (intros _; discriminate).
  repeat (split; [assumption|]).
  exact (proj1 (SFB_forward_spec Examples.rational_softplus Examples.small_SFB
                  [[Examples.image_a]] Hn HL HL2)).
Defined.

(** The claim as written fails: with the default parameters every
    convolution of the bank has 32 output channels, not one. *)
Lemma SFB_kernels_not_single_channel :
  ~ Forall (fun c => out_channels c = 1%nat)
      (conv (SFB_init SFB_default_parameters (fun _ => []))).
Proof.
  intros HF. inversion HF as [|c l Hc _]. discriminate Hc.
Qed.

End FilterBank.

(* ================================================================== *)
(** ** Construction and shape of the regulariser *)
(* ================================================================== *)

Module Construction.
Import ACR ACRSpec MoreSpec TensorFacts SumFacts ConvFacts.

Lemma ICNN_layer_init_ok channels ksize relu_type act bw ow ob :
  activation_of relu_type = inr act ->
  exists l, ICNN_layer_init channels ksize 1 relu_type bw ow ob = inr l /\
            activation l = act /\ bias (blue l) = None.
Proof.
  intros Ea. unfold ICNN_layer_init. simpl. rewrite Ea. eexists. repeat split.
Qed.

Lemma build_layers_ok p init act n i :
  Param.stride p = 1%nat -> activation_of (Param.relu_type p) = inr act ->
  exists ls, build_layers p init n i = inr ls /\ length ls = n /\
             Forall (fun l => activation l = act) ls.
Proof.
  intros Hs Ea. revert i; induction n as [|n IH]; intros i; simpl.
  - exists []. repeat split. constructor.
  - rewrite Hs.
    destruct (ICNN_layer_init_ok (Param.channels p) (Param.kernel_size p) _ act
                (blue_weight init i) (orange_weight init i) (orange_bias init i) Ea)
      as (l & El & Hact & _).
    rewrite El. destruct (IH (S i)) as (ls & Els & HL & HF). rewrite Els.
    exists (l :: ls). repeat split; [simpl; now rewrite HL|now constructor].
Qed.

Lemma activation_of_cases relu_type :
  (relu_type = "LeakyReLU"%string /\ activation_of relu_type = inr (LeakyReLU (2 # 10))) \/
  (relu_type = "ReLU"%string /\ activation_of relu_type = inr ReLU) \/
  (relu_type <> "LeakyReLU"%string /\ relu_type <> "ReLU"%string /\
   activation_of relu_type
   = inl (ValueError
       "Only Leaky ReLU supported (needs to be a convex and monotonically nondecreasin fun)")).
Proof.
  unfold activation_of.
  destruct (String.eqb_spec relu_type "LeakyReLU") as [E|N]; [now left|].
  destruct (String.eqb_spec relu_type "ReLU") as [E|N']; [right; now left|].
  right; right. now repeat split.
Qed.

(** X1.  [ACR.__init__] fails with a [ValueError] exactly when the stride is
    not 1 (torch refuses [padding="same"]) or [relu_type] is neither
    ["LeakyReLU"] nor ["ReLU"]; otherwise it returns a model with [layers]
    ICNN layers (none at all for [layers = 0]) whose activations are all the
    one [relu_type] names. *)
Theorem ACR_init_outcome (p : Param.t) (init : InitialTensors) :
  (Param.stride p <> 1%nat ->
   ACR_init p init
   = inl (ValueError "padding='same' is not supported for strided convolutions")) /\
  (Param.stride p = 1%nat ->
   Param.relu_type p <> "LeakyReLU"%string -> Param.relu_type p <> "ReLU"%string ->
   ACR_init p init
   = inl (ValueError
       "Only Leaky ReLU supported (needs to be a convex and monotonically nondecreasin fun)")) /\
  (Param.stride p = 1%nat ->
   forall act, activation_of (Param.relu_type p) = inr act ->
   exists m, ACR_init p init = inr m /\
     length (ICNN_layers m) = Param.layers p /\
     first_activation m = act /\
     Forall (fun l => activation l = act) (ICNN_layers m)).
Proof.
  split; [|split].
  - intros Hs. unfold ACR_init, same_padding_stride.
    destruct (Nat.eqb_spec (Param.stride p) 1); [contradiction|reflexivity].
  - intros Hs N1 N2. unfold ACR_init. rewrite Hs. simpl.
    destruct (activation_of_cases (Param.relu_type p)) as [[E _]|[[E _]|(_ & _ & E)]];
      try contradiction.
    now rewrite E.
  - intros Hs act Ea. unfold ACR_init. rewrite Hs. simpl. rewrite Ea.
    destruct (build_layers_ok p init act (Param.layers p) 0 Hs Ea) as (ls & Els & HL & HF).
    rewrite Els. eexists. split; [reflexivity|]. simpl. repeat split; assumption.
Qed.

Lemma ACR_init_outcome_witness :
  Param.stride MoreExamples.strided_parameters <> 1%nat /\
  ACR_init MoreExamples.strided_parameters Examples.small_tensors
  = inl (ValueError "padding='same' is not supported for strided convolutions") /\
  Param.stride MoreExamples.tanh_parameters = 1%nat /\
  Param.relu_type MoreExamples.tanh_parameters <> "LeakyReLU"%string /\
  Param.relu_type MoreExamples.tanh_parameters <> "ReLU"%string /\
  ACR_init MoreExamples.tanh_parameters Examples.small_tensors
  = inl (ValueError
      "Only Leaky ReLU supported (needs to be a convex and monotonically nondecreasin fun)").
Proof.
  assert (H1 : Param.stride MoreExamples.strided_parameters <> 1%nat) by (simpl; lia).
  assert (H2 : Param.stride MoreExamples.tanh_parameters = 1%nat) by reflexivity.
  assert (H3 : Param.relu_type MoreExamples.tanh_parameters <> "LeakyReLU"%string)
    by (simpl; discriminate).
  assert (H4 : Param.relu_type MoreExamples.tanh_parameters <> "ReLU"%string)
    by (simpl; discriminate).
  split; [exact H1|]. split.
  - exact (proj1 (ACR_init_outcome MoreExamples.strided_parameters Examples.small_tensors) H1).
  - split; [exact H2|]. split; [exact H3|]. split; [exact H4|].
    exact (proj1 (proj2 (ACR_init_outcome MoreExamples.tanh_parameters Examples.small_tensors))
             H2 H3 H4).
Defined.

(** The parts of a model built by [__init__] that the lemmas below need. *)
Lemma ACR_init_last_layer p init m :
  ACR_init p init = inr m ->
  bias (last_layer m) = None /\ out_channels (last_layer m) = 1%nat /\
  padding (last_layer m) = Same /\
  weight (last_layer m) = Positive_forward (last_weight init) /\
  activation_of (Param.relu_type p) = inr (first_activation m) /\
  Forall (fun l => activation l = first_activation m) (ICNN_layers m).
Proof.
  intros E. unfold ACR_init in E.
  destruct (same_padding_stride (Param.stride p)) eqn:Es; [discriminate|].
  destruct (activation_of (Param.relu_type p)) as [e|act] eqn:Ea; [discriminate|].
  assert (Hs : Param.stride p = 1%nat).
  { unfold same_padding_stride in Es.
    destruct (Nat.eqb_spec (Param.stride p) 1); [assumption|discriminate]. }
  destruct (build_layers_ok p init act (Param.layers p) 0 Hs Ea) as (ls & Els & _ & HF).
  rewrite Els in E. inversion E; subst; clear E. simpl. repeat split. exact HF.
Qed.

(** X2.  For a model laid out as [__init__] builds it, [forward] returns one
    value per sample: the output has as many entries as the batch, each of
    shape [1, 1, 1], whatever the size of the images. *)
Theorem ACR_forward_shape (m : ACR) (x : batch) :
  architecture m ->
  length (ACR_forward m x) = length x /\
  forall s, exists r, ACR_forward_sample m s = [[[r]]].
Proof.
  intros (_ & _ & _ & _ & Pl & Cl). split.
  - unfold ACR_forward. apply length_map.
  - intros s. unfold ACR_forward_sample, Conv2d_forward. rewrite Cl.
    eexists. reflexivity.
Qed.

Lemma ACR_forward_shape_witness :
  architecture Examples.small_model /\
  length (ACR_forward Examples.small_model [[Examples.image_a]; [Examples.image_b]]) = 2%nat.
Proof.
  pose proof (ACR_init_inv _ _ _ Convexity.small_model_built) as (_ & _ & _ & _ & _ & HA & _).
  split; [exact HA|].
  exact (proj1 (ACR_forward_shape Examples.small_model
                  [[Examples.image_a]; [Examples.image_b]] HA)).
Defined.

End Construction.

(* ================================================================== *)
(** ** More on the positivity constraint and the sign of the regulariser *)
(* ================================================================== *)

Module Sign.
Import ACR ACRSpec MoreSpec TensorFacts SumFacts ConvFacts Construction.

Lemma clip_min0_cases (v : Q) :
  (v < 0 /\ clip_min0 v = 0) \/ (0 <= v /\ clip_min0 v = v).
Proof.
  unfold clip_min0, Qmax, GenericMinMax.gmax.
  destruct (Qcompare v 0) eqn:E.
  - right. split; [|reflexivity]. apply Qeq_alt in E. rewrite E. apply Qle_refl.
  - left. split; [|reflexivity]. now apply Qlt_alt.
  - right. split; [|reflexivity]. apply Qlt_le_weak. now apply Qgt_alt.
Qed.

Lemma clip_min0_idempotent (v : Q) : clip_min0 (clip_min0 v) = clip_min0 v.
Proof.
  destruct (clip_min0_cases v) as [[_ E]|[H E]]; rewrite E.
  - reflexivity.
  - destruct (clip_min0_cases v) as [[H' _]|[_ E']]; [|exact E'].
    exfalso. exact (Qlt_not_le _ _ H' H).
Qed.

(** X3.  [Positive] is idempotent, and it returns a tensor without negative
    entries unchanged: registering it on weights that are already
    non-negative, or twice, does not alter what [forward] reads. *)
Theorem Positive_forward_idempotent (X : tensor4) :
  Positive_forward (Positive_forward X) = Positive_forward X /\
  (nonneg_entries X -> Positive_forward X = X).
Proof.
  split.
  - unfold Positive_forward, map3d, map2d. rewrite map_map.
    apply map_ext; intros a. rewrite map_map.
    apply map_ext; intros b. rewrite map_map.
    apply map_ext; intros c. rewrite map_map.
    apply map_ext; intros v. apply clip_min0_idempotent.
  - unfold nonneg_entries, Positive_forward, map3d, map2d. intros HX.
    rewrite <- (map_id X) at 2. apply map_ext_in; intros a Ha.
    rewrite Forall_forall in HX. specialize (HX a Ha).
    rewrite <- (map_id a) at 2. apply map_ext_in; intros b Hb.
    rewrite Forall_forall in HX. specialize (HX b Hb).
    rewrite <- (map_id b) at 2. apply map_ext_in; intros c Hc.
    rewrite Forall_forall in HX. specialize (HX c Hc).
    rewrite <- (map_id c) at 2. apply map_ext_in; intros v Hv.
    rewrite Forall_forall in HX. specialize (HX v Hv).
    destruct (clip_min0_cases v) as [[H _]|[_ E]]; [|exact E].
    exfalso. exact (Qlt_not_le _ _ H HX).
Qed.

Lemma Positive_forward_idempotent_witness :
  nonneg_entries [[[[1; 0]; [2 # 3; 5]]]] /\
  Positive_forward [[[[1; 0]; [2 # 3; 5]]]] = [[[[1; 0]; [2 # 3; 5]]]].
Proof.
  assert (HX : nonneg_entries [[[[1; 0]; [2 # 3; 5]]]]).
  { unfold nonneg_entries.
    repeat (constructor; try (unfold Qle; simpl; lia)). }
  split; [exact HX|].
  exact (proj2 (Positive_forward_idempotent [[[[1; 0]; [2 # 3; 5]]]]) HX).
Defined.

Lemma sum_upto_nonneg (n : nat) (f : nat -> Q) :
  (forall k, 0 <= f k) -> 0 <= sum_upto n f.
Proof.
  intros E. unfold sum_upto. induction (seq 0 n) as [|k l IH]; simpl; [apply Qle_refl|].
  specialize (E k). lra.
Qed.

Lemma conv_entry_nonneg (c : Conv2d) (w : tensor4) (x : fmaps) (o i j : nat) :
  bias c = None -> nonneg4 w -> (forall c i j, 0 <= px3 x c i j) ->
  0 <= conv_entry c w x o i j.
Proof.
  intros Hb Hw Hx. unfold conv_entry, bias_at. rewrite Hb.
  assert (0 <= sum_upto (in_channels c) (fun ci =>
            sum_upto (kernel_size c) (fun a =>
              sum_upto (kernel_size c) (fun b =>
                w4 w o ci a b *
                px3 x ci (Z.of_nat i + Z.of_nat a - Z.of_nat (pad_before c))
                         (Z.of_nat j + Z.of_nat b - Z.of_nat (pad_before c)))))).
  { apply sum_upto_nonneg; intros ci. apply sum_upto_nonneg; intros a.
    apply sum_upto_nonneg; intros b. apply Qmult_le_0_compat; [apply Hw|apply Hx]. }
  lra.
Qed.

(** The value of the regulariser in terms of the input of the last
    convolution. *)
Lemma R_as_plane_mean (m : ACR) (x : image) :
  out_channels (last_layer m) = 1%nat ->
  exists z H W,
    R m x = plane_mean (tabulate H W (conv_entry (last_layer m) (weight (last_layer m)) z 0%nat)) /\
    z = fold_left (fun z layer => ICNN_layer_forward layer z [x]) (ICNN_layers m)
          (map3d (activation_apply (first_activation m)) (Conv2d_forward (first_layer m) [x])).
Proof.
  intros Cl. unfold R, ACR_forward_sample, Conv2d_forward at 1. rewrite Cl.
  eexists _, _, _. split; reflexivity.
Qed.

Lemma plane_mean_zero (H W : nat) (f : nat -> nat -> Q) :
  (forall i j, f i j == 0) -> plane_mean (tabulate H W f) == 0.
Proof.
  intros E. unfold plane_mean. rewrite sumQ_flatten2_tabulate, Reconstruction.sum_upto_zero.
  - unfold Qdiv. ring.
  - intros i. apply Reconstruction.sum_upto_zero. intros j. apply E.
Qed.

Lemma plane_mean_nonneg (H W : nat) (f : nat -> nat -> Q) :
  (forall i j, 0 <= f i j) -> 0 <= plane_mean (tabulate H W f).
Proof.
  intros E. unfold plane_mean. rewrite sumQ_flatten2_tabulate, length_flatten2_tabulate.
  assert (HS : 0 <= sum_upto H (fun i => sum_upto W (f i))).
  { apply sum_upto_nonneg; intros i. apply sum_upto_nonneg; intros j. apply E. }
  assert (Hn : 0 <= / inject_Z (Z.of_nat (H * W))).
  { apply Qinv_le_0_compat. change 0 with (inject_Z 0). rewrite <- Zle_Qle. lia. }
  unfold Qdiv. now apply Qmult_le_0_compat.
Qed.

(** X4.  If no stored entry of the last convolution's weight is positive,
    the clip turns the whole effective weight into zeros and the regulariser
    is 0 at every image: the network has collapsed to the zero function,
    whatever the other weights are. *)
Theorem nonpositive_last_weight_kills_regulariser
    (p : Param.t) (init : InitialTensors) (m : ACR) (x : image) :
  ACR_init p init = inr m ->
  (forall o c a b, w4 (last_weight init) o c a b <= 0) ->
  R m x == 0.
Proof.
  intros E Hw.
  destruct (ACR_init_last_layer p init m E) as (Hb & Cl & _ & Ew & _).
  destruct (R_as_plane_mean m x Cl) as (z & H & W & ER & _). rewrite ER.
  apply plane_mean_zero; intros i j.
  apply Reconstruction.conv_entry_zero_weight; [exact Hb|].
  intros o c a b. rewrite Ew, w4_Positive_forward.
  destruct (clip_min0_cases (w4 (last_weight init) o c a b)) as [[_ E0]|[H0 E0]]; rewrite E0.
  - reflexivity.
  - apply Qle_antisym; [apply Hw|exact H0].
Qed.

Lemma nonpositive_last_weight_kills_regulariser_witness :
  ACR_init Examples.small_parameters Examples.flat_tensors = inr Examples.flat_model /\
  (forall o c a b, w4 (last_weight Examples.flat_tensors) o c a b <= 0) /\
  R Examples.flat_model Examples.image_a == 0.
Proof.
  assert (Hw : forall o c a b, w4 (last_weight Examples.flat_tensors) o c a b <= 0).
  { intros o c a b. unfold Examples.flat_tensors, last_weight.
    rewrite Reconstruction.w4_fill4.
    destruct ((o <? 1) && (c <? 2) && (a <? 3) && (b <? 3))%nat; [|apply Qle_refl].
    unfold Qle; simpl; lia. }
  split; [reflexivity|]. split; [exact Hw|].
  exact (nonpositive_last_weight_kills_regulariser Examples.small_parameters
           Examples.flat_tensors Examples.flat_model Examples.image_a
           Reconstruction.flat_model_built Hw).
Defined.

(** Entries of a stack that has just gone through ReLU. *)
Lemma px3_relu_nonneg (z : fmaps) (c : nat) (i j : Z) :
  0 <= px3 (map3d (activation_apply ReLU) z) c i j.
Proof.
  unfold px3, map3d, px.
  destruct ((0 <=? i)%Z && (0 <=? j)%Z); [|apply Qle_refl].
  change (@nil (list Q)) with (map2d (activation_apply ReLU) []) at 1.
  rewrite map_nth. unfold map2d.
  change (@nil Q) with (map (activation_apply ReLU) []) at 1.
  rewrite map_nth.
  destruct (nth_in_or_default (Z.to_nat j)
              (map (activation_apply ReLU) (nth (Z.to_nat i) (nth c z []) [])) 0)
    as [Hin|E].
  - apply in_map_iff in Hin. destruct Hin as (v & Ev & _). rewrite <- Ev.
    simpl. apply Q.le_max_l.
  - rewrite E. apply Qle_refl.
Qed.

Lemma layers_relu_nonneg (x0 : fmaps) (layers : list ICNN_layer) (z : fmaps) :
  Forall (fun l => activation l = ReLU) layers ->
  (forall c i j, 0 <= px3 z c i j) ->
  forall c i j,
    0 <= px3 (fold_left (fun z layer => ICNN_layer_forward layer z x0) layers z) c i j.
Proof.
  intros HF. revert z; induction HF as [|l layers Hl HF IH]; intros z Hz; simpl.
  - exact Hz.
  - apply IH. intros c i j. unfold ICNN_layer_forward. rewrite Hl.
    apply px3_relu_nonneg.
Qed.

(** X5.  With [relu_type = "ReLU"] the regulariser is never negative: the
    stack that reaches the last convolution has no negative entry, the last
    convolution has no bias and no negative effective weight, and the pooling
    averages. *)
Theorem ReLU_regulariser_nonneg (p : Param.t) (init : InitialTensors) (m : ACR) (x : image) :
  ACR_init p init = inr m ->
  Param.relu_type p = "ReLU"%string ->
  0 <= R m x.
Proof.
  intros E Hr.
  destruct (ACR_init_last_layer p init m E) as (Hb & Cl & _ & Ew & Ea & HF).
  rewrite Hr in Ea. simpl in Ea. inversion Ea as [Eact].
  destruct (R_as_plane_mean m x Cl) as (z & H & W & ER & Ez). rewrite ER.
  apply plane_mean_nonneg; intros i j.
  apply conv_entry_nonneg; [exact Hb|rewrite Ew; apply nonneg4_Positive_forward|].
  rewrite Ez. apply layers_relu_nonneg.
  - now rewrite <- Eact in HF.
  - intros c i' j'. rewrite <- Eact. apply px3_relu_nonneg.
Qed.

Lemma relu_model_built :
  ACR_init MoreExamples.relu_parameters Examples.small_tensors = inr MoreExamples.relu_model.
Proof. reflexivity. Qed.

Lemma ReLU_regulariser_nonneg_witness :
  ACR_init MoreExamples.relu_parameters Examples.small_tensors = inr MoreExamples.relu_model /\
  Param.relu_type MoreExamples.relu_parameters = "ReLU"%string /\
  0 <= R MoreExamples.relu_model Examples.image_b.
Proof.
  split; [reflexivity|]. split; [reflexivity|].
  exact (ReLU_regulariser_nonneg MoreExamples.relu_parameters Examples.small_tensors
           MoreExamples.relu_model Examples.image_b relu_model_built eq_refl).
Defined.

End Sign.

(* ================================================================== *)
(** ** More on the sparsifying filter bank *)
(* ================================================================== *)

Module FilterBankFacts.
Import ACR ACRSpec MoreSpec TensorFacts SumFacts.

Lemma fold_left_Qplus (l : list Q) (a : Q) : fold_left Qplus l a == a + sumQ l.
Proof.
  revert a; induction l as [|v l IH]; intros a; simpl.
  - ring.
  - rewrite IH. ring.
Qed.

Lemma sumQ_nonneg (l : list Q) : (forall v, In v l -> 0 <= v) -> 0 <= sumQ l.
Proof.
  induction l as [|v l IH]; intros H; simpl; [apply Qle_refl|].
  assert (0 <= v) by (apply H; now left).
  assert (0 <= sumQ l) by (apply IH; intros u Hu; apply H; now right).
  unfold sumQ in *. lra.
Qed.

Lemma flatten3_map3d (f : Q -> Q) (z : fmaps) :
  flatten3 (map3d f z) = map f (flatten3 z).
Proof.
  unfold flatten3, flatten2, map3d, map2d.
  rewrite concat_map, !map_map. f_equal. apply map_ext; intros im.
  now rewrite concat_map.
Qed.

Lemma sumQ_flatten3_tabulate3 (C H W : nat) (g : nat -> nat -> nat -> Q) :
  sumQ (flatten3 (tabulate3 C H W g))
  == sum_upto C (fun c => sum_upto H (fun i => sum_upto W (g c i))).
Proof.
  unfold flatten3, tabulate3, sum_upto at 1. rewrite map_map.
  induction (seq 0 C) as [|c l IH]; simpl; [reflexivity|].
  rewrite sumQ_app, IH, sumQ_flatten2_tabulate. reflexivity.
Qed.

(** The summed absolute response of one convolution, entry by entry. *)
Lemma abs_response_sum_entries (c : Conv2d) (s : fmaps) :
  abs_response_sum c s
  == sum_upto (out_channels c) (fun o =>
       sum_upto (out_size c (height s)) (fun i =>
         sum_upto (out_size c (width s)) (fun j =>
           Qabs (conv_entry c (weight c) s o i j)))).
Proof.
  unfold abs_response_sum, Conv2d_forward.
  rewrite map3d_tabulate3. apply sumQ_flatten3_tabulate3.
Qed.

Lemma abs_response_sum_nonneg (c : Conv2d) (s : fmaps) : 0 <= abs_response_sum c s.
Proof.
  unfold abs_response_sum. rewrite flatten3_map3d. apply sumQ_nonneg.
  intros v Hv. apply in_map_iff in Hv. destruct Hv as (u & <- & _). apply Qabs_nonneg.
Qed.

Lemma sum_squares_nonneg (l : list Q) : 0 <= sumQ (map (fun v => v ^ 2) l).
Proof.
  apply sumQ_nonneg. intros v Hv. apply in_map_iff in Hv. destruct Hv as (u & <- & _).
  simpl. nra.
Qed.

Section WithSoftplus.

Variable softplus : Q -> Q.

(** What [forward] returns for a bank with at least one kernel. *)
Lemma SFB_forward_value (m : SFB) (x : batch) :
  (0 < n_kernels m)%nat -> length (conv m) = n_kernels m ->
  (SFBParam.L2net (SFB_model_parameters m) = true -> SFB_L2net m <> None) ->
  SFB_forward softplus m x = inr (map (fun s => [SFB_value softplus m s]) x).
Proof.
  intros Hn HL HL2.
  unfold SFB_forward, SFB_value. rewrite (FilterBank.SFB_loop_from_float m x Hn HL).
  unfold map2d. rewrite !map_map.
  destruct (SFBParam.L2net (SFB_model_parameters m)) eqn:Eflag.
  - destruct (SFB_L2net m) as [l2|]; [|now specialize (HL2 eq_refl)].
    f_equal. unfold zip2d, L2net_forward. rewrite !map_map.
    rewrite zip_with_map. reflexivity.
  - reflexivity.
Qed.

Lemma SFB_value_nonneg (m : SFB) (s : fmaps) :
  (forall v, 0 <= softplus v) -> 0 <= SFB_value softplus m s.
Proof.
  intros Hsp. unfold SFB_value.
  assert (Hfoe : 0 <= softplus (penalty m)
                      * fold_left Qplus (map (fun c => abs_response_sum c s) (conv m)) 0).
  { apply Qmult_le_0_compat; [apply Hsp|].
    rewrite fold_left_Qplus.
    assert (0 <= sumQ (map (fun c => abs_response_sum c s) (conv m))).
    { apply sumQ_nonneg. intros v Hv. apply in_map_iff in Hv.
      destruct Hv as (c & <- & _). apply abs_response_sum_nonneg. }
    lra. }
  destruct (SFBParam.L2net (SFB_model_parameters m)); [|exact Hfoe].
  destruct (SFB_L2net m) as [l2|]; [|exact Hfoe].
  assert (0 <= softplus (l2_penalty l2) * sumQ (map (fun v => v ^ 2) (flatten3 s))).
  { apply Qmult_le_0_compat; [apply Hsp|apply sum_squares_nonneg]. }
  lra.
Qed.

(** X6.  For a bank with at least one kernel and a softplus that is never
    negative, [forward] returns one row of one value per sample, and no value
    is negative. *)
Theorem SFB_forward_nonneg (m : SFB) (x : batch) :
  (0 < n_kernels m)%nat -> length (conv m) = n_kernels m ->
  (SFBParam.L2net (SFB_model_parameters m) = true -> SFB_L2net m <> None) ->
  (forall v, 0 <= softplus v) ->
  exists out, SFB_forward softplus m x = inr out /\
    length out = length x /\
    forall row, In row out -> exists v, row = [v] /\ 0 <= v.
Proof.
  intros Hn HL HL2 Hsp. eexists. split; [now apply SFB_forward_value|].
  split; [apply length_map|].
  intros row Hin. apply in_map_iff in Hin. destruct Hin as (s & <- & _).
  eexists. split; [reflexivity|]. now apply SFB_value_nonneg.
Qed.

End WithSoftplus.

Lemma rational_softplus_nonneg (v : Q) : 0 <= Examples.rational_softplus v.
Proof.
  unfold Examples.rational_softplus. pose proof (Q.le_max_r v 0). lra.
Qed.

Lemma small_SFB_ready :
  (0 < n_kernels Examples.small_SFB)%nat /\
  length (conv Examples.small_SFB) = n_kernels Examples.small_SFB /\
  (SFBParam.L2net (SFB_model_parameters Examples.small_SFB) = true ->
   SFB_L2net Examples.small_SFB <> None).
Proof.
  split; [vm_compute; lia|]. split; [reflexivity|]. intros _; discriminate.
Qed.

Lemma SFB_forward_nonneg_witness :
  (0 < n_kernels Examples.small_SFB)%nat /\
  length (conv Examples.small_SFB) = n_kernels Examples.small_SFB /\
  (SFBParam.L2net (SFB_model_parameters Examples.small_SFB) = true ->
   SFB_L2net Examples.small_SFB <> None) /\
  (forall v, 0 <= Examples.rational_softplus v) /\
  exists out,
    SFB_forward Examples.rational_softplus Examples.small_SFB
      [[Examples.image_a]; [Examples.image_b]] = inr out /\
    length out = 2%nat.
Proof.
  destruct small_SFB_ready as (Hn & HL & HL2).
  repeat (split; [assumption|]). split; [exact rational_softplus_nonneg|].
  destruct (SFB_forward_nonneg Examples.rational_softplus Examples.small_SFB
              [[Examples.image_a]; [Examples.image_b]] Hn HL HL2 rational_softplus_nonneg)
    as (out & E & Hlen & _).
  exists out. split; assumption.
Defined.

End FilterBankFacts.

Module FilterBankConvexity.
Import ACR ACRSpec MoreSpec TensorFacts SumFacts FilterBankFacts.

(** The size of a one-plane stack. *)
Lemma dims_of_image (H W : nat) (x : image) :
  rect H W x ->
  height [x] = H /\ width [x] = (if Nat.eqb H 0 then 0 else W)%nat.
Proof.
  intros [HL HR]. unfold height, width. simpl. split; [exact HL|].
  destruct x as [|row x]; simpl in *.
  - now subst H.
  - subst H. simpl. now inversion HR.
Qed.

Lemma Qabs_convex (t a b : Q) :
  0 <= t -> t <= 1 -> Qabs (t * a + (1 - t) * b) <= t * Qabs a + (1 - t) * Qabs b.
Proof.
  intros H0 H1.
  eapply Qle_trans; [apply Qabs_triangle|].
  rewrite !Qabs_Qmult.
  rewrite (Qabs_pos t) by assumption.
  rewrite (Qabs_pos (1 - t)) by lra.
  apply Qle_refl.
Qed.

(** The summed absolute response of a convolution is convex in the image. *)
Lemma abs_response_sum_convex (c : Conv2d) (t : Q) (H W : nat) (x1 x2 : image) :
  rect H W x1 -> rect H W x2 -> 0 <= t -> t <= 1 ->
  abs_response_sum c [mix t x1 x2]
  <= t * abs_response_sum c [x1] + (1 - t) * abs_response_sum c [x2].
Proof.
  intros R1 R2 H0 H1.
  pose proof (Convexity.rect_mix t H W x1 x2 R1 R2) as Rt.
  pose proof (Convexity.affine_mix t H W x1 x2 R1 R2) as Hx.
  rewrite !abs_response_sum_entries.
  destruct (dims_of_image H W _ Rt) as [Eh Ew]. rewrite Eh, Ew.
  destruct (dims_of_image H W _ R1) as [Eh1 Ew1]. rewrite Eh1, Ew1.
  destruct (dims_of_image H W _ R2) as [Eh2 Ew2]. rewrite Eh2, Ew2.
  apply sum_upto_convex; intros o.
  apply sum_upto_convex; intros i.
  apply sum_upto_convex; intros j.
  rewrite (Convexity.conv_entry_affine c (weight c) t _ _ _ o i j Hx).
  now apply Qabs_convex.
Qed.

Lemma Qsquare_nonneg (x : Q) : 0 <= x * x.
Proof.
  destruct (Qlt_le_dec x 0) as [H|H].
  - setoid_replace (x * x) with ((- x) * (- x)) by ring.
    apply Qmult_le_0_compat; lra.
  - now apply Qmult_le_0_compat.
Qed.

Lemma square_convex (t a b : Q) :
  0 <= t -> t <= 1 -> (t * a + (1 - t) * b) ^ 2 <= t * a ^ 2 + (1 - t) * b ^ 2.
Proof.
  intros H0 H1. apply Qle_minus_iff.
  setoid_replace (t * a ^ 2 + (1 - t) * b ^ 2 + - (t * a + (1 - t) * b) ^ 2)
    with (t * (1 - t) * ((a - b) * (a - b))) by (simpl; ring).
  apply Qmult_le_0_compat; [apply Qmult_le_0_compat; lra|].
  apply Qsquare_nonneg.
Qed.

Lemma flatten2_map2d (f : Q -> Q) (im : image) :
  map f (flatten2 im) = flatten2 (map2d f im).
Proof. unfold flatten2, map2d. now rewrite concat_map. Qed.

Lemma sum_squares_image (H W : nat) (x : image) :
  rect H W x ->
  sumQ (map (fun v => v ^ 2) (flatten3 [x]))
  == sum_upto H (fun i => sum_upto W (fun j => px x (Z.of_nat i) (Z.of_nat j) ^ 2)).
Proof.
  intros Rx. unfold flatten3. simpl. rewrite app_nil_r, flatten2_map2d.
  rewrite (rect_tabulate H W x Rx) at 1.
  rewrite map2d_tabulate. apply sumQ_flatten2_tabulate.
Qed.

(** The squared norm is convex in the image. *)
Lemma sum_squares_convex (t : Q) (H W : nat) (x1 x2 : image) :
  rect H W x1 -> rect H W x2 -> 0 <= t -> t <= 1 ->
  sumQ (map (fun v => v ^ 2) (flatten3 [mix t x1 x2]))
  <= t * sumQ (map (fun v => v ^ 2) (flatten3 [x1]))
     + (1 - t) * sumQ (map (fun v => v ^ 2) (flatten3 [x2])).
Proof.
  intros R1 R2 H0 H1.
  pose proof (Convexity.rect_mix t H W x1 x2 R1 R2) as Rt.
  rewrite (sum_squares_image H W _ Rt), (sum_squares_image H W _ R1),
          (sum_squares_image H W _ R2).
  apply sum_upto_convex; intros i. apply sum_upto_convex; intros j.
  rewrite (Convexity.mix_tabulate t H W x1 x2 R1 R2), px_tabulate.
  destruct ((0 <=? Z.of_nat i)%Z && (Z.of_nat i <? Z.of_nat H)%Z
            && (0 <=? Z.of_nat j)%Z && (Z.of_nat j <? Z.of_nat W)%Z) eqn:Hin.
  - rewrite !Nat2Z.id. now apply square_convex.
  - assert (E1 : px x1 (Z.of_nat i) (Z.of_nat j) = 0).
    { rewrite (rect_tabulate H W x1 R1), px_tabulate, Hin. reflexivity. }
    assert (E2 : px x2 (Z.of_nat i) (Z.of_nat j) = 0).
    { rewrite (rect_tabulate H W x2 R2), px_tabulate, Hin. reflexivity. }
    rewrite E1, E2. simpl. lra.
Qed.

Section WithSoftplus.

Variable softplus : Q -> Q.

Lemma SFB_value_convex (m : SFB) (t : Q) (H W : nat) (x1 x2 : image) :
  (forall v, 0 <= softplus v) ->
  rect H W x1 -> rect H W x2 -> 0 <= t -> t <= 1 ->
  SFB_value softplus m [mix t x1 x2]
  <= t * SFB_value softplus m [x1] + (1 - t) * SFB_value softplus m [x2].
Proof.
  intros Hsp R1 R2 H0 H1. unfold SFB_value. cbv zeta.
  assert (Hfoe : sumQ (map (fun c => abs_response_sum c [mix t x1 x2]) (conv m))
                 <= t * sumQ (map (fun c => abs_response_sum c [x1]) (conv m))
                    + (1 - t) * sumQ (map (fun c => abs_response_sum c [x2]) (conv m))).
  { rewrite <- sumQ_map_lin. apply sumQ_map_le. intros c.
    now apply (abs_response_sum_convex c t H W). }
  pose proof (Hsp (penalty m)) as Hp.
  assert (Hscaled :
    softplus (penalty m)
    * fold_left Qplus (map (fun c => abs_response_sum c [mix t x1 x2]) (conv m)) 0
    <= t * (softplus (penalty m)
            * fold_left Qplus (map (fun c => abs_response_sum c [x1]) (conv m)) 0)
       + (1 - t) * (softplus (penalty m)
                    * fold_left Qplus (map (fun c => abs_response_sum c [x2]) (conv m)) 0)).
  { rewrite !fold_left_Qplus. nra. }
  destruct (SFBParam.L2net (SFB_model_parameters m)); [|exact Hscaled].
  destruct (SFB_L2net m) as [l2|]; [|exact Hscaled].
  pose proof (Hsp (l2_penalty l2)) as Hl.
  pose proof (sum_squares_convex t H W x1 x2 R1 R2 H0 H1) as Hsq.
  nra.
Qed.

(** X7.  The filter bank is convex in its input: for a softplus that is
    never negative, images [x1], [x2] of one size and [t] in [0, 1], the value
    [forward] returns at [t*x1 + (1-t)*x2] is at most the same combination of
    the values at [x1] and [x2] (absolute values of linear responses and the
    squared norm, added with non-negative factors). *)
Theorem SFB_forward_convex (m : SFB) (t : Q) (H W : nat) (x1 x2 : image) :
  (0 < n_kernels m)%nat -> length (conv m) = n_kernels m ->
  (SFBParam.L2net (SFB_model_parameters m) = true -> SFB_L2net m <> None) ->
  (forall v, 0 <= softplus v) ->
  rect H W x1 -> rect H W x2 -> 0 <= t -> t <= 1 ->
  exists vt v1 v2,
    SFB_forward softplus m [[mix t x1 x2]] = inr [[vt]] /\
    SFB_forward softplus m [[x1]] = inr [[v1]] /\
    SFB_forward softplus m [[x2]] = inr [[v2]] /\
    vt <= t * v1 + (1 - t) * v2.
Proof.
  intros Hn HL HL2 Hsp R1 R2 H0 H1.
  exists (SFB_value softplus m [mix t x1 x2]), (SFB_value softplus m [x1]),
         (SFB_value softplus m [x2]).
  rewrite !(SFB_forward_value softplus m _ Hn HL HL2).
  repeat split. now apply (SFB_value_convex m t H W).
Qed.

Lemma px3_zeros (H W ci : nat) (u v : Z) : px3 [zeros H W] ci u v = 0.
Proof.
  unfold px3. destruct ci as [|ci]; simpl.
  - unfold zeros. rewrite px_tabulate.
    now destruct ((0 <=? u)%Z && (u <? Z.of_nat H)%Z && (0 <=? v)%Z && (v <? Z.of_nat W)%Z).
  - destruct ci; apply px_nil.
Qed.

Lemma conv_entry_zero_image (c : Conv2d) (w : tensor4) (H W o i j : nat) :
  bias c = None -> conv_entry c w [zeros H W] o i j == 0.
Proof.
  intros Hb. unfold conv_entry, bias_at. rewrite Hb.
  rewrite Reconstruction.sum_upto_zero; [reflexivity|].
  intros ci. apply Reconstruction.sum_upto_zero; intros a.
  apply Reconstruction.sum_upto_zero; intros b.
  rewrite px3_zeros. ring.
Qed.

Lemma abs_response_sum_zero_image (c : Conv2d) (H W : nat) :
  bias c = None -> abs_response_sum c [zeros H W] == 0.
Proof.
  intros Hb. rewrite abs_response_sum_entries.
  apply Reconstruction.sum_upto_zero; intros o.
  apply Reconstruction.sum_upto_zero; intros i.
  apply Reconstruction.sum_upto_zero; intros j.
  rewrite (conv_entry_zero_image c (weight c) H W o i j Hb). reflexivity.
Qed.

Lemma abs_response_sums_zero_image (l : list Conv2d) (H W : nat) :
  Forall (fun c => bias c = None) l ->
  sumQ (map (fun c => abs_response_sum c [zeros H W]) l) == 0.
Proof.
  intros Hb. induction Hb as [|c l Hc Hl IH]; [reflexivity|].
  cbn [map sumQ fold_right]. unfold sumQ in IH.
  rewrite IH, (abs_response_sum_zero_image c H W Hc). reflexivity.
Qed.

Lemma sum_squares_zero_image (H W : nat) :
  sumQ (map (fun v => v ^ 2) (flatten3 [zeros H W])) == 0.
Proof.
  rewrite (sum_squares_image H W (zeros H W)) by apply Convexity.rect_tabulate_shape.
  apply Reconstruction.sum_upto_zero; intros i.
  apply Reconstruction.sum_upto_zero; intros j.
  change (px (zeros H W) (Z.of_nat i) (Z.of_nat j))
    with (px3 [zeros H W] 0 (Z.of_nat i) (Z.of_nat j)).
  rewrite px3_zeros. simpl. ring.
Qed.

(** X8.  The filter bank vanishes at the zero image: its convolutions have
    no bias, so every response is 0 there, and so is the squared norm.  With
    a softplus that is never negative the zero image is therefore a minimiser
    of the bank. *)
Theorem SFB_forward_zero_image (m : SFB) (H W : nat) :
  (0 < n_kernels m)%nat -> length (conv m) = n_kernels m ->
  (SFBParam.L2net (SFB_model_parameters m) = true -> SFB_L2net m <> None) ->
  Forall (fun c => bias c = None) (conv m) ->
  exists v, SFB_forward softplus m [[zeros H W]] = inr [[v]] /\ v == 0.
Proof.
  intros Hn HL HL2 Hb.
  exists (SFB_value softplus m [zeros H W]).
  rewrite (SFB_forward_value softplus m _ Hn HL HL2). split; [reflexivity|].
  unfold SFB_value. cbv zeta.
  pose proof (abs_response_sums_zero_image (conv m) H W Hb) as Hfoe.
  assert (Hscaled :
    softplus (penalty m)
    * fold_left Qplus (map (fun c => abs_response_sum c [zeros H W]) (conv m)) 0 == 0).
  { rewrite fold_left_Qplus, Hfoe. ring. }
  destruct (SFBParam.L2net (SFB_model_parameters m)); [|exact Hscaled].
  destruct (SFB_L2net m) as [l2|]; [|exact Hscaled].
  rewrite Hscaled, sum_squares_zero_image. ring.
Qed.

End WithSoftplus.

Lemma SFB_forward_convex_witness :
  (0 < n_kernels Examples.small_SFB)%nat /\
  length (conv Examples.small_SFB) = n_kernels Examples.small_SFB /\
  (SFBParam.L2net (SFB_model_parameters Examples.small_SFB) = true ->
   SFB_L2net Examples.small_SFB <> None) /\
  (forall v, 0 <= Examples.rational_softplus v) /\
  rect 2 3 Examples.image_a /\ rect 2 3 Examples.image_b /\
  0 <= 1 # 3 /\ 1 # 3 <= 1 /\
  exists vt v1 v2,
    SFB_forward Examples.rational_softplus Examples.small_SFB
      [[mix (1 # 3) Examples.image_a Examples.image_b]] = inr [[vt]] /\
    SFB_forward Examples.rational_softplus Examples.small_SFB [[Examples.image_a]]
    = inr [[v1]] /\
    SFB_forward Examples.rational_softplus Examples.small_SFB [[Examples.image_b]]
    = inr [[v2]] /\
    vt <= (1 # 3) * v1 + (1 - (1 # 3)) * v2.
Proof.
  destruct small_SFB_ready as (Hn & HL & HL2).
  assert (Ra : rect 2 3 Examples.image_a) by (apply rectb_rect; reflexivity).
  assert (Rb : rect 2 3 Examples.image_b) by (apply rectb_rect; reflexivity).
  assert (H0 : 0 <= 1 # 3) by (vm_compute; discriminate).
  assert (H1 : 1 # 3 <= 1) by (vm_compute; discriminate).
  repeat (split; [assumption|]). split; [exact rational_softplus_nonneg|].
  repeat (split; [assumption|]).
  exact (SFB_forward_convex Examples.rational_softplus Examples.small_SFB (1 # 3) 2 3
           Examples.image_a Examples.image_b Hn HL HL2 rational_softplus_nonneg
           Ra Rb H0 H1).
Defined.

Lemma SFB_forward_zero_image_witness :
  (0 < n_kernels Examples.small_SFB)%nat /\
  length (conv Examples.small_SFB) = n_kernels Examples.small_SFB /\
  (SFBParam.L2net (SFB_model_parameters Examples.small_SFB) = true ->
   SFB_L2net Examples.small_SFB <> None) /\
  Forall (fun c => bias c = None) (conv Examples.small_SFB) /\
  exists v, SFB_forward Examples.rational_softplus Examples.small_SFB [[zeros 2 3]]
            = inr [[v]] /\ v == 0.
Proof.
  destruct small_SFB_ready as (Hn & HL & HL2).
  assert (Hb : Forall (fun c => bias c = None) (conv Examples.small_SFB))
    by (repeat constructor).
  repeat (split; [assumption|]).
  exact (SFB_forward_zero_image Examples.rational_softplus Examples.small_SFB 2 3
           Hn HL HL2 Hb).
Defined.

End FilterBankConvexity.

(* ================================================================== *)
(** ** More on the reconstruction loop *)
(* ================================================================== *)

Module ReconstructionRounds.
Import ACR ACRSpec Reconstruction.

Section Loop.

Variable gradient : (batch -> Q) -> batch -> batch.
Variable self : ACR.
Variable attrs : Attributes.
Variable y_0 : batch.

Let iteration := iteration gradient self attrs y_0.
Let state_at := state_at gradient self attrs y_0.
Let iterates_from := iterates_from gradient self attrs y_0.
Let iterates_performed := iterates_performed gradient self attrs y_0.
Let reconstruction := reconstruction gradient self attrs y_0.
Let estimate_at := estimate_at gradient self attrs y_0.

(** Without a reference, or with early stopping off, a round never
    returns. *)
Lemma iteration_goes_on (x_t : option batch) (s : loop_state) :
  x_t = None \/ params_earlystop attrs = false ->
  exists s', iteration x_t s = inl s'.
Proof.
  intros Hno. unfold iteration, ACR.iteration.
  destruct x_t as [xt|].
  - destruct Hno as [E|E]; [discriminate|]. rewrite E. simpl.
    destruct (SGD_step attrs (x_0 s) _ (momentum_buffer s)). eauto.
  - destruct (SGD_step attrs (x_0 s) _ (momentum_buffer s)). eauto.
Qed.

Lemma state_at_defined (x_t : option batch) (j : nat) :
  x_t = None \/ params_earlystop attrs = false ->
  0 <= param_var_step attrs ->
  0 <= param_var_momentum attrs ->
  exists s, state_at x_t j = Some s.
Proof.
  intros Hno Hs Hm. induction j as [|j [s Es]]; simpl.
  - unfold state_at. simpl. rewrite (initial_state_ok attrs y_0 Hs Hm). eauto.
  - destruct (iteration_goes_on x_t s Hno) as [s' Es'].
    exists s'. unfold state_at in *. simpl. rewrite Es.
    unfold iteration in Es'. now rewrite Es'.
Qed.

Lemma length_iterates_from (x_t : option batch) (n : nat) (s : loop_state) :
  x_t = None \/ params_earlystop attrs = false ->
  length (iterates_from x_t n s) = S n.
Proof.
  intros Hno. revert s; induction n as [|n IH]; intros s; [reflexivity|].
  unfold iterates_from in *. simpl.
  destruct (iteration_goes_on x_t s Hno) as [s' Es']. unfold iteration in Es'.
  rewrite Es'. simpl. now rewrite IH.
Qed.

(** X9.  Without a reference image ([x_t = None]), or with early stopping
    switched off, and with a step size and a momentum that the optimizer
    accepts (neither is negative), the loop is never left early: all
    [iterates] rounds run, the run goes through [iterates + 1] estimates, and
    the result is the estimate left by the last round. *)
Theorem reconstruction_runs_all_rounds (x_t : option batch) :
  x_t = None \/ params_earlystop attrs = false ->
  0 <= param_var_step attrs ->
  0 <= param_var_momentum attrs ->
  length (iterates_performed x_t) = S (args_iterates attrs) /\
  (forall j, exists s, state_at x_t j = Some s) /\
  reconstruction x_t = inr (estimate_at x_t (args_iterates attrs), S (cntr attrs)).
Proof.
  intros Hno Hs Hm. split; [|split].
  - unfold iterates_performed, ACR.iterates_performed.
    rewrite (initial_state_ok attrs y_0 Hs Hm). now apply length_iterates_from.
  - intros j. now apply state_at_defined.
  - destruct (state_at_defined x_t (args_iterates attrs) Hno Hs Hm) as [s Es].
    unfold estimate_at, ACRSpec.estimate_at. unfold state_at in Es. rewrite Es.
    unfold reconstruction, ACR.reconstruction.
    rewrite (initial_state_ok attrs y_0 Hs Hm).
    rewrite <- (Nat.add_0_r (args_iterates attrs)) at 1.
    now rewrite (for_loop_from gradient self attrs y_0 x_t _ 0 s Es).
Qed.

(** X10.  The metric of the first round is compared with the initial value 0
    of [curpsn]: if the metric of the filtered backprojection is negative (and
    early stopping is on, with at least one round to run, and an optimizer
    built with a step size and a momentum that are not negative), the very
    first round returns and the result is the filtered backprojection,
    untouched by any gradient step. *)
Theorem negative_initial_metric_stops_at_once (xt : batch) :
  params_earlystop attrs = true ->
  (0 < args_iterates attrs)%nat ->
  psnr attrs (fbp_op_mod attrs y_0) xt < 0 ->
  0 <= param_var_step attrs ->
  0 <= param_var_momentum attrs ->
  reconstruction (Some xt) = inr (fbp_op_mod attrs y_0, S (cntr attrs)) /\
  iterates_performed (Some xt) = [fbp_op_mod attrs y_0].
Proof.
  intros He Hn Hneg Hs Hm.
  unfold reconstruction, iterates_performed, ACR.reconstruction, ACR.iterates_performed.
  rewrite (initial_state_ok attrs y_0 Hs Hm).
  match goal with
  | |- context [ACR.for_loop _ _ _ _ _ _ ?s0] =>
    pose proof (iteration_stops gradient self attrs y_0 xt s0 He Hneg) as Estop
  end.
  destruct (args_iterates attrs) as [|n]; [lia|]. simpl.
  rewrite Estop. split; reflexivity.
Qed.

End Loop.

Lemma reconstruction_runs_all_rounds_witness :
  (Some Examples.one_pixel_reference = None \/
   params_earlystop MoreExamples.one_pixel_no_earlystop = false) /\
  0 <= param_var_step MoreExamples.one_pixel_no_earlystop /\
  0 <= param_var_momentum MoreExamples.one_pixel_no_earlystop /\
  length (iterates_performed Examples.zero_gradient Examples.flat_model
            MoreExamples.one_pixel_no_earlystop Examples.one_pixel_sinogram
            (Some Examples.one_pixel_reference)) = 11%nat.
Proof.
  assert (H : Some Examples.one_pixel_reference = None \/
              params_earlystop MoreExamples.one_pixel_no_earlystop = false)
    by (right; reflexivity).
  assert (Hs : 0 <= param_var_step MoreExamples.one_pixel_no_earlystop)
    by (vm_compute; discriminate).
  assert (Hm : 0 <= param_var_momentum MoreExamples.one_pixel_no_earlystop)
    by (vm_compute; discriminate).
  repeat (split; [assumption|]).
  exact (proj1 (reconstruction_runs_all_rounds Examples.zero_gradient Examples.flat_model
                  MoreExamples.one_pixel_no_earlystop Examples.one_pixel_sinogram
                  (Some Examples.one_pixel_reference) H Hs Hm)).
Defined.

Lemma negative_initial_metric_stops_at_once_witness :
  params_earlystop Examples.one_pixel = true /\
  (0 < args_iterates Examples.one_pixel)%nat /\
  psnr Examples.one_pixel (fbp_op_mod Examples.one_pixel Examples.one_pixel_sinogram)
    MoreExamples.far_reference < 0 /\
  0 <= param_var_step Examples.one_pixel /\
  0 <= param_var_momentum Examples.one_pixel /\
  reconstruction Examples.zero_gradient Examples.flat_model Examples.one_pixel
    Examples.one_pixel_sinogram (Some MoreExamples.far_reference)
  = inr (Examples.one_pixel_sinogram, 1%nat).
Proof.
  assert (He : params_earlystop Examples.one_pixel = true) by reflexivity.
  assert (Hn : (0 < args_iterates Examples.one_pixel)%nat) by (vm_compute; lia).
  assert (Hneg : psnr Examples.one_pixel
                   (fbp_op_mod Examples.one_pixel Examples.one_pixel_sinogram)
                   MoreExamples.far_reference < 0) by (vm_compute; reflexivity).
  assert (Hs : 0 <= param_var_step Examples.one_pixel) by (vm_compute; discriminate).
  assert (Hm : 0 <= param_var_momentum Examples.one_pixel) by (vm_compute; discriminate).
  repeat (split; [assumption|]).
  exact (proj1 (negative_initial_metric_stops_at_once Examples.zero_gradient
                  Examples.flat_model Examples.one_pixel Examples.one_pixel_sinogram
                  MoreExamples.far_reference He Hn Hneg Hs Hm)).
Defined.

End ReconstructionRounds.

(* ================================================================== *)
(** ** More on the splits of the sinogram *)
(* ================================================================== *)

Module Splits.
Import Noise2Inverse SliceFacts.

Local Open Scope nat_scope.

Lemma mod_of_offset (K i idx : nat) :
  0 < K -> i < K -> i <= idx -> (idx - i) mod K = 0 -> i = idx mod K.
Proof.
  intros HK Hi Hle Hm.
  pose proof (Nat.div_mod (idx - i) K ltac:(lia)) as E. rewrite Hm, Nat.add_0_r in E.
  replace idx with (i + (idx - i) / K * K) by lia.
  rewrite Nat.Div0.mod_add. symmetry. now apply Nat.mod_small.
Qed.

Section WithOperator.

Variable Other : Type.
Variable Operator : Type.
Variable make_operator : Geometry Other -> Operator.

(** X11.  The [K] angle subsets that [make_sub_operators] hands to the
    operators are pairwise disjoint and together hold every angle but the
    last one: angle number [idx] goes to split [idx mod K] and to no other,
    and the last angle goes to no operator at all. *)
Theorem sub_operator_angles_partition (geo : Geometry Other) (K : nat) :
  0 < K ->
  let len := length (angles geo) in
  let taken i := slice_indices len (Z.of_nat i) (-1) K in
  fst (make_sub_operators Other Operator make_operator geo K)
  = map (fun i => make_operator (set_angles geo (select (angles geo) (taken i)))) (seq 0 K) /\
  (forall idx, idx + 1 < len -> idx mod K < K /\ In idx (taken (idx mod K))) /\
  (forall idx i, i < K -> In idx (taken i) -> idx + 1 < len /\ i = idx mod K) /\
  (forall i, i < K -> ~ In (len - 1) (taken i)).
Proof.
  intros HK len taken. split; [|split; [|split]].
  - unfold make_sub_operators. rewrite SubOperators.sub_operators_loop_spec. reflexivity.
  - intros idx Hidx.
    assert (Hm : idx mod K < K) by (apply Nat.mod_upper_bound; lia).
    split; [exact Hm|].
    apply in_slice_indices_to_last; [exact HK|].
    assert (Hle : idx mod K <= idx) by (apply Nat.Div0.mod_le).
    repeat split; try assumption.
    pose proof (Nat.div_mod idx K ltac:(lia)) as E.
    replace (idx - idx mod K) with (idx / K * K) by lia.
    apply Nat.Div0.mod_mul.
  - intros idx i Hi Hin. apply in_slice_indices_to_last in Hin; [|exact HK].
    destruct Hin as (Hle & Hlt & Hm). split; [exact Hlt|].
    now apply mod_of_offset.
  - intros i Hi Hin. apply in_slice_indices_to_last in Hin; [|exact HK].
    unfold len in *. lia.
Qed.

End WithOperator.

Lemma sub_operator_angles_partition_witness :
  0 < 4 /\
  (forall idx i, i < 4 ->
     In idx (slice_indices (length (angles Examples.geo360)) (Z.of_nat i) (-1) 4) ->
     idx + 1 < length (angles Examples.geo360) /\ i = idx mod 4).
Proof.
  assert (H4 : 0 < 4) by lia.
  split; [exact H4|].
  exact (proj1 (proj2 (proj2
    (sub_operator_angles_partition unit Examples.recorded_operator Examples.record_geometry
       Examples.geo360 4 H4)))).
Defined.

Lemma nth_map_default {A B} (f : A -> B) (l : list A) (n : nat) (dA : A) (dB : B) :
  n < length l -> nth n (map f l) dB = f (nth n l dA).
Proof.
  intros Hn. rewrite (nth_indep _ dB (f dA)) by (now rewrite length_map).
  apply map_nth.
Qed.

Section WithSolver.

Variable Operator : Type.
Variable recon_fn : Operator -> image -> fmaps.
Variable self : Noise2Inverse_solver Operator.

Let K := sino_splits Operator self.

(** The sub-reconstructions of one sinogram. *)
Lemma sample_sub_recons_spec (sample : fmaps) (n split : nat) :
  split + n <= length (sub_op Operator self) ->
  exists rs,
    sample_sub_recons Operator recon_fn self sample n split = inr rs /\
    length rs = n /\
    forall k, k < n ->
      exists op, nth_error (sub_op Operator self) (split + k) = Some op /\
        nth k rs []
        = recon_fn op (py_slice (nth 0 sample []) (Z.of_nat (split + k)) (-1) K).
Proof.
  revert split; induction n as [|n IH]; intros split Hle; simpl.
  - exists []. repeat split. intros k Hk; lia.
  - destruct (nth_error (sub_op Operator self) split) as [op|] eqn:E.
    2:{ apply nth_error_None in E. lia. }
    destruct (IH (S split)) as (rs & Ers & HL & Hall); [lia|].
    rewrite Ers. eexists. split; [reflexivity|]. split; [simpl; now rewrite HL|].
    intros [|k] Hk.
    + exists op. rewrite Nat.add_0_r. split; [exact E|reflexivity].
    + destruct (Hall k ltac:(lia)) as (op' & Eop & Ek).
      exists op'. replace (split + S k) with (S split + k) by lia. split; assumption.
Qed.

Lemma batch_sub_recons_spec (data : batch) :
  length (sub_op Operator self) = K ->
  exists rows,
    batch_sub_recons Operator recon_fn self data = inr rows /\
    length rows = length data /\
    forall sino split, sino < length data -> split < K ->
      exists op, nth_error (sub_op Operator self) split = Some op /\
        nth split (nth sino rows []) []
        = recon_fn op (py_slice (nth 0 (nth sino data []) []) (Z.of_nat split) (-1) K).
Proof.
  intros HL. induction data as [|sample data IH]; simpl.
  - exists []. repeat split. intros sino split Hs; simpl in Hs; lia.
  - destruct (sample_sub_recons_spec sample K 0) as (rs & Ers & Hlen & Hrs); [lia|].
    fold K. rewrite Ers.
    destruct IH as (rows & Erows & Hrows & Hall). rewrite Erows.
    eexists. split; [reflexivity|]. split; [simpl; now rewrite Hrows|].
    intros [|sino] split Hs Hsp; simpl.
    + exact (Hrs split Hsp).
    + apply Hall; [simpl in Hs; lia|exact Hsp].
Qed.

(** X12.  [compute_noisy_sub_recon] fills [bad_recon] completely: it has one
    row per split, each with one entry per sinogram, and entry [split, sino]
    is the reconstruction, with the operator of that split, of the sinogram
    rows [split], [split + K], ... (the last row left out). *)
Theorem compute_noisy_sub_recon_entries (data target : batch) :
  length (sub_op Operator self) = K ->
  exists bad_recon,
    compute_noisy_sub_recon Operator recon_fn self data target = inr bad_recon /\
    length bad_recon = K /\
    forall split, split < K ->
      length (nth split bad_recon []) = length data /\
      forall sino, sino < length data ->
        exists op, nth_error (sub_op Operator self) split = Some op /\
          at2 bad_recon split sino
          = recon_fn op (py_slice (nth 0 (nth sino data []) []) (Z.of_nat split) (-1) K).
Proof.
  intros HL. destruct (batch_sub_recons_spec data HL) as (rows & Erows & Hrows & Hall).
  unfold compute_noisy_sub_recon. rewrite Erows. eexists. split; [reflexivity|].
  fold K. split; [now rewrite length_map, length_seq|].
  intros split Hsp.
  assert (Hlt : (split <? K) = true) by (apply Nat.ltb_lt; exact Hsp).
  split.
  - rewrite Reconstruction.nth_map_seq, Hlt, length_map. exact Hrows.
  - intros sino Hs. destruct (Hall sino split Hs Hsp) as (op & Eop & E).
    exists op. split; [exact Eop|]. unfold at2.
    rewrite Reconstruction.nth_map_seq, Hlt.
    etransitivity; [|exact E].
    apply (nth_map_default (fun row : list fmaps => nth split row []) rows sino [] []).
    lia.
Qed.

End WithSolver.

Lemma compute_noisy_sub_recon_entries_witness :
  length (sub_op _ Examples.solver3) = sino_splits _ Examples.solver3 /\
  exists bad_recon,
    compute_noisy_sub_recon Examples.recorded_operator Examples.shift_recon Examples.solver3
      Examples.sinograms Examples.clean_images = inr bad_recon /\
    length bad_recon = 3.
Proof.
  assert (HL : length (sub_op _ Examples.solver3) = sino_splits _ Examples.solver3)
    by reflexivity.
  split; [exact HL|].
  destruct (compute_noisy_sub_recon_entries Examples.recorded_operator Examples.shift_recon
              Examples.solver3 Examples.sinograms Examples.clean_images HL)
    as (bad & E & Hlen & _).
  exists bad. split; assumption.
Defined.

(** Reading several positions of a list of pairs is reading them in both
    lists. *)
Lemma select_combine {A B} (l : list A) (r : list B) (indices : list nat) :
  length l = length r ->
  select (combine l r) indices = combine (select l indices) (select r indices).
Proof.
  intros HL. unfold select. induction indices as [|i indices IH]; simpl; [reflexivity|].
  rewrite IH. clear IH.
  destruct (Nat.ltb_spec i (length l)) as [Hlt|Hge].
  - destruct (nth_error l i) as [a|] eqn:Ea; [|apply nth_error_None in Ea; lia].
    destruct (nth_error r i) as [b|] eqn:Eb; [|apply nth_error_None in Eb; lia].
    assert (Ec : nth_error (combine l r) i = Some (a, b)).
    { clear - Ea Eb. revert r i Ea Eb.
      induction l as [|x l IH]; intros [|y r] [|i]; simpl; try discriminate.
      - intros E1 E2; inversion E1; inversion E2; reflexivity.
      - intros E1 E2. now apply IH. }
    rewrite Ec. reflexivity.
  - assert (Ea : nth_error l i = None) by (apply nth_error_None; lia).
    assert (Eb : nth_error r i = None) by (apply nth_error_None; lia).
    assert (Ec : nth_error (combine l r) i = None).
    { apply nth_error_None. rewrite length_combine. lia. }
    rewrite Ea, Eb, Ec. reflexivity.
Qed.

Section WithGeometry.

Variable Other : Type.
Variable Operator : Type.
Variable make_operator : Geometry Other -> Operator.
Variable recon_fn : Operator -> image -> fmaps.

(** X13.  Operator and data stay in step: on the solver that [__init__]
    builds from a geometry, when every sinogram has one row per angle of that
    geometry, entry [split, sino] of [bad_recon] is [recon_fn] applied to the
    operator made for the angles [angles[split:-1:K]] and to the rows
    [data[sino, 0, split:-1:K]]; these rows are as many as the operator has
    angles, and each row is paired with the angle it had in the full
    sinogram. *)
Theorem sinogram_slice_matches_operator (geo : Geometry Other) (K : nat)
    (data target : batch) :
  0 < K ->
  (forall sino, sino < length data ->
     length (nth 0 (nth sino data []) []) = length (angles geo)) ->
  exists self geo' bad_recon,
    Noise2Inverse_solver_init Other Operator make_operator (Some geo) K = inr (self, geo') /\
    compute_noisy_sub_recon Operator recon_fn self data target = inr bad_recon /\
    forall split sino, split < K -> sino < length data ->
      let rows := nth 0 (nth sino data []) [] in
      let sub_angles := py_slice (angles geo) (Z.of_nat split) (-1) K in
      let sub_rows := py_slice rows (Z.of_nat split) (-1) K in
      nth_error (sub_op Operator self) split
      = Some (make_operator (set_angles geo sub_angles)) /\
      at2 bad_recon split sino
      = recon_fn (make_operator (set_angles geo sub_angles)) sub_rows /\
      length sub_rows = length sub_angles /\
      combine sub_angles sub_rows
      = py_slice (combine (angles geo) rows) (Z.of_nat split) (-1) K.
Proof.
  intros HK Hrows.
  unfold Noise2Inverse_solver_init, make_sub_operators.
  rewrite SubOperators.sub_operators_loop_spec.
  set (ops := map (fun k => make_operator
                (set_angles geo (py_slice (angles geo) (Z.of_nat k) (-1) K))) (seq 0 K)).
  set (self := {| sino_splits := K; sub_op := ops |}).
  assert (HL : length (sub_op Operator self) = sino_splits Operator self)
    by (unfold self, ops; cbn [sub_op sino_splits]; now rewrite length_map, length_seq).
  destruct (batch_sub_recons_spec Operator recon_fn self data HL)
    as (rws & Erows & Hlen & Hall).
  eexists self, _, _. split; [reflexivity|].
  unfold compute_noisy_sub_recon. rewrite Erows. split; [reflexivity|].
  intros split sino Hsp Hs. cbv zeta.
  assert (Hlt : (split <? K) = true) by (apply Nat.ltb_lt; exact Hsp).
  assert (Eop : nth_error (sub_op Operator self) split
                = Some (make_operator
                          (set_angles geo (py_slice (angles geo) (Z.of_nat split) (-1) K)))).
  { unfold self, ops. cbn [sub_op].
    rewrite (nth_error_nth' _ (make_operator geo))
      by (now rewrite length_map, length_seq).
    now rewrite Reconstruction.nth_map_seq, Hlt. }
  split; [exact Eop|]. split; [|split].
  - destruct (Hall sino split Hs Hsp) as (op & Eop' & E).
    rewrite Eop in Eop'. inversion Eop'; subst op.
    unfold at2. change (sino_splits Operator self) with K.
    rewrite Reconstruction.nth_map_seq, Hlt.
    etransitivity; [|exact E].
    apply (nth_map_default (fun row : list fmaps => nth split row []) rws sino [] []).
    lia.
  - rewrite !length_py_slice_to_last by exact HK. now rewrite (Hrows sino Hs).
  - unfold py_slice. rewrite length_combine, (Hrows sino Hs), Nat.min_id.
    rewrite select_combine by (symmetry; exact (Hrows sino Hs)).
    reflexivity.
Qed.

End WithGeometry.

Lemma sinogram_slice_matches_operator_witness :
  0 < 3 /\
  (forall sino, sino < length Examples.sinograms ->
     length (nth 0 (nth sino Examples.sinograms []) []) = length (angles Examples.geo7)) /\
  exists self geo' bad_recon,
    Noise2Inverse_solver_init unit Examples.recorded_operator Examples.record_geometry
      (Some Examples.geo7) 3 = inr (self, geo') /\
    compute_noisy_sub_recon Examples.recorded_operator Examples.shift_recon self
      Examples.sinograms Examples.clean_images = inr bad_recon /\
    length (py_slice (nth 0 (nth 1 Examples.sinograms []) []) 2 (-1) 3)
    = length (py_slice (angles Examples.geo7) 2 (-1) 3).
Proof.
  assert (H3 : 0 < 3) by lia.
  assert (HR : forall sino, sino < length Examples.sinograms ->
                 length (nth 0 (nth sino Examples.sinograms []) [])
                 = length (angles Examples.geo7)).
  { intros sino Hs. destruct sino as [|[|sino]]; [reflexivity|reflexivity|].
    simpl in Hs. lia. }
  split; [exact H3|]. split; [exact HR|].
  destruct (sinogram_slice_matches_operator unit Examples.recorded_operator
              Examples.record_geometry Examples.shift_recon Examples.geo7 3
              Examples.sinograms Examples.clean_images H3 HR)
    as (self & geo' & bad & Ei & Eb & Hall).
  exists self, geo', bad. split; [exact Ei|]. split; [exact Eb|].
  exact (proj1 (proj2 (proj2 (Hall 2 1 ltac:(lia) ltac:(simpl; lia))))).
Defined.

End Splits.

(* ================================================================== *)
(** ** The training and evaluation loops *)
(* ================================================================== *)

Module TrainingFacts.
Import Noise2Inverse SliceFacts Training.

Local Open Scope nat_scope.

Section WithSolver.

Variable Operator : Type.
Variable recon_fn : Operator -> image -> fmaps.
Variable Weights : Type.
Variable model : Weights -> batch -> batch.
Variable model_eval : Weights -> batch -> batch.
Variable loss_fn : batch -> batch -> Q.
Variable optimizer_update : Weights -> batch -> batch -> Weights.
Variable Rng : Type.
Variable next_raw : Rng -> nat * Rng.

Let mini_batch_step :=
  mini_batch_step Operator recon_fn Weights model loss_fn optimizer_update Rng next_raw.
Let choose_targets := choose_targets Operator Rng next_raw.

(** The draws made by the loop over the sinograms. *)
Lemma choose_targets_draws (self : Noise2Inverse_solver Operator)
    (bad_recon : list (list fmaps)) (n sino : nat) (g : Rng) :
  0 < sino_splits Operator self ->
  exists random_target label_array,
    choose_targets self bad_recon n sino g
    = inr (random_target, label_array, advance next_raw n g).
Proof.
  intros HK. revert sino g; induction n as [|n IH]; intros sino g; simpl.
  - eexists _, _. reflexivity.
  - unfold choose_targets in *. simpl. unfold randint.
    destruct (sino_splits Operator self) as [|k] eqn:EK; [lia|].
    destruct (next_raw g) as [r g1] eqn:Eg. simpl.
    destruct (IH (S sino) g1) as (rt & la & E). rewrite E.
    eexists _, _. reflexivity.
Qed.

Lemma batch_sub_recons_no_split (self : Noise2Inverse_solver Operator) (data : batch) :
  sino_splits Operator self = 0 ->
  batch_sub_recons Operator recon_fn self data = inr (map (fun _ => []) data).
Proof.
  intros E. induction data as [|sample data IH]; simpl; [reflexivity|].
  rewrite E. simpl. now rewrite IH.
Qed.

(** X14.  Edge cases of [mini_batch_step]: with no split at all
    ([sino_splits = 0]) and a batch that is not empty, the call fails with the
    [ValueError] of [randint(0)]; with an empty batch it draws nothing and
    steps the optimizer on empty tensors. *)
Theorem mini_batch_step_edge_cases (self : Noise2Inverse_solver Operator)
    (w : Weights) (g : Rng) (data target : batch) :
  (sino_splits Operator self = 0 -> data <> [] ->
   mini_batch_step self w g data target = inl (ValueError "high <= 0")) /\
  (data = [] ->
   mini_batch_step self w g data target
   = inr (loss_fn (model w []) [], optimizer_update w [] [], g)).
Proof.
  split.
  - intros E Hne. unfold mini_batch_step, Noise2Inverse.mini_batch_step,
      compute_noisy_sub_recon.
    rewrite (batch_sub_recons_no_split self data E).
    destruct data as [|sample data]; [congruence|]. simpl.
    unfold randint. now rewrite E.
  - intros ->. unfold mini_batch_step, Noise2Inverse.mini_batch_step,
      compute_noisy_sub_recon. reflexivity.
Qed.

(** What one mini-batch step does to the random source. *)
Lemma mini_batch_step_draws (self : Noise2Inverse_solver Operator)
    (w : Weights) (g : Rng) (data target : batch) :
  0 < sino_splits Operator self ->
  length (sub_op Operator self) = sino_splits Operator self ->
  exists loss w',
    mini_batch_step self w g data target
    = inr (loss, w', advance next_raw (length data) g).
Proof.
  intros HK HL.
  destruct (MiniBatch.compute_noisy_sub_recon_total Operator recon_fn self data target HL)
    as [bad Eb].
  destruct (choose_targets_draws self bad (length data) 0 g HK) as (rt & la & Ec).
  unfold mini_batch_step, Noise2Inverse.mini_batch_step. rewrite Eb.
  unfold choose_targets in Ec. rewrite Ec. eexists _, _. reflexivity.
Qed.

(** X15.  A mini-batch step on a solver with [K >= 1] splits returns, and it
    takes exactly one draw from the random source per sinogram of the batch,
    no more and no fewer. *)
Theorem mini_batch_step_one_draw_per_sinogram (self : Noise2Inverse_solver Operator)
    (w : Weights) (g : Rng) (data target : batch) :
  0 < sino_splits Operator self ->
  length (sub_op Operator self) = sino_splits Operator self ->
  exists loss w',
    mini_batch_step self w g data target
    = inr (loss, w', advance next_raw (length data) g).
Proof. apply mini_batch_step_draws. Qed.

Lemma advance_add (a b : nat) (g : Rng) :
  advance next_raw (a + b) g = advance next_raw b (advance next_raw a g).
Proof.
  revert g; induction a as [|a IH]; intros g; simpl; [reflexivity|apply IH].
Qed.

Variable self : Solver Operator.

Let K := sino_splits Operator (core Operator self).
Let train_batches :=
  train_batches Operator recon_fn Weights model loss_fn optimizer_update Rng next_raw self.
Let train_step :=
  train_step Operator recon_fn Weights model loss_fn optimizer_update Rng next_raw self.
Let train_loop :=
  train_loop Operator recon_fn Weights model loss_fn optimizer_update Rng next_raw self.
Let train :=
  train Operator recon_fn Weights model loss_fn optimizer_update Rng next_raw self.
Let test := test Operator recon_fn Weights model_eval loss_fn Rng next_raw self.

Lemma train_batches_ok (batches : loader) (w : Weights) (g : Rng) (acc : Q) :
  0 < K -> length (sub_op Operator (core Operator self)) = K ->
  exists losses w',
    train_batches batches w g acc
    = inr (fold_left Qplus losses acc, w', advance next_raw (sinogram_count batches) g) /\
    length losses = length batches.
Proof.
  intros HK HL. revert w g acc; induction batches as [|[data target] rest IH];
    intros w g acc; simpl.
  - exists [], w. split; reflexivity.
  - destruct (mini_batch_step_draws (core Operator self) w g data target HK HL)
      as (loss & w1 & E).
    unfold train_batches in *. simpl. unfold mini_batch_step in E. rewrite E.
    destruct (IH w1 (advance next_raw (length data) g) (acc + loss)%Q)
      as (losses & w2 & E2 & Hlen).
    rewrite E2. exists (loss :: losses), w2. split.
    + simpl. now rewrite advance_add.
    + simpl. now rewrite Hlen.
Qed.


Lemma train_step_ok (w : Weights) (g : Rng) :
  train_loader Operator self <> [] ->
  0 < K -> length (sub_op Operator (core Operator self)) = K ->
  exists loss w',
    train_step w g
    = inr (loss, w', advance next_raw (sinogram_count (train_loader Operator self)) g).
Proof.
  intros Hne HK HL.
  destruct (train_batches_ok (train_loader Operator self) w g 0%Q HK HL)
    as (losses & w' & E & _).
  unfold train_step, Training.train_step. unfold train_batches in E. rewrite E.
  destruct (train_loader Operator self) as [|b rest]; [congruence|].
  eexists _, _. reflexivity.
Qed.

Lemma length_array_set (arr : list Q) (i : nat) (v : Q) :
  length (array_set arr i v) = length arr.
Proof.
  revert i; induction arr as [|a arr IH]; intros [|i]; simpl; auto.
Qed.

(** The epochs of [range(n)] after which a checkpoint is saved. *)
Let checkpoint_epochs (first n : nat) : list nat :=
  filter (fun e => Nat.eqb ((e + 1) mod checkpoint_freq Operator self) 0) (seq first n).

(** One round of the loop of [train]. *)
Lemma train_loop_round (n epoch : nat) (st : State Weights Rng)
    (loss : Q) (w' : Weights) (g' : Rng) :
  train_step (weights Weights Rng st) (rng Weights Rng st) = inr (loss, w', g') ->
  0 < checkpoint_freq Operator self ->
  train_loop (S n) epoch st
  = train_loop n (S epoch)
      {| weights := w'; rng := g';
         train_loss := array_set (train_loss Weights Rng st) epoch loss;
         saved_checkpoints :=
           (if Nat.eqb ((epoch + 1) mod checkpoint_freq Operator self) 0
            then [epoch] else []) ++ saved_checkpoints Weights Rng st;
         current_epoch := current_epoch Weights Rng st |}.
Proof.
  intros E Hf. unfold train_loop. simpl. unfold epoch_step.
  unfold train_step in E. rewrite E.
  destruct (checkpoint_freq Operator self) as [|f] eqn:Ef; [lia|].
  now destruct (Nat.eqb ((epoch + 1) mod S f) 0).
Qed.

Lemma train_loop_ok (n epoch : nat) (st : State Weights Rng) :
  train_loader Operator self <> [] ->
  0 < K -> length (sub_op Operator (core Operator self)) = K ->
  0 < checkpoint_freq Operator self ->
  exists st',
    train_loop n epoch st = inr st' /\
    length (train_loss Weights Rng st') = length (train_loss Weights Rng st) /\
    saved_checkpoints Weights Rng st'
    = rev (checkpoint_epochs epoch n) ++ saved_checkpoints Weights Rng st /\
    rng Weights Rng st'
    = advance next_raw (n * sinogram_count (train_loader Operator self))
        (rng Weights Rng st) /\
    current_epoch Weights Rng st' = current_epoch Weights Rng st.
Proof.
  intros Hne HK HL Hf. revert epoch st; induction n as [|n IH]; intros epoch st.
  - exists st. repeat split.
  - destruct (train_step_ok (weights Weights Rng st) (rng Weights Rng st) Hne HK HL)
      as (loss & w' & E).
    rewrite (train_loop_round n epoch st loss w' _ E Hf).
    match goal with
    | |- exists st', train_loop n (S epoch) ?st2 = _ /\ _ =>
      destruct (IH (S epoch) st2) as (st' & Eloop & Hlen & Hsaved & Hrng & Hcur)
    end.
    exists st'. cbn [train_loss saved_checkpoints rng current_epoch] in *.
    split; [exact Eloop|]. split; [now rewrite Hlen, length_array_set|].
    split; [|split; [|exact Hcur]].
    + rewrite Hsaved. unfold checkpoint_epochs. cbn [seq filter].
      destruct (Nat.eqb ((epoch + 1) mod checkpoint_freq Operator self) 0).
      * cbn [rev]. now rewrite <- app_assoc.
      * reflexivity.
    + rewrite Hrng. simpl. now rewrite <- advance_add.
Qed.

Lemma div_succ (n f : nat) :
  0 < f -> S n / f = n / f + (if Nat.eqb ((n + 1) mod f) 0 then 1 else 0).
Proof.
  intros Hf.
  pose proof (Nat.div_mod n f ltac:(lia)) as E.
  pose proof (Nat.mod_upper_bound n f ltac:(lia)) as Hr.
  replace (n + 1) with (S n) by lia.
  destruct (Nat.eq_dec (S (n mod f)) f) as [Eq|Ne].
  - assert (Ediv : S n = (n / f + 1) * f + 0) by nia.
    assert (Em : S n mod f = 0).
    { rewrite Ediv. rewrite Nat.add_0_r. apply Nat.Div0.mod_mul. }
    rewrite Em. simpl.
    rewrite Ediv at 1. rewrite Nat.add_0_r. rewrite Nat.div_mul by lia. reflexivity.
  - assert (Ediv : S n = f * (n / f) + S (n mod f)) by lia.
    assert (Hlt : S (n mod f) < f) by lia.
    assert (Em : S n mod f = S (n mod f))
      by (symmetry; apply (Nat.mod_unique _ _ (n / f)); assumption).
    assert (Ed : S n / f = n / f)
      by (symmetry; apply (Nat.div_unique _ _ _ (S (n mod f))); assumption).
    rewrite Em, Ed. simpl. lia.
Qed.

Lemma length_checkpoint_epochs (n : nat) :
  0 < checkpoint_freq Operator self ->
  length (checkpoint_epochs 0 n) = n / checkpoint_freq Operator self.
Proof.
  intros Hf. unfold checkpoint_epochs. induction n as [|n IH].
  - simpl. symmetry. apply Nat.Div0.div_0_l.
  - rewrite seq_S, filter_app, length_app, IH, (div_succ n _ Hf). simpl.
    now destruct (Nat.eqb ((n + 1) mod checkpoint_freq Operator self) 0).
Qed.

(** X17.  How [train] fails: a number of epochs that is not positive fails
    the assertion before anything else is looked at; an incomplete
    configuration fails next; an empty training loader or a checkpoint
    frequency of 0 fails with a [ZeroDivisionError] in the first epoch. *)
Theorem train_failures (st : State Weights Rng) (n_epochs : Z) :
  ((n_epochs <= 0)%Z ->
   train st n_epochs = inl (AssertionError "Number of epochs must be a positive integer")) /\
  ((0 < n_epochs)%Z -> forall msg, check_complete Operator self = Some msg ->
   train st n_epochs = inl (CheckError msg)) /\
  ((0 < n_epochs)%Z -> check_complete Operator self = None ->
   train_loader Operator self = [] ->
   train st n_epochs = inl (ZeroDivisionError "float division by zero")) /\
  ((0 < n_epochs)%Z -> check_complete Operator self = None ->
   train_loader Operator self <> [] ->
   0 < K -> length (sub_op Operator (core Operator self)) = K ->
   checkpoint_freq Operator self = 0 ->
   train st n_epochs = inl (ZeroDivisionError "integer modulo by zero")).
Proof.
  unfold train, Training.train. repeat split.
  - intros Hn. destruct (Z.ltb_spec 0 n_epochs); [lia|reflexivity].
  - intros Hn msg Ec. destruct (Z.ltb_spec 0 n_epochs); [|lia]. now rewrite Ec.
  - intros Hn Ec El. destruct (Z.ltb_spec 0 n_epochs); [|lia]. rewrite Ec.
    destruct (Z.to_nat n_epochs) as [|n] eqn:En; [lia|].
    unfold Training.train_loop, epoch_step, Training.train_step.
    rewrite El. reflexivity.
  - intros Hn Ec Hne HK HL Ef. destruct (Z.ltb_spec 0 n_epochs); [|lia]. rewrite Ec.
    destruct (Z.to_nat n_epochs) as [|n] eqn:En; [lia|].
    cbn [Training.train_loop]. unfold epoch_step. cbn [weights rng].
    destruct (train_step_ok (weights Weights Rng st) (rng Weights Rng st) Hne HK HL)
      as (loss & w' & E).
    unfold train_step in E. rewrite E, Ef. reflexivity.
Qed.

(** X18.  A run of [train(n)] that has what it needs (a complete
    configuration, a training loader with batches, [K >= 1] splits, a positive
    checkpoint frequency [f]) returns with [train_loss] of length [n] and
    [current_epoch = n]; [save_checkpoint] has been called after exactly the
    epochs [e] of [range(n)] with [(e + 1) mod f = 0], in this order, that is
    [n / f] times; and every epoch has taken one draw from the random source
    per sinogram of the loader. *)
Theorem train_run (st : State Weights Rng) (n_epochs : Z) :
  (0 < n_epochs)%Z -> check_complete Operator self = None ->
  train_loader Operator self <> [] ->
  0 < K -> length (sub_op Operator (core Operator self)) = K ->
  0 < checkpoint_freq Operator self ->
  let n := Z.to_nat n_epochs in
  exists st',
    train st n_epochs = inr st' /\
    length (train_loss Weights Rng st') = n /\
    current_epoch Weights Rng st' = n /\
    saved_checkpoints Weights Rng st'
    = rev (filter (fun e => Nat.eqb ((e + 1) mod checkpoint_freq Operator self) 0) (seq 0 n))
      ++ saved_checkpoints Weights Rng st /\
    length (filter (fun e => Nat.eqb ((e + 1) mod checkpoint_freq Operator self) 0) (seq 0 n))
    = n / checkpoint_freq Operator self /\
    rng Weights Rng st'
    = advance next_raw (n * sinogram_count (train_loader Operator self))
        (rng Weights Rng st).
Proof.
  intros Hn Ec Hne HK HL Hf n.
  unfold train, Training.train. destruct (Z.ltb_spec 0 n_epochs); [|lia]. rewrite Ec.
  fold n. fold train_loop.
  match goal with
  | |- exists st', train_loop n 0 ?st0 = _ /\ _ =>
    destruct (train_loop_ok n 0 st0 Hne HK HL Hf) as (st' & E & Hlen & Hsaved & Hrng & Hcur)
  end.
  exists st'. cbn [train_loss saved_checkpoints rng current_epoch] in *.
  split; [exact E|]. split; [now rewrite Hlen, repeat_length|].
  split; [exact Hcur|]. split; [exact Hsaved|].
  split; [now apply length_checkpoint_epochs|exact Hrng].
Qed.

Lemma test_batches_ok (batches : loader) (w : Weights) (g : Rng) :
  0 < K -> length (sub_op Operator (core Operator self)) = K ->
  exists losses,
    test_batches Operator recon_fn Weights model_eval loss_fn Rng next_raw self batches w g
    = inr (losses, advance next_raw (sinogram_count batches) g) /\
    length losses = length batches.
Proof.
  intros HK HL. revert g; induction batches as [|[sinos targets] rest IH]; intros g; simpl.
  - exists []. split; reflexivity.
  - destruct (MiniBatch.compute_noisy_sub_recon_total Operator recon_fn (core Operator self)
                sinos targets HL) as [bad Eb].
    rewrite Eb.
    destruct (choose_targets_draws (core Operator self) bad (length sinos) 0 g HK)
      as (rt & la & Ec).
    unfold choose_targets in Ec. rewrite Ec.
    destruct (IH (advance next_raw (length sinos) g)) as (losses & E & Hlen).
    rewrite E. eexists. split.
    + now rewrite advance_add.
    + simpl. now rewrite Hlen.
Qed.

(** X19.  [test] on a solver with [K >= 1] splits returns one loss per batch
    of the test loader (none for an empty loader), and takes one draw from the
    random source per test sinogram: it builds its targets the way
    [mini_batch_step] does, so the reported losses depend on the state of the
    random source. *)
Theorem test_outcome (w : Weights) (g : Rng) :
  0 < K -> length (sub_op Operator (core Operator self)) = K ->
  exists losses,
    test w g
    = inr (losses, advance next_raw (sinogram_count (test_loader Operator self)) g) /\
    length losses = length (test_loader Operator self).
Proof.
  intros HK HL. unfold test, Training.test. now apply test_batches_ok.
Qed.

End WithSolver.

Import Examples MoreExamples.

Lemma solver3_ready :
  0 < sino_splits _ solver3 /\ length (sub_op _ solver3) = sino_splits _ solver3.
Proof. split; [vm_compute; lia|reflexivity]. Qed.

Lemma mini_batch_step_edge_cases_witness :
  sino_splits _ solver0 = 0 /\ sinograms <> [] /\
  mini_batch_step recorded_operator shift_recon unit identity_model squared_error
    keep_weights nat counter solver0 tt 4 sinograms clean_images
  = inl (ValueError "high <= 0").
Proof.
  assert (H0 : sino_splits _ solver0 = 0) by reflexivity.
  assert (Hne : sinograms <> []) by discriminate.
  split; [exact H0|]. split; [exact Hne|].
  exact (proj1 (mini_batch_step_edge_cases recorded_operator shift_recon unit identity_model
                  squared_error keep_weights nat counter solver0 tt 4 sinograms clean_images)
           H0 Hne).
Defined.

Lemma mini_batch_step_one_draw_per_sinogram_witness :
  0 < sino_splits _ solver3 /\ length (sub_op _ solver3) = sino_splits _ solver3 /\
  exists loss w',
    mini_batch_step recorded_operator shift_recon unit identity_model squared_error
      keep_weights nat counter solver3 tt 4 sinograms clean_images
    = inr (loss, w', 6).
Proof.
  destruct solver3_ready as [HK HL].
  split; [exact HK|]. split; [exact HL|].
  exact (mini_batch_step_one_draw_per_sinogram recorded_operator shift_recon unit
           identity_model squared_error keep_weights nat counter solver3 tt 4
           sinograms clean_images HK HL).
Defined.


Lemma train_failures_witness :
  (0 <= 0)%Z /\
  train recorded_operator shift_recon unit identity_model squared_error keep_weights nat
    counter training_solver initial_training_state 0
  = inl (AssertionError "Number of epochs must be a positive integer").
Proof.
  assert (H0 : (0 <= 0)%Z) by lia.
  split; [exact H0|].
  exact (proj1 (train_failures recorded_operator shift_recon unit identity_model
                  squared_error keep_weights nat counter training_solver
                  initial_training_state 0) H0).
Defined.

Lemma train_run_witness :
  (0 < 5)%Z /\ check_complete _ training_solver = None /\
  train_loader _ training_solver <> [] /\
  0 < sino_splits _ (core _ training_solver) /\
  length (sub_op _ (core _ training_solver)) = sino_splits _ (core _ training_solver) /\
  0 < checkpoint_freq _ training_solver /\
  exists st',
    train recorded_operator shift_recon unit identity_model squared_error keep_weights nat
      counter training_solver initial_training_state 5 = inr st' /\
    length (train_loss _ _ st') = 5 /\
    current_epoch _ _ st' = 5 /\
    saved_checkpoints _ _ st' = [3; 1] /\
    rng _ _ st' = 24.
Proof.
  destruct solver3_ready as [HK HL].
  assert (H5 : (0 < 5)%Z) by lia.
  assert (Hc : check_complete _ training_solver = None) by reflexivity.
  assert (Hne : train_loader _ training_solver <> []) by discriminate.
  assert (Hf : 0 < checkpoint_freq _ training_solver) by (vm_compute; lia).
  repeat (split; [assumption|]).
  destruct (train_run recorded_operator shift_recon unit identity_model squared_error
              keep_weights nat counter training_solver initial_training_state 5
              H5 Hc Hne HK HL Hf)
    as (st' & E & Hlen & Hcur & Hsaved & _ & Hrng).
  exists st'. repeat split; assumption.
Defined.

Lemma test_outcome_witness :
  0 < sino_splits _ (core _ training_solver) /\
  length (sub_op _ (core _ training_solver)) = sino_splits _ (core _ training_solver) /\
  exists losses,
    test recorded_operator shift_recon unit identity_model squared_error nat counter
      training_solver tt 4 = inr (losses, 6) /\
    length losses = 1.
Proof.
  destruct solver3_ready as [HK HL].
  split; [exact HK|]. split; [exact HL|].
  exact (test_outcome recorded_operator shift_recon unit identity_model squared_error nat
           counter training_solver tt 4 HK HL).
Defined.

End TrainingFacts.

(* ================================================================== *)
(** ** Shapes inside the regulariser, and the constructed solver *)
(* ================================================================== *)

Module Shapes.
Import ACR ACRSpec TensorFacts Convexity.

Lemma tabulated_shape (C H W : nat) (z : fmaps) :
  tabulated C H W z -> length z = C /\ Forall (rect H W) z.
Proof.
  intros [f ->]. unfold tabulate3. split.
  - now rewrite length_map, length_seq.
  - apply Forall_forall. intros im Hin. apply in_map_iff in Hin.
    destruct Hin as (c & <- & _). apply rect_tabulate_shape.
Qed.

Lemma Forall_firstn {A} (P : A -> Prop) (n : nat) (l : list A) :
  Forall P l -> Forall P (firstn n l).
Proof.
  intros HF. revert n; induction HF as [|a l Ha HF IH]; intros [|n]; simpl;
    constructor; auto.
Qed.

Lemma layers_tabulated (C H W : nat) (x : image) (layers : list ICNN_layer) (z : fmaps) :
  rect H W x -> Forall (layer_layout C) layers -> tabulated C H W z ->
  tabulated C H W (fold_left (fun z layer => ICNN_layer_forward layer z [x]) layers z).
Proof.
  intros Rx HL. revert z; induction HL as [|l layers Hl HL IH]; intros z Tz; simpl.
  - exact Tz.
  - apply IH. eexists. now apply ICNN_layer_forward_tabulate.
Qed.

(** X20.  Inside [forward], the state keeps its shape: for an image of
    [H x W] pixels, the stack that leaves the first convolution and every ICNN
    layer, and so the stack that enters the last convolution, has [channels]
    planes of [H x W] entries each ([padding="same"] throughout). *)
Theorem ACR_state_keeps_shape (m : ACR) (H W : nat) (x : image) (n : nat) :
  architecture m -> rect H W x ->
  let z0 := map3d (activation_apply (first_activation m))
              (Conv2d_forward (first_layer m) [x]) in
  let z := fold_left (fun z layer => ICNN_layer_forward layer z [x])
             (firstn n (ICNN_layers m)) z0 in
  length z = Param.channels (model_parameters m) /\ Forall (rect H W) z.
Proof.
  intros (_ & Pf & Cf & HL & _) Rx z0 z.
  apply tabulated_shape. unfold z. apply layers_tabulated; [exact Rx| |].
  - apply Forall_firstn. exact HL.
  - unfold z0. rewrite (Conv2d_forward_same _ _ Pf), Cf.
    rewrite (tabulate3_dims_image H W x _ _ Rx), map3d_tabulate3.
    eexists. reflexivity.
Qed.

Lemma ACR_state_keeps_shape_witness :
  architecture Examples.small_model /\ rect 2 3 Examples.image_a /\
  length (fold_left (fun z layer => ICNN_layer_forward layer z [Examples.image_a])
            (firstn 2 (ICNN_layers Examples.small_model))
            (map3d (activation_apply (first_activation Examples.small_model))
               (Conv2d_forward (first_layer Examples.small_model) [Examples.image_a])))
  = 2%nat.
Proof.
  pose proof (ConvFacts.ACR_init_inv _ _ _ small_model_built) as (_ & _ & _ & _ & _ & HA & _).
  assert (Ra : rect 2 3 Examples.image_a) by (apply rectb_rect; reflexivity).
  split; [exact HA|]. split; [exact Ra|].
  exact (proj1 (ACR_state_keeps_shape Examples.small_model 2 3 Examples.image_a 2 HA Ra)).
Defined.

End Shapes.

Module ConstructedSolver.
Import Noise2Inverse.

Local Open Scope nat_scope.

Section WithSolver.

Variable Other : Type.
Variable Operator : Type.
Variable make_operator : Geometry Other -> Operator.
Variable recon_fn : Operator -> image -> fmaps.
Variable Weights : Type.
Variable model : Weights -> batch -> batch.
Variable loss_fn : batch -> batch -> Q.
Variable optimizer_update : Weights -> batch -> batch -> Weights.
Variable Rng : Type.
Variable next_raw : Rng -> nat * Rng.

(** X21.  [Noise2Inverse_solver.__init__] fails with a [ValueError] when no
    geometry is given; given one, it returns a solver with [sino_splits = K]
    and exactly [K] sub-operators, and for [K >= 1] every [mini_batch_step] on
    this solver returns (no index into [sub_op] is out of range, no draw
    fails). *)
Theorem constructed_solver_can_step (geo : Geometry Other) (K : nat) :
  Noise2Inverse_solver_init Other Operator make_operator None K
  = inl (ValueError "Geometry must be given to Noise2Inverse_solver") /\
  exists self geo',
    Noise2Inverse_solver_init Other Operator make_operator (Some geo) K = inr (self, geo') /\
    sino_splits Operator self = K /\ length (sub_op Operator self) = K /\
    (0 < K -> forall w g data target,
       exists loss w' g',
         mini_batch_step Operator recon_fn Weights model loss_fn optimizer_update Rng
           next_raw self w g data target = inr (loss, w', g')).
Proof.
  split; [reflexivity|].
  unfold Noise2Inverse_solver_init, make_sub_operators.
  rewrite SubOperators.sub_operators_loop_spec.
  eexists _, _. split; [reflexivity|]. cbn [sino_splits sub_op].
  split; [reflexivity|].
  assert (HL : length (map (fun k => make_operator
                  (set_angles geo (py_slice (angles geo) (Z.of_nat k) (-1) K))) (seq 0 K)) = K)
    by (now rewrite length_map, length_seq).
  split; [exact HL|].
  intros HK w g data target.
  destruct (TrainingFacts.mini_batch_step_draws Operator recon_fn Weights model loss_fn
              optimizer_update Rng next_raw
              {| sino_splits := K;
                 sub_op := map (fun k => make_operator
                   (set_angles geo (py_slice (angles geo) (Z.of_nat k) (-1) K))) (seq 0 K) |}
              w g data target HK HL) as (loss & w' & E).
  eexists _, _, _. exact E.
Qed.

End WithSolver.

Lemma constructed_solver_can_step_witness :
  0 < 3 /\
  exists self geo',
    Noise2Inverse_solver_init unit Examples.recorded_operator Examples.record_geometry
      (Some Examples.geo7) 3 = inr (self, geo') /\
    length (sub_op _ self) = 3.
Proof.
  split; [lia|].
  destruct (proj2 (constructed_solver_can_step unit Examples.recorded_operator
              Examples.record_geometry Examples.shift_recon unit Examples.identity_model
              Examples.squared_error Examples.keep_weights nat Examples.counter
              Examples.geo7 3))
    as (self & geo' & E & _ & HL & _).
  exists self, geo'. split; assumption.
Defined.

End ConstructedSolver.
